(** * LessonView: entitlement policy, media reference resolver, quiz session

    A shallow embedding of the logic of [src/components/LessonView.tsx]:
    the download-permission check, the Drive / YouTube URL rewriting of the
    video and PDF renderers, the multiple-choice session (answer map,
    batching, score, submit gate, timer, persisted snapshot), and the
    identifier extraction of [CustomPlayer].

    Conventions of the embedding.
    - A JavaScript string is a Rocq [string] that holds its UTF-8
      encoding: an ASCII character is one [ascii], a character above 127 is
      the two or three bytes of its encoding.  [startsWith], [includes] and
      the class backslash-w are then as in ECMAScript.  The case maps
      [toUpperCase] and [toLowerCase] are ECMAScript's on ASCII and on every
      character above 127 whose upper (lower) case has an ASCII character
      in it (the dotless i and the long s among them); any other character
      above 127 is left as it is, where ECMAScript gives characters above
      127 again, so that a comparison or a search with ASCII text comes out
      as in ECMAScript.  The class backslash-s is its ASCII part.
    - A JavaScript number that the code uses as an index or a counter is a
      [nat]; a number that comes from data (an option index, a correct
      answer) is a [Z].
    - An operation that can raise returns a [result]; [Throws e] is the
      uncaught exception.
    - React state is a record; an event handler is a function on it; an
      effect is a function that runs after the handlers that change one of
      its dependencies.
    - [Math.random] is not modelled: every operation that shuffles takes the
      order it drew as an argument. *)

From Stdlib Require Import ZArith Ascii Lia DecimalString DecimalPos DecimalNat.
From stdpp Require Import base option list sorting gmap strings.

Local Open Scope stdpp_scope.

(** ** Results of operations that can raise *)

Inductive exn := TypeError | SyntaxError.

Inductive result (A : Type) :=
| Ok (a : A)
| Throws (e : exn).
Arguments Ok {A} a.
Arguments Throws {A} e.

Global Instance result_ret : MRet result := λ A a, Ok a.
Global Instance result_bind : MBind result := λ A B k r,
  match r with
  | Ok a => k a
  | Throws e => Throws e
  end.

Global Instance result_fmap : FMap result := λ A B f r,
  match r with
  | Ok a => Ok (f a)
  | Throws e => Throws e
  end.

(** ** The string primitives the component uses *)

Module JS.

Definition code (c : ascii) : N := N_of_ascii c.

(** The double quote, as a character and as a string of one character. *)
Definition dquote : ascii := "034"%char.
Definition dquotes : string := String dquote EmptyString.

Definition between (lo hi : N) (c : ascii) : bool :=
  ((lo <=? code c) && (code c <=? hi))%N.

Definition isLower (c : ascii) : bool := between 97 122 c.
Definition isUpper (c : ascii) : bool := between 65 90 c.
Definition isDigit (c : ascii) : bool := between 48 57 c.

Definition upperChar (c : ascii) : ascii :=
  if isLower c then ascii_of_N (code c - 32) else c.
Definition lowerChar (c : ascii) : ascii :=
  if isUpper c then ascii_of_N (code c + 32) else c.

Fixpoint mapChars (f : ascii → ascii) (s : string) : string :=
  match s with
  | EmptyString => EmptyString
  | String c s' => String (f c) (mapChars f s')
  end.

(** [s.startsWith(p)] *)
Fixpoint startsWith (s p : string) : bool :=
  match p, s with
  | EmptyString, _ => true
  | String a p', String b s' => bool_decide (a = b) && startsWith s' p'
  | String _ _, EmptyString => false
  end.

(** The characters above 127 whose upper case, in the Unicode case
    conversion that [toUpperCase] applies, has an ASCII character in it,
    each with its upper case: U+0131 and U+017F (to [I] and [S]), U+00DF,
    U+0149, U+01F0, U+1E96 to U+1E9A, and the ligatures U+FB00 to U+FB06. *)
Definition upperSpecial : list (string * string) :=
  [ ("ı", "I"); ("ſ", "S"); ("ß", "SS"); ("ŉ", "ʼN"); ("ǰ", "J̌");
    ("ẖ", "H̱"); ("ẗ", "T̈"); ("ẘ", "W̊"); ("ẙ", "Y̊"); ("ẚ", "Aʾ");
    ("ﬀ", "FF"); ("ﬁ", "FI"); ("ﬂ", "FL"); ("ﬃ", "FFI"); ("ﬄ", "FFL");
    ("ﬅ", "ST"); ("ﬆ", "ST") ].

(** The same for the lower case: U+212A (to [k]) and U+0130. *)
Definition lowerSpecial : list (string * string) :=
  [ ("K", "k"); ("İ", "i̇") ].

(** The entry of [table] that [s] starts with: what it maps to, and how
    many bytes it takes. *)
Fixpoint special (table : list (string * string)) (s : string) : option (string * nat) :=
  match table with
  | [] => None
  | (from, to) :: rest =>
      if startsWith s from then Some (to, String.length from) else special rest s
  end.

(** A case map: a character of the table by the table, any other byte by
    [f]; [skip] bytes of a character of the table are still to be passed
    over. *)
Fixpoint mapCase (table : list (string * string)) (f : ascii → ascii)
    (skip : nat) (s : string) : string :=
  match s with
  | EmptyString => EmptyString
  | String c s' =>
      match skip with
      | S k => mapCase table f k s'
      | 0 =>
          match special table s with
          | Some (to, n) => to +:+ mapCase table f (n - 1) s'
          | None => String (f c) (mapCase table f 0 s')
          end
      end
  end.

(** [s.toUpperCase()] and [s.toLowerCase()] *)
Definition toUpperCase (s : string) : string := mapCase upperSpecial upperChar 0 s.
Definition toLowerCase (s : string) : string := mapCase lowerSpecial lowerChar 0 s.

(** [s.includes(p)] *)
Fixpoint includes (s p : string) : bool :=
  startsWith s p ||
  match s with
  | EmptyString => false
  | String _ s' => includes s' p
  end.

(** [s.endsWith(p)] *)
Definition endsWith (s p : string) : bool :=
  startsWith (String.rev s) (String.rev p).

(** [s] without its first [n] characters *)
Fixpoint dropChars (n : nat) (s : string) : string :=
  match n, s with
  | S n', String _ s' => dropChars n' s'
  | _, _ => s
  end.

(** [s.replace(p, r)] with a string pattern: the first occurrence only. *)
Fixpoint replace (s p r : string) : string :=
  if startsWith s p then r +:+ dropChars (String.length p) s
  else match s with
       | EmptyString => EmptyString
       | String c s' => String c (replace s' p r)
       end.

(** The class backslash-w, and the class of the Drive and YouTube
    identifiers, which adds the hyphen. *)
Definition isWord (c : ascii) : bool :=
  isLower c || isUpper c || isDigit c || bool_decide (c = "_"%char).
Definition isIdChar (c : ascii) : bool :=
  isWord c || bool_decide (c = "-"%char).

(** The class backslash-s (ASCII part) and its complement backslash-S. *)
Definition isSpace (c : ascii) : bool :=
  between 9 13 c || bool_decide (c = " "%char).
Definition isNonSpace (c : ascii) : bool := negb (isSpace c).

(** The longest prefix of [s] made of characters of class [p], and what
    follows it: a greedy [p*]. *)
Fixpoint span (p : ascii → bool) (s : string) : string * string :=
  match s with
  | EmptyString => (EmptyString, EmptyString)
  | String c s' =>
      if p c then let '(run, rest) := span p s' in (String c run, rest)
      else (EmptyString, s)
  end.

(** every character of [s] is of class [p] *)
Fixpoint allChars (p : ascii → bool) (s : string) : bool :=
  match s with
  | EmptyString => true
  | String c s' => p c && allChars p s'
  end.

(** the first [n] characters of [s], or all of it when it is shorter *)
Fixpoint takeChars (n : nat) (s : string) : string :=
  match n, s with
  | S n', String c s' => String c (takeChars n' s')
  | _, _ => EmptyString
  end.

(** Exactly [n] characters of class [p] at the head of [s]: [p{n}]. *)
Definition exactly (n : nat) (p : ascii → bool) (s : string) : option string :=
  let t := takeChars n s in
  if bool_decide (String.length t = n) && allChars p t then Some t else None.

(** [lit p s]: the remainder of [s] after the literal [p], if [s] starts
    with it. *)
Definition lit (p s : string) : option string :=
  if startsWith s p then Some (dropChars (String.length p) s) else None.

End JS.

Import JS.

Notation "a === b" := (bool_decide (a = b :> string)) (at level 70, no associativity).

(** ** Entitlement: [checkDownloadPermission] *)

Inductive ContentKind := VIDEO | PDF.

Global Instance ContentKind_eq_dec : EqDecision ContentKind.
Proof. solve_decision. Defined.

(** The [User] type lives outside this file; the check reads one field. *)
Record User := { subscriptionPlan : option string }.

Definition checkDownloadPermission
    (user : option User) (contentType : ContentKind) (isUltra : bool) : bool :=
  match user with
  | None => false
  | Some u =>
    match subscriptionPlan u with
    | None => false
    | Some p =>
      if p === "" then false else
      let plan := toUpperCase p in
      (* 1. Weekly & Monthly: no downloads *)
      if (plan === "WEEKLY") || (plan === "MONTHLY") then false
      (* 2. 3 months: normal video and PDF, no ultra video *)
      else if (plan === "QUARTERLY") || (plan === "3_MONTHS") || (plan === "3 MONTHS") then
        if bool_decide (contentType = VIDEO) && isUltra then false else true
      (* 3. 1 year and lifetime: everything *)
      else if (plan === "YEARLY") || (plan === "LIFETIME") || (plan === "1_YEAR") || (plan === "1 YEAR") then
        true
      else false
    end
  end.

(** ** The decision table of the specification

    The entitlement policy as the specification words it: a plan label is
    normalised (case ignored, aliases collapsed) to a tier, and the tier
    decides.  The table is kept apart from the code above so that the two
    can be compared. *)

Inductive Tier := WeeklyMonthly | Quarterly | YearlyLifetime.

Definition decisionTable (t : option Tier) (kind : ContentKind) (premium : bool) : bool :=
  match t, kind with
  | Some WeeklyMonthly, _ => false
  | Some Quarterly, PDF => true
  | Some Quarterly, VIDEO => negb premium
  | Some YearlyLifetime, _ => true
  | None, _ => false
  end.

(** Labels are compared by their upper case, as the code compares them. *)
Definition sameLabel (a b : string) : bool := toUpperCase a === toUpperCase b.

(** A label with its ASCII letters in lower case: two labels that differ in
    the case of ASCII letters only have the same. *)
Definition asciiFold (label : string) : string := mapChars lowerChar label.

Fixpoint lookupAlias (aliases : list (string * Tier)) (label : string) : option Tier :=
  match aliases with
  | [] => None
  | (a, t) :: rest => if sameLabel label a then Some t else lookupAlias rest label
  end.

Definition evaluate (aliases : list (string * Tier))
    (learnerPlan : option string) (kind : ContentKind) (premium : bool) : bool :=
  decisionTable (learnerPlan ≫= lookupAlias aliases) kind premium.

(** The aliases as the specification lists them ... *)
Definition specAliases : list (string * Tier) :=
  [ ("weekly", WeeklyMonthly); ("monthly", WeeklyMonthly);
    ("quarterly", Quarterly); ("3-month", Quarterly); ("3 months", Quarterly);
    ("yearly", YearlyLifetime); ("lifetime", YearlyLifetime);
    ("1-year", YearlyLifetime); ("1 year", YearlyLifetime) ].

(** ... and as the code spells them. *)
Definition codeAliases : list (string * Tier) :=
  [ ("weekly", WeeklyMonthly); ("monthly", WeeklyMonthly);
    ("quarterly", Quarterly); ("3_months", Quarterly); ("3 months", Quarterly);
    ("yearly", YearlyLifetime); ("lifetime", YearlyLifetime);
    ("1_year", YearlyLifetime); ("1 year", YearlyLifetime) ].

Definition planOf (user : option User) : option string := user ≫= subscriptionPlan.


(** ** Media references: the two regular expressions *)

(** [url.match(/[-\w]{25,}/)]: at each position from the left, the greedy
    run of identifier characters; the first position where it has 25
    characters or more gives the match. *)
Fixpoint idMatch (url : string) : option string :=
  match url with
  | EmptyString => None
  | String _ rest =>
      let run := fst (span isIdChar url) in
      if bool_decide (25 ≤ String.length run) then Some run else idMatch rest
  end.

(** The words of the specification for the Drive identifier: "the first
    contiguous token of 25 or more word characters or hyphens".  A token is
    a run of such characters; [firstToken url t] says that [t] occurs in
    [url], cannot be extended to the right, and that no token occurs in
    [url] at an earlier position. *)
Definition isToken (t : string) : Prop :=
  allChars isIdChar t = true ∧ 25 ≤ String.length t.

Definition firstToken (url t : string) : Prop :=
  ∃ pre post,
    url = pre +:+ t +:+ post
    ∧ isToken t
    ∧ (∀ c post', post = String c post' → isIdChar c = false)
    ∧ (∀ pre' t' post', url = pre' +:+ t' +:+ post' → isToken t' →
                        String.length pre ≤ String.length pre').

Definition noToken (url : string) : Prop :=
  ∀ pre t post, url = pre +:+ t +:+ post → ¬ isToken t.

(** Robust Drive link generator *)
Definition getDriveDownloadLink (url : string) : option string :=
  match idMatch url with
  | Some id => Some ("https://drive.google.com/u/0/uc?id=" +:+ id +:+ "&export=download")
  | None => None
  end.

(** The capture group of the YouTube expression: eleven identifier
    characters. *)
Definition videoId : string → option string := exactly 11 isIdChar.

(** Backslash-S-plus followed by the group: the greedy run gives back one
    character at a time, down to one, until the group matches. *)
Fixpoint giveBack (k : nat) (s : string) : option string :=
  match k with
  | 0 => None
  | S k' =>
      match videoId (dropChars k s) with
      | Some id => Some id
      | None => giveBack k' s
      end
  end.

Definition userPath (s : string) : option string :=
  giveBack (String.length (fst (span isNonSpace s))) s.

Definition orElse {A} (a b : option A) : option A :=
  match a with Some _ => a | None => b end.

(** One attempt of the YouTube expression, anchored at the head of [s];
    the alternatives are tried in the order of the source. *)
Definition ytAt (s : string) : option string :=
  orElse (lit "youtu.be/" s ≫= videoId)
    (lit "youtube.com" s ≫= λ r,
       orElse (lit "/embed/" r ≫= videoId)
      (orElse (lit "/v/" r ≫= videoId)
      (orElse (lit "/watch?v=" r ≫= videoId)
      (orElse (lit "/user/" r ≫= userPath)
              (lit "/ytscreeningroom?v=" r ≫= videoId))))).

(** [url.match(/(?:youtu\.be\/|youtube\.com(?:...))([\w-]{11})/)], group 1 *)
Fixpoint ytMatch (url : string) : option string :=
  match ytAt url with
  | Some id => Some id
  | None =>
      match url with
      | EmptyString => None
      | String _ rest => ytMatch rest
      end
  end.

(** ** Lesson content *)

(** One question.  The [MCQItem] type lives outside this file; these are the
    fields the component reads. *)
Record MCQItem := {
  question : string;
  options : list string;
  correctAnswer : Z;
  explanation : string
}.

(** A selection in the answer map: a number, or [null] (the declared type
    is [number | null]). *)
Definition selection := option Z.

Record PlaylistItem := { item_title : string; url : string }.

Record LessonContent := {
  type : string;
  title : string;
  content : string;
  tags : option (list string);
  videoPlaylist : option (list PlaylistItem);
  mcqData : option (list MCQItem);
  userAnswers : option (gmap nat selection);
  aiHtmlContent : option string
}.

Record Chapter := { id : string; chapter_title : string }.

(** ** The video renderer: Drive and YouTube rewriting *)

Record ResolvedVideo := {
  embedUrl : string;
  downloadUrl : option string;
  isDriveVideo : bool;
  isYouTubeVideo : bool
}.

(** The "advanced URL parser" of the video renderer, for the current video's
    URL and the outcome [canDownload] of the permission check. *)
Definition parseVideoUrl (canDownload : bool) (videoUrl : string) : ResolvedVideo :=
  if includes videoUrl "drive.google.com" then
    match idMatch videoUrl with
    | Some id =>
        {| embedUrl := "https://drive.google.com/file/d/" +:+ id +:+ "/preview";
           downloadUrl :=
             if canDownload
             then Some ("https://drive.google.com/u/0/uc?id=" +:+ id +:+ "&export=download")
             else None;
           isDriveVideo := true; isYouTubeVideo := false |}
    | None =>
        {| embedUrl := videoUrl; downloadUrl := None;
           isDriveVideo := true; isYouTubeVideo := false |}
    end
  else if includes videoUrl "youtube.com" || includes videoUrl "youtu.be" then
    {| embedUrl :=
         match ytMatch videoUrl with
         | Some v => "https://www.youtube.com/embed/" +:+ v +:+ "?autoplay=1"
         | None => videoUrl
         end;
       downloadUrl := None;
       isDriveVideo := false; isYouTubeVideo := true |}
  else
    {| embedUrl := videoUrl; downloadUrl := None;
       isDriveVideo := false; isYouTubeVideo := false |}.

(** Secure source for YouTube *)
Definition secureSrc (r : ResolvedVideo) : string :=
  if isYouTubeVideo r
  then embedUrl r +:+ "&modestbranding=1&rel=0&iv_load_policy=3&controls=1&disablekb=1&showinfo=0&fs=0"
  else embedUrl r.

Definition isUltraContent (c : LessonContent) : bool :=
  includes (toLowerCase (title c)) "ultra" ||
  match tags c with
  | Some ts => bool_decide ("ultra" ∈ ts)
  | None => false
  end.

Definition playlist (c : LessonContent) (ch : Chapter) : list PlaylistItem :=
  match videoPlaylist c with
  | Some (v :: vs) => v :: vs
  | _ => [ {| item_title := chapter_title ch; url := content c |} ]
  end.

Record VideoView := {
  canDownload : bool;
  resolved : ResolvedVideo;
  (* the download button is rendered when [canDownload && downloadUrl] *)
  downloadButton : option string
}.

(** The video renderer; [currentVideoIndex] is its own piece of state.
    Reading [.url] of a playlist entry that does not exist raises. *)
Definition videoRenderer (user : option User) (c : LessonContent) (ch : Chapter)
    (currentVideoIndex : nat) : result VideoView :=
  match playlist c ch !! currentVideoIndex with
  | None => Throws TypeError
  | Some currentVideo =>
      let canDownload := checkDownloadPermission user VIDEO (isUltraContent c) in
      let r := parseVideoUrl canDownload (url currentVideo) in
      Ok {| canDownload := canDownload;
            resolved := r;
            downloadButton := if canDownload then downloadUrl r else None |}
  end.

(** ** The PDF viewer *)

Record PdfView := {
  isPdf : bool;
  canDownloadPdf : bool;
  pdfDownloadLink : option string;
  (* the download button is rendered when [canDownloadPdf && pdfDownloadLink] *)
  pdfDownloadButton : option string;
  pdfFrameSrc : string
}.

Definition pdfViewer (user : option User) (c : LessonContent) : PdfView :=
  let isPdf := endsWith (toLowerCase (content c)) ".pdf"
               || includes (content c) "drive.google.com"
               || includes (content c) "docs.google.com" in
  let canDownloadPdf := checkDownloadPermission user PDF false in
  let pdfDownloadLink :=
    if includes (content c) "drive.google.com" && canDownloadPdf then
      match idMatch (content c) with
      | Some id => Some ("https://drive.google.com/u/0/uc?id=" +:+ id +:+ "&export=download")
      | None => None
      end
    else if canDownloadPdf then Some (content c)
    else None in
  {| isPdf := isPdf;
     canDownloadPdf := canDownloadPdf;
     pdfDownloadLink := pdfDownloadLink;
     pdfDownloadButton :=
       if canDownloadPdf
       then (match pdfDownloadLink with Some "" => None | l => l end)
       else None;
     pdfFrameSrc := replace (replace (content c) "/view" "/preview") "/edit" "/preview" |}.

(** ** JSON: the text format of the persisted snapshot *)

Module JSON.

(** A parsed value.  [JNum] is an integer literal; a literal with a
    fraction or an exponent is kept as its text in [JFrac]; object members
    are in source order. *)
#[warnings="-register-all"]
Inductive json :=
| JNull
| JBool (b : bool)
| JNum (n : Z)
| JFrac (lexeme : string)
| JStr (s : string)
| JArr (items : list json)
| JObj (members : list (string * json)).

(** Outcome of a parsing function on a prefix of the text. *)
Inductive parsed (A : Type) :=
| Done (a : A) (rest : string)
| Bad
| NoFuel.
Arguments Done {A} a rest.
Arguments Bad {A}.
Arguments NoFuel {A}.

Definition andThen {A B} (p : parsed A) (k : A → string → parsed B) : parsed B :=
  match p with
  | Done a rest => k a rest
  | Bad => Bad
  | NoFuel => NoFuel
  end.

Definition isWs (c : ascii) : bool :=
  bool_decide (c = " "%char) || bool_decide (c = "009"%char)
  || bool_decide (c = "010"%char) || bool_decide (c = "013"%char).

Definition skipWs (s : string) : string := snd (span isWs s).

(** *** String literals *)

Definition hexDigit (c : ascii) : option N :=
  if isDigit c then Some (code c - 48)%N
  else if between 97 102 c then Some (code c - 87)%N
  else if between 65 70 c then Some (code c - 55)%N
  else None.

(** The UTF-8 bytes of a code unit given by a [\uXXXX] escape. *)
Definition utf8 (n : N) : string :=
  let byte (k : N) := String (ascii_of_N k) EmptyString in
  (if n <? 128 then byte n
   else if n <? 2048 then byte (192 + n / 64) +:+ byte (128 + n mod 64)
   else byte (224 + n / 4096) +:+ byte (128 + (n / 64) mod 64) +:+ byte (128 + n mod 64))%N.

Definition unescape (c : ascii) : option ascii :=
  if bool_decide (c = dquote) then Some dquote
  else if bool_decide (c = "\"%char) then Some "\"%char
  else if bool_decide (c = "/"%char) then Some "/"%char
  else if bool_decide (c = "b"%char) then Some "008"%char
  else if bool_decide (c = "f"%char) then Some "012"%char
  else if bool_decide (c = "n"%char) then Some "010"%char
  else if bool_decide (c = "r"%char) then Some "013"%char
  else if bool_decide (c = "t"%char) then Some "009"%char
  else None.

Inductive strMode :=
| Plain
| Escaped
| Hex (remaining : nat) (acc : N).

Definition prepend (t : string) (p : parsed string) : parsed string :=
  andThen p (λ u rest, Done (t +:+ u) rest).

(** The characters of a string literal after its opening quote, up to and
    including the closing quote. *)
Fixpoint stringBody (m : strMode) (s : string) : parsed string :=
  match s with
  | EmptyString => Bad
  | String c r =>
      match m with
      | Plain =>
          if bool_decide (c = dquote) then Done EmptyString r
          else if bool_decide (c = "\"%char) then stringBody Escaped r
          else if (code c <? 32)%N then Bad
          else prepend (String c EmptyString) (stringBody Plain r)
      | Escaped =>
          match unescape c with
          | Some d => prepend (String d EmptyString) (stringBody Plain r)
          | None =>
              if bool_decide (c = "u"%char) then stringBody (Hex 4 0) r else Bad
          end
      | Hex k acc =>
          match hexDigit c with
          | None => Bad
          | Some d =>
              let acc' := (16 * acc + d)%N in
              match k with
              | 0 => Bad
              | 1 => prepend (utf8 acc') (stringBody Plain r)
              | S k' => stringBody (Hex k' acc') r
              end
          end
      end
  end.

(** *** Number literals *)

Fixpoint decimal (acc : N) (digits : string) : N :=
  match digits with
  | EmptyString => acc
  | String c r => decimal (10 * acc + (code c - 48))%N r
  end.

(** The integer part: a single [0], or a digit from 1 to 9 followed by
    digits. *)
Definition intPart (s : string) : option (string * string) :=
  match s with
  | String c r =>
      if bool_decide (c = "0"%char) then Some (String c EmptyString, r)
      else if isDigit c then Some (span isDigit s)
      else None
  | EmptyString => None
  end.

(** Digits that must be there: after the point, after the exponent. *)
Definition digits1 (s : string) : option string :=
  let '(ds, rest) := span isDigit s in
  if bool_decide (ds = EmptyString) then None else Some rest.

Definition fracPart (s : string) : option (bool * string) :=
  match lit "." s with
  | Some r => r' ← digits1 r; Some (true, r')
  | None => Some (false, s)
  end.

Definition expPart (s : string) : option (bool * string) :=
  match orElse (lit "e" s) (lit "E" s) with
  | Some r =>
      let r1 := default r (orElse (lit "+" r) (lit "-" r)) in
      r' ← digits1 r1; Some (true, r')
  | None => Some (false, s)
  end.

Definition number (s : string) : parsed json :=
  let '(neg, s1) := match lit "-" s with Some r => (true, r) | None => (false, s) end in
  match intPart s1 with
  | None => Bad
  | Some (ds, s2) =>
      match fracPart s2 with
      | None => Bad
      | Some (hasFrac, s3) =>
          match expPart s3 with
          | None => Bad
          | Some (hasExp, s4) =>
              if hasFrac || hasExp
              then Done (JFrac (takeChars (String.length s - String.length s4) s)) s4
              else
                let n := Z.of_N (decimal 0 ds) in
                Done (JNum (if neg then - n else n)%Z) s4
          end
      end
  end.

(** *** Values *)

Fixpoint parseValue (fuel : nat) (s : string) : parsed json :=
  match fuel with
  | 0 => NoFuel
  | S fuel' =>
      let s := skipWs s in
      match lit "null" s, lit "true" s, lit "false" s, lit dquotes s, lit "[" s, lit "{" s with
      | Some r, _, _, _, _, _ => Done JNull r
      | _, Some r, _, _, _, _ => Done (JBool true) r
      | _, _, Some r, _, _, _ => Done (JBool false) r
      | _, _, _, Some r, _, _ => andThen (stringBody Plain r) (λ t rest, Done (JStr t) rest)
      | _, _, _, _, Some r, _ =>
          match lit "]" (skipWs r) with
          | Some rest => Done (JArr []) rest
          | None => andThen (parseElements fuel' r) (λ l rest, Done (JArr l) rest)
          end
      | _, _, _, _, _, Some r =>
          match lit "}" (skipWs r) with
          | Some rest => Done (JObj []) rest
          | None => andThen (parseMembers fuel' r) (λ l rest, Done (JObj l) rest)
          end
      | _, _, _, _, _, _ => number s
      end
  end

(** one or more values separated by commas, then the closing bracket *)
with parseElements (fuel : nat) (s : string) : parsed (list json) :=
  match fuel with
  | 0 => NoFuel
  | S fuel' =>
      andThen (parseValue fuel' s) (λ v rest,
        let rest := skipWs rest in
        match lit "]" rest, lit "," rest with
        | Some rest', _ => Done [v] rest'
        | _, Some rest' => andThen (parseElements fuel' rest') (λ l rest'', Done (v :: l) rest'')
        | _, _ => Bad
        end)
  end

(** one or more [key : value] separated by commas, then the closing brace *)
with parseMembers (fuel : nat) (s : string) : parsed (list (string * json)) :=
  match fuel with
  | 0 => NoFuel
  | S fuel' =>
      match lit dquotes (skipWs s) with
      | None => Bad
      | Some r =>
          andThen (stringBody Plain r) (λ k rest,
            match lit ":" (skipWs rest) with
            | None => Bad
            | Some rest =>
                andThen (parseValue fuel' rest) (λ v rest,
                  let rest := skipWs rest in
                  match lit "}" rest, lit "," rest with
                  | Some rest', _ => Done [(k, v)] rest'
                  | _, Some rest' =>
                      andThen (parseMembers fuel' rest') (λ l rest'', Done ((k, v) :: l) rest'')
                  | _, _ => Bad
                  end)
            end)
      end
  end.

(** [JSON.parse(text)]: one value, surrounded by white space only.  Two units
    of fuel are spent at most for each character read, so the fuel given
    here is never used up (lemma [parse_fuel] below). *)
Definition parse (text : string) : result json :=
  match parseValue (2 * String.length text + 2) text with
  | Done v rest =>
      if bool_decide (skipWs rest = EmptyString) then Ok v else Throws SyntaxError
  | Bad | NoFuel => Throws SyntaxError
  end.

(** *** Printing *)

Definition showNat (n : nat) : string := NilZero.string_of_uint (Nat.to_uint n).
Definition showZ (n : Z) : string := NilZero.string_of_int (Z.to_int n).

Definition hexChar (n : N) : ascii :=
  if (n <? 10)%N then ascii_of_N (48 + n) else ascii_of_N (87 + n).

Definition escapeChar (c : ascii) : string :=
  if bool_decide (c = dquote) then "\" +:+ dquotes
  else if bool_decide (c = "\"%char) then "\\"
  else if bool_decide (c = "008"%char) then "\b"
  else if bool_decide (c = "012"%char) then "\f"
  else if bool_decide (c = "010"%char) then "\n"
  else if bool_decide (c = "013"%char) then "\r"
  else if bool_decide (c = "009"%char) then "\t"
  else if (code c <? 32)%N
       then "\u00" +:+ String (hexChar (code c / 16)) (String (hexChar (code c mod 16)) EmptyString)
  else String c EmptyString.

Fixpoint escape (s : string) : string :=
  match s with
  | EmptyString => EmptyString
  | String c r => escapeChar c +:+ escape r
  end.

Definition quote (s : string) : string := dquotes +:+ escape s +:+ dquotes.

Fixpoint commas (l : list string) : string :=
  match l with
  | [] => EmptyString
  | [x] => x
  | x :: r => x +:+ "," +:+ commas r
  end.

(** [JSON.stringify(v)] *)
Fixpoint stringify (v : json) : string :=
  match v with
  | JNull => "null"
  | JBool true => "true"
  | JBool false => "false"
  | JNum n => showZ n
  | JFrac lexeme => lexeme
  | JStr t => quote t
  | JArr l => "[" +:+ commas (map stringify l) +:+ "]"
  | JObj ms =>
      "{" +:+ commas (map (λ kv, quote (fst kv) +:+ ":" +:+ stringify (snd kv)) ms) +:+ "}"
  end.

(** [o.name]: the value of the last member of that name, if any. *)
Fixpoint field (name : string) (ms : list (string * json)) : option json :=
  match ms with
  | [] => None
  | (k, v) :: r =>
      match field name r with
      | Some v' => Some v'
      | None => if k === name then Some v else None
      end
  end.

(** The values that count as false in [v || d] and [if (v)]; a [JFrac]
    is not looked into. *)
Definition falsy (v : json) : bool :=
  match v with
  | JNull | JBool false | JNum 0 | JStr EmptyString => true
  | _ => false
  end.

End JSON.

(** ** The multiple-choice session *)

Record State := {
  mcqState : gmap nat selection;
  showResults : bool;
  localMcqData : list MCQItem;
  showResumePrompt : bool;
  analysisUnlocked : bool;
  showSubmitModal : bool;
  sessionTime : nat;
  batchIndex : nat
}.

Definition BATCH_SIZE : nat := 50.

(** The values of [useState] at mount. *)
Definition initialState : State :=
  {| mcqState := ∅; showResults := false; localMcqData := [];
     showResumePrompt := false; analysisUnlocked := false;
     showSubmitModal := false; sessionTime := 0; batchIndex := 0 |}.

Definition setMcqState (m : gmap nat selection) (st : State) : State :=
  {| mcqState := m; showResults := showResults st;
     localMcqData := localMcqData st; showResumePrompt := showResumePrompt st;
     analysisUnlocked := analysisUnlocked st; showSubmitModal := showSubmitModal st;
     sessionTime := sessionTime st; batchIndex := batchIndex st |}.

Definition setShowResults (b : bool) (st : State) : State :=
  {| mcqState := mcqState st; showResults := b;
     localMcqData := localMcqData st; showResumePrompt := showResumePrompt st;
     analysisUnlocked := analysisUnlocked st; showSubmitModal := showSubmitModal st;
     sessionTime := sessionTime st; batchIndex := batchIndex st |}.

Definition setLocalMcqData (l : list MCQItem) (st : State) : State :=
  {| mcqState := mcqState st; showResults := showResults st;
     localMcqData := l; showResumePrompt := showResumePrompt st;
     analysisUnlocked := analysisUnlocked st; showSubmitModal := showSubmitModal st;
     sessionTime := sessionTime st; batchIndex := batchIndex st |}.

Definition setShowResumePrompt (b : bool) (st : State) : State :=
  {| mcqState := mcqState st; showResults := showResults st;
     localMcqData := localMcqData st; showResumePrompt := b;
     analysisUnlocked := analysisUnlocked st; showSubmitModal := showSubmitModal st;
     sessionTime := sessionTime st; batchIndex := batchIndex st |}.

Definition setAnalysisUnlocked (b : bool) (st : State) : State :=
  {| mcqState := mcqState st; showResults := showResults st;
     localMcqData := localMcqData st; showResumePrompt := showResumePrompt st;
     analysisUnlocked := b; showSubmitModal := showSubmitModal st;
     sessionTime := sessionTime st; batchIndex := batchIndex st |}.

Definition setShowSubmitModal (b : bool) (st : State) : State :=
  {| mcqState := mcqState st; showResults := showResults st;
     localMcqData := localMcqData st; showResumePrompt := showResumePrompt st;
     analysisUnlocked := analysisUnlocked st; showSubmitModal := b;
     sessionTime := sessionTime st; batchIndex := batchIndex st |}.

Definition setSessionTime (t : nat) (st : State) : State :=
  {| mcqState := mcqState st; showResults := showResults st;
     localMcqData := localMcqData st; showResumePrompt := showResumePrompt st;
     analysisUnlocked := analysisUnlocked st; showSubmitModal := showSubmitModal st;
     sessionTime := t; batchIndex := batchIndex st |}.

Definition setBatchIndex (b : nat) (st : State) : State :=
  {| mcqState := mcqState st; showResults := showResults st;
     localMcqData := localMcqData st; showResumePrompt := showResumePrompt st;
     analysisUnlocked := analysisUnlocked st; showSubmitModal := showSubmitModal st;
     sessionTime := sessionTime st; batchIndex := b |}.

(** *** What a render computes *)

(** [Object.keys(o)] of an object with index keys: the keys in ascending
    order (each read back with [parseInt]). *)
Definition Object_keys {V} (o : gmap nat V) : list nat :=
  merge_sort (≤) (elements (dom o)).

(** [l.slice(from, to)] for indices that are not negative *)
Definition slice {A} (from to : nat) (l : list A) : list A :=
  take (to - from) (drop from l).

Definition currentBatchData (st : State) : list MCQItem :=
  slice (batchIndex st * BATCH_SIZE) ((batchIndex st + 1) * BATCH_SIZE) (localMcqData st).

(** One step of the reducer of [score]; reading [.correctAnswer] of a
    question that does not exist raises. *)
Definition scoreStep (st : State) (acc : result nat) (key : nat) : result nat :=
  n ← acc;
  match localMcqData st !! key with
  | None => Throws TypeError
  | Some q =>
      Ok (n + (if bool_decide (mcqState st !! key = Some (Some (correctAnswer q)))
               then 1 else 0))
  end.

Definition score (st : State) : result nat :=
  foldl (scoreStep st) (Ok 0) (Object_keys (mcqState st)).

Definition attemptedCount (st : State) : nat :=
  length (Object_keys (mcqState st)).

Definition canSubmit (st : State) : bool :=
  bool_decide (50 `min` length (localMcqData st) ≤ attemptedCount st).

(** The questions on screen with the index each is rendered under:
    [idx = batchIndex * BATCH_SIZE + localIdx]. *)
Definition displayed (st : State) : list (nat * MCQItem) :=
  imap (λ localIdx q, (batchIndex st * BATCH_SIZE + localIdx, q)) (currentBatchData st).

(** *** The session timer *)

Definition timerRunning (st : State) : bool :=
  negb (showResults st) && negb (showSubmitModal st) && negb (showResumePrompt st).

(** One second passes: the interval, if the effect installed one, fires. *)
Definition tick (st : State) : State :=
  if timerRunning st then setSessionTime (sessionTime st + 1) st else st.

(** The phases of the specification, read off the flags the way the
    component renders them: the spinner while [loading], the results when
    [showResults], the resume dialog when [showResumePrompt] (and no
    results), the submit dialog when [showSubmitModal]. *)
Inductive Phase :=
| Loading | AwaitingResumeChoice | InProgress | ConfirmingSubmit | Completed.

Definition phase (loading : bool) (st : State) : Phase :=
  if loading then Loading
  else if showResults st then Completed
  else if showResumePrompt st then AwaitingResumeChoice
  else if showSubmitModal st then ConfirmingSubmit
  else InProgress.

(** *** The persisted snapshot *)

Import JSON.

(** [localStorage]: text values under text keys *)
Abbreviation Storage := (gmap string string).

Definition storageKey (ch : Chapter) : string := "nst_mcq_progress_" +:+ id ch.

Definition encodeSelection (v : selection) : json :=
  match v with
  | Some n => JNum n
  | None => JNull
  end.

(** A question as an object; the members are the fields this file reads,
    in the order of the record. *)
Definition encodeItem (q : MCQItem) : json :=
  JObj [ ("question", JStr (question q));
         ("options", JArr (JStr <$> options q));
         ("correctAnswer", JNum (correctAnswer q));
         ("explanation", JStr (explanation q)) ].

Definition encodeAnswers (m : gmap nat selection) : json :=
  JObj ((λ k, (showNat k, encodeSelection (default None (m !! k)))) <$> Object_keys m).

(** The object literal [{ mcqState, batchIndex, localMcqData }] *)
Definition snapshot (st : State) : json :=
  JObj [ ("mcqState", encodeAnswers (mcqState st));
         ("batchIndex", JNum (Z.of_nat (batchIndex st)));
         ("localMcqData", JArr (encodeItem <$> localMcqData st)) ].

(** The effect that saves progress; it runs after a render in which
    [mcqState], [batchIndex], [localMcqData], [showResults] or the chapter
    changed. *)
Definition persistProgress (ch : Chapter) (st : State) (ls : Storage) : Storage :=
  if negb (showResults st) && bool_decide (0 < length (Object_keys (mcqState st)))
  then <[storageKey ch := stringify (snapshot st)]> ls
  else ls.

(** Reading a parsed snapshot back into the typed state.  A value that has
    not the declared type of the state variable it would be assigned to is
    [None]: the component would carry on with it, outside what [State] can
    hold. *)
Definition natKey (k : string) : option nat :=
  let n := N.to_nat (decimal 0 k) in
  if allChars isDigit k && (k === showNat n) then Some n else None.

Definition decodeSelection (v : json) : option selection :=
  match v with
  | JNum n => Some (Some n)
  | JNull => Some None
  | _ => None
  end.

Definition decodeAnswers (v : json) : option (gmap nat selection) :=
  match v with
  | JObj ms =>
      foldl (λ acc kv,
               m ← acc; k ← natKey (fst kv); a ← decodeSelection (snd kv);
               Some (<[k := a]> m))
            (Some ∅) ms
  | _ => None
  end.

Definition decodeString (v : json) : option string :=
  match v with JStr t => Some t | _ => None end.

Definition decodeItem (v : json) : option MCQItem :=
  match v with
  | JObj ms =>
      q ← field "question" ms ≫= decodeString;
      os ← field "options" ms ≫= (λ o, match o with
                                        | JArr l => mapM decodeString l
                                        | _ => None
                                        end);
      c ← field "correctAnswer" ms ≫= (λ o, match o with JNum n => Some n | _ => None end);
      e ← field "explanation" ms ≫= decodeString;
      Some {| question := q; options := os; correctAnswer := c; explanation := e |}
  | _ => None
  end.

(** [saved.name]: reading a property of [null] raises; a value that is not
    an object has none of the three properties. *)
Definition getProp (saved : json) (name : string) : result (option json) :=
  match saved with
  | JNull => Throws TypeError
  | JObj ms => Ok (field name ms)
  | _ => Ok None
  end.

(** What [handleResume] leaves: a state of the model, or [Untyped] when the
    stored text parses but gives a state variable a value that has not its
    declared type (the component carries on with it). *)
Inductive Restored :=
| Restored_state (st : State)
| Untyped.

(** *** Handlers and effects *)

(** The effect that initialises the session when the questions arrive;
    [order] is the shuffled copy of [content.mcqData] it draws. *)
Definition mcqInit (c : LessonContent) (ch : Chapter) (order : list MCQItem)
    (ls : Storage) (st : State) : State :=
  match mcqData c with
  | None => st
  | Some data =>
      match userAnswers c with
      | Some ua =>
          setLocalMcqData data (setAnalysisUnlocked true (setShowResults true (setMcqState ua st)))
      | None =>
          match ls !! storageKey ch with
          | Some saved =>
              if saved === "" then setLocalMcqData order st
              else setLocalMcqData order (setShowResumePrompt true st)
          | None => setLocalMcqData order st
          end
      end
  end.

(** Resume: the stored text, or an empty object when there is none, is
    parsed and its three properties are read; a property that is missing or
    counts as false leaves the default. *)
Definition handleResume (ch : Chapter) (ls : Storage) (st : State) : result Restored :=
  let text := match ls !! storageKey ch with
              | Some t => if t === "" then "{}" else t
              | None => "{}"
              end in
  saved ← parse text;
  a ← getProp saved "mcqState";
  b ← getProp saved "batchIndex";
  l ← getProp saved "localMcqData";
  let answers :=
    match a with
    | None => Some ∅
    | Some v => if falsy v then Some ∅ else decodeAnswers v
    end in
  let index :=
    match b with
    | None => Some 0
    | Some (JNum n) => if bool_decide (0 ≤ n)%Z then Some (Z.to_nat n) else None
    | Some v => if falsy v then Some 0 else None
    end in
  let questions :=
    match l with
    | None => Some (localMcqData st)
    | Some (JArr items) => mapM decodeItem items
    | Some v => if falsy v then Some (localMcqData st) else None
    end in
  match answers, index, questions with
  | Some m, Some i, Some qs =>
      Ok (Restored_state
            (setShowResumePrompt false (setLocalMcqData qs (setBatchIndex i (setMcqState m st)))))
  | _, _, _ => Ok Untyped
  end.

(** [order] is the fresh shuffle it draws. *)
Definition handleRestart (ch : Chapter) (order : list MCQItem)
    (ls : Storage) (st : State) : State * Storage :=
  (setShowResults false
     (setShowResumePrompt false
        (setLocalMcqData order (setBatchIndex 0 (setMcqState ∅ st)))),
   delete (storageKey ch) ls).

(** The arguments of one call of [onMCQComplete] *)
Record Completion := {
  count : nat;
  answers : gmap nat selection;
  usedData : list MCQItem;
  timeTaken : nat
}.

Definition handleConfirmSubmit (ch : Chapter) (hasCallback : bool)
    (ls : Storage) (st : State) : result (State * Storage * option Completion) :=
  s ← score st;
  Ok (setShowSubmitModal false st,
      delete (storageKey ch) ls,
      if hasCallback
      then Some {| count := s; answers := mcqState st;
                   usedData := localMcqData st; timeTaken := sessionTime st |}
      else None).

(** The three operations that change the progress of a running session:
    a click on option [oIdx] of the question rendered under [idx], and the
    two paging buttons. *)
Inductive Mutation :=
| Answer (idx oIdx : nat)
| PrevBatch
| NextBatch.

(** The control exists on screen and is not disabled. *)
Definition enabled (m : Mutation) (st : State) : bool :=
  match m with
  | Answer idx oIdx =>
      bool_decide (Exists (λ p, p.1 = idx ∧ oIdx < length (options p.2)) (displayed st))
      && bool_decide (mcqState st !! idx = None)
      && negb (showResults st)
  | PrevBatch => bool_decide (0 < batchIndex st)
  | NextBatch => bool_decide ((batchIndex st + 1) * BATCH_SIZE < length (localMcqData st))
  end.

(** The state update of its [onClick]. *)
Definition handle (m : Mutation) (st : State) : State :=
  match m with
  | Answer idx oIdx => setMcqState (<[idx := Some (Z.of_nat oIdx)]> (mcqState st)) st
  | PrevBatch => setBatchIndex (batchIndex st - 1) st
  | NextBatch => setBatchIndex (batchIndex st + 1) st
  end.

(** A click, the render it causes and the effects of that render: each of
    the three changes a dependency of [persistProgress]. *)
Definition click (ch : Chapter) (m : Mutation) (w : State * Storage) : State * Storage :=
  if enabled m w.1
  then let st' := handle m w.1 in (st', persistProgress ch st' w.2)
  else w.

(** Answers given one after the other: each click goes through [enabled],
    as on screen. *)
Definition answer (c : nat * nat) (st : State) : State :=
  if enabled (Answer c.1 c.2) st then handle (Answer c.1 c.2) st else st.

Definition answerAll (clicks : list (nat * nat)) (st : State) : State :=
  foldl (λ s c, answer c s) st clicks.

(** ** The screen the component returns *)

Inductive Screen :=
| Spinner
| AiNotes
| McqScreen
| VideoScreen (v : VideoView)
| PdfScreen (v : PdfView)
| HtmlNotes
| Markdown.

(** The test of the quiz renderer, and the test of the video renderer: a
    [PDF_VIEWER] or [VIDEO_LECTURE] content whose address names a video
    host or an [.mp4], or that has a playlist. *)
Definition isMcqContent (c : LessonContent) : bool :=
  ((type c === "MCQ_ANALYSIS") || (type c === "MCQ_SIMPLE"))
  && bool_decide (is_Some (mcqData c)).

Definition isVideoContent (c : LessonContent) : bool :=
  ((type c === "PDF_VIEWER") || (type c === "VIDEO_LECTURE"))
  && (includes (content c) "youtube.com" || includes (content c) "youtu.be"
      || includes (content c) "drive.google.com" || includes (content c) ".mp4"
      || match videoPlaylist c with Some (_ :: _) => true | _ => false end).

(** The test of the PDF viewer *)
Definition isPdfContent (c : LessonContent) : bool :=
  (type c === "PDF_VIEWER") || (type c === "PDF_FREE") || (type c === "PDF_PREMIUM").

(** The cascade of renderers of one render, in the state [st].  The first
    tests read [content?.type], which tolerates a missing content; the video
    test reads [content.type], which raises on it.  The quiz renderer
    computes [score] in the body of the render, so the render raises when
    [score] does.  [decodeHtml] and the markup components come from other
    files and are taken to raise nothing. *)
Definition LessonView (loading : bool) (user : option User) (ch : Chapter)
    (currentVideoIndex : nat) (st : State) (c : option LessonContent) : result Screen :=
  if loading then Ok Spinner else
  match c with
  | None => Throws TypeError
  | Some c =>
      if type c === "NOTES_IMAGE_AI" then Ok AiNotes
      else if isMcqContent c then _ ← score st; Ok McqScreen
      else if isVideoContent c
      then VideoScreen <$> videoRenderer user c ch currentVideoIndex
      else if isPdfContent c then Ok (PdfScreen (pdfViewer user c))
      else if (type c === "NOTES_HTML_FREE") || (type c === "NOTES_HTML_PREMIUM")
      then Ok HtmlNotes
      else Ok Markdown
  end.

(** ** The score of the specification

    "The count over [i] in [answers] of [answers[i] = question[i].correct]":
    the number of answered indices whose selection is the correct option of
    the question at that index. *)
Definition answeredCorrectly (st : State) (i : nat) : Prop :=
  ∃ q, localMcqData st !! i = Some q ∧ mcqState st !! i = Some (Some (correctAnswer q)).

Global Instance answeredCorrectly_dec st i : Decision (answeredCorrectly st i).
Proof.
  unfold answeredCorrectly.
  destruct (localMcqData st !! i) as [q|].
  - destruct (decide (mcqState st !! i = Some (Some (correctAnswer q)))) as [H|H].
    + left. by exists q.
    + right. intros (q' & [= <-] & ?). done.
  - right. by intros (q' & [=] & ?).
Defined.

Definition correctCount (st : State) : nat :=
  size (filter (answeredCorrectly st) (dom (mcqState st))).

(** Every answered index is the index of a question of the session. *)
Definition indexed (st : State) : Prop :=
  ∀ i, i ∈ dom (mcqState st) → i < length (localMcqData st).

(** ** More of the component *)

(** A run of clicks on the three controls, each with its render and
    effects. *)
Definition clicks (ch : Chapter) (ms : list Mutation) (w : State * Storage) : State * Storage :=
  foldl (λ w m, click ch m w) w ms.

(** The condition under which the component asks the browser to warn
    before the page is left: [content?.type.includes('MCQ')], an answer map
    that is not empty, and no results shown. *)
Definition warnsBeforeUnload (c : option LessonContent) (st : State) : bool :=
  match c with
  | None => false
  | Some c =>
      includes (type c) "MCQ"
      && bool_decide (0 < length (Object_keys (mcqState st)))
      && negb (showResults st)
  end.

(** The batch index points into the list (or is the first batch of an
    empty list). *)
Definition pageInRange (st : State) : Prop :=
  batchIndex st = 0 ∨ batchIndex st * BATCH_SIZE < length (localMcqData st).

(** ** Sample data *)

Module Sample.

Definition chapter : Chapter := {| id := "c1"; chapter_title := "Light" |}.

Definition learner (plan : string) : option User :=
  Some {| subscriptionPlan := Some plan |}.

Definition lesson (ty ti url : string) : LessonContent :=
  {| type := ty; title := ti; content := url; tags := None;
     videoPlaylist := None; mcqData := None; userAnswers := None;
     aiHtmlContent := None |}.

Definition driveUrl : string :=
  "https://drive.google.com/file/d/1AbCdEfGhIjKlMnOpQrStUvWxYz012/view".

Definition item (c : Z) : MCQItem :=
  {| question := "Which one?"; options := ["a"; "b"; "c"; "d"];
     correctAnswer := c; explanation := "See the notes." |}.

(** a quiz: the questions arrived, nothing answered yet *)
Definition fresh (questions : list MCQItem) : State :=
  setLocalMcqData questions initialState.

Definition quiz (questions : list MCQItem) : LessonContent :=
  {| type := "MCQ_SIMPLE"; title := "Quiz"; content := ""; tags := None;
     videoPlaylist := None; mcqData := Some questions; userAnswers := None;
     aiHtmlContent := None |}.

End Sample.

(** The shapes of address after which the YouTube expression takes the
    eleven characters of the identifier; the sixth, [youtube.com/user/]
    followed by any text without white space, is spelled out where it is
    used. *)
Definition ytShapes : list string :=
  [ "youtu.be/"; "youtube.com/embed/"; "youtube.com/v/";
    "youtube.com/watch?v="; "youtube.com/ytscreeningroom?v=" ].

(** Where an identifier found by one attempt of the expression sits in the
    text [s] the attempt starts at. *)
Definition ytPlace (s v : string) : Prop :=
  (∃ shape post, shape ∈ ytShapes ∧ s = shape +:+ v +:+ post)
  ∨ (∃ mid post, mid ≠ "" ∧ allChars isNonSpace mid = true
                 ∧ s = "youtube.com/user/" +:+ mid +:+ v +:+ post).

(** The values without [JFrac], a number literal kept as text: the ones
    that are printed and read back as they are. *)
Fixpoint plain (v : json) : bool :=
  match v with
  | JFrac _ => false
  | JArr l => forallb plain l
  | JObj ms => forallb (λ kv, plain kv.2) ms
  | _ => true
  end.

(** The number that a run of decimal digits denotes, read from the left
    after [acc]. *)
Fixpoint digitsValue (acc : N) (d : Decimal.uint) : N :=
  match d with
  | Decimal.Nil => acc
  | Decimal.D0 d => digitsValue (10 * acc) d
  | Decimal.D1 d => digitsValue (10 * acc + 1) d
  | Decimal.D2 d => digitsValue (10 * acc + 2) d
  | Decimal.D3 d => digitsValue (10 * acc + 3) d
  | Decimal.D4 d => digitsValue (10 * acc + 4) d
  | Decimal.D5 d => digitsValue (10 * acc + 5) d
  | Decimal.D6 d => digitsValue (10 * acc + 6) d
  | Decimal.D7 d => digitsValue (10 * acc + 7) d
  | Decimal.D8 d => digitsValue (10 * acc + 8) d
  | Decimal.D9 d => digitsValue (10 * acc + 9) d
  end%N.

(** A text at which a number literal ends: the end, or a character that is
    no digit, point or exponent mark. *)
Definition numberEnds (rest : string) : Prop :=
  match rest with
  | EmptyString => True
  | String c _ =>
      isDigit c = false ∧ c ≠ "."%char ∧ c ≠ "e"%char ∧ c ≠ "E"%char
  end.

(** The first character of a printed value: it is no white space and
    closes no array and no object. *)
Definition valueHead (c : ascii) : Prop :=
  isWs c = false ∧ c ≠ "]"%char ∧ c ≠ "}"%char ∧ c ≠ ","%char ∧ c ≠ ":"%char.

(** One member of a printed object *)
Definition printMember (kv : string * json) : string :=
  quote kv.1 +:+ ":" +:+ stringify kv.2.

(** A quiz that comes with the answers of a past attempt. *)
Definition pastAttempt : LessonContent :=
  {| type := "MCQ_ANALYSIS"; title := "Quiz"; content := ""; tags := None;
     videoPlaylist := None; mcqData := Some [Sample.item 0; Sample.item 1];
     userAnswers := Some {[ 0 := Some 1%Z ]}; aiHtmlContent := None |}.

(** ** The player of YouTube links: [CustomPlayer] *)

Module Player.

(** [s.split(sep)] for a separator that is not empty, as the first piece
    and the pieces after it; [skip] characters of a separator found are
    still to be passed over. *)
Fixpoint splitFrom (sep : string) (skip : nat) (s : string) : string * list string :=
  match s with
  | EmptyString => (EmptyString, [])
  | String c s' =>
      match skip with
      | S k => splitFrom sep k s'
      | 0 =>
          if startsWith s sep
          then (EmptyString,
                let '(p, ps) := splitFrom sep (String.length sep - 1) s' in p :: ps)
          else let '(p, ps) := splitFrom sep 0 s' in (String c p, ps)
      end
  end.

Definition split (sep s : string) : string * list string := splitFrom sep 0 s.

(** [s.split(sep)[1].split(stop)[0]]; [None] when [s.split(sep)[1]] is
    [undefined], where the call of [.split] on it raises. *)
Definition pieceAfter (sep stop s : string) : option string :=
  p ← head (split sep s).2; Some (split stop p).1.

(** The chain of the three markers in the [try] block; a URL with none of
    them leaves the empty string. *)
Definition firstId (videoUrl : string) : option string :=
  if includes videoUrl "youtu.be/" then pieceAfter "youtu.be/" "?" videoUrl
  else if includes videoUrl "v=" then pieceAfter "v=" "&" videoUrl
  else if includes videoUrl "embed/" then pieceAfter "embed/" "?" videoUrl
  else Some EmptyString.

(** The value of [videoId] after the [try] block: an exception raised by
    the chain is caught and leaves the empty string. *)
Definition videoId (videoUrl : string) : string :=
  match firstId videoUrl with
  | None => EmptyString
  | Some v => if negb (v === "") && includes v "?" then (split "?" v).1 else v
  end.

Definition embedUrl (videoId : string) : string :=
  "https://www.youtube.com/embed/" +:+ videoId
  +:+ "?autoplay=1&controls=1&modestbranding=1&rel=0&iv_load_policy=3&playsinline=1&enablejsapi=1&showinfo=0".

Inductive View :=
| InvalidUrl
| Frame (src : string).

Definition CustomPlayer (videoUrl : string) : View :=
  if videoId videoUrl === "" then InvalidUrl else Frame (embedUrl (videoId videoUrl)).

(** [s.indexOf(p)]: where [p] occurs first in [s]. *)
Fixpoint indexOf (s p : string) : option nat :=
  if startsWith s p then Some 0
  else match s with
       | EmptyString => None
       | String _ s' => S <$> indexOf s' p
       end.

(** The marker the chain goes by, and the characters at which the
    identifier may end after it. *)
Definition marker (videoUrl : string) : option (string * list ascii) :=
  if includes videoUrl "youtu.be/" then Some ("youtu.be/", ["?"%char])
  else if includes videoUrl "v=" then Some ("v=", ["&"%char; "?"%char])
  else if includes videoUrl "embed/" then Some ("embed/", ["?"%char])
  else None.

(** A link that carries the identifier [v]: [v] stands after the first
    occurrence of the marker, which does not occur again, and runs up to
    the end of the link or to one of the marker's end characters. *)
Definition linkTo (videoUrl v : string) : Prop :=
  ∃ m stops pre post,
    marker videoUrl = Some (m, stops)
    ∧ videoUrl = pre +:+ m +:+ v +:+ post
    ∧ indexOf videoUrl m = Some (String.length pre)
    ∧ includes (v +:+ post) m = false
    ∧ v ≠ EmptyString ∧ allChars isIdChar v = true
    ∧ match post with
      | EmptyString => True
      | String c _ => c ∈ stops
      end.

End Player.

(** * Properties *)

(** ** Entitlement *)

(** The code decides as the decision table does, on the aliases the code
    spells. *)
Lemma checkDownloadPermission_table user kind premium :
  checkDownloadPermission user kind premium
  = evaluate codeAliases (planOf user) kind premium.
Proof.
  destruct user as [[[p|]]|]; try reflexivity.
  unfold checkDownloadPermission, evaluate, planOf; cbn [mbind option_bind subscriptionPlan].
  destruct (bool_decide_reflect (p = "")) as [->|Hp]; [reflexivity|].
  unfold codeAliases, lookupAlias, sameLabel.
  change (toUpperCase "weekly") with "WEEKLY".
  change (toUpperCase "monthly") with "MONTHLY".
  change (toUpperCase "quarterly") with "QUARTERLY".
  change (toUpperCase "3_months") with "3_MONTHS".
  change (toUpperCase "3 months") with "3 MONTHS".
  change (toUpperCase "yearly") with "YEARLY".
  change (toUpperCase "lifetime") with "LIFETIME".
  change (toUpperCase "1_year") with "1_YEAR".
  change (toUpperCase "1 year") with "1 YEAR".
  cbv zeta.
  repeat (case_bool_decide; cbn [orb andb negb]; try congruence);
    destruct kind, premium; try reflexivity; try contradiction; try congruence.
Qed.

(** Case maps: upper case after lower case is upper case. *)
Lemma upperChar_lowerChar c : upperChar (lowerChar c) = upperChar c.
Proof. by destruct c as [[] [] [] [] [] [] [] []]. Qed.

Lemma lowerChar_letter d : isUpper d = true → isLower (lowerChar d) = true.
Proof. by destruct d as [[] [] [] [] [] [] [] []]. Qed.

(** A byte that is no letter is the lower case of itself only. *)
Lemma lowerChar_other c d :
  isLower c = false → lowerChar d = c → d = c.
Proof.
  intros Hc Hd. destruct (isUpper d) eqn:Hu.
  - apply lowerChar_letter in Hu. congruence.
  - unfold lowerChar in Hd. by rewrite Hu in Hd.
Qed.

Lemma asciiFold_cons c p d q :
  asciiFold (String c p) = asciiFold (String d q) →
  lowerChar c = lowerChar d ∧ asciiFold p = asciiFold q.
Proof. unfold asciiFold. cbn. by intros [= ? ?]. Qed.

Lemma asciiFold_empty p : asciiFold p = asciiFold "" → p = "".
Proof. by destruct p. Qed.

(** Two labels with the same fold start with the same bytes above 127. *)
Lemma startsWith_fold pat p q :
  allChars (λ a, negb (isLower a) && negb (isUpper a)) pat = true →
  asciiFold p = asciiFold q → startsWith p pat = startsWith q pat.
Proof.
  revert p q. induction pat as [|a pat IH]; intros p q Hpat Hpq.
  - by destruct p, q.
  - cbn in Hpat. apply andb_prop in Hpat as [[Hl Hu]%andb_prop Hpat].
    apply negb_true_iff in Hl, Hu.
    destruct p as [|c p], q as [|d q]; try done.
    apply asciiFold_cons in Hpq as [Hcd Hpq]. cbn [startsWith].
    rewrite (IH p q Hpat Hpq). f_equal.
    assert (a = c ↔ a = d) as Hiff.
    { split; intros <-.
      - symmetry. apply lowerChar_other; [done|]. rewrite <- Hcd.
        unfold lowerChar. by rewrite Hu.
      - symmetry. apply lowerChar_other; [done|]. rewrite Hcd.
        unfold lowerChar. by rewrite Hu. }
    by apply bool_decide_ext.
Qed.

Lemma special_fold p q :
  asciiFold p = asciiFold q → special upperSpecial p = special upperSpecial q.
Proof.
  intros Hpq. unfold upperSpecial, special.
  by rewrite !(startsWith_fold _ p q) by done.
Qed.

Lemma mapCase_fold skip p q :
  asciiFold p = asciiFold q →
  mapCase upperSpecial upperChar skip p = mapCase upperSpecial upperChar skip q.
Proof.
  revert skip q. induction p as [|c p IH]; intros skip q Hpq.
  - symmetry in Hpq. by apply asciiFold_empty in Hpq as ->.
  - destruct q as [|d q]; [by apply asciiFold_empty in Hpq|].
    pose proof (special_fold _ _ Hpq) as Hs.
    apply asciiFold_cons in Hpq as [Hcd Hpq].
    cbn [mapCase]. destruct skip as [|k]; [|by apply IH].
    rewrite Hs. destruct (special upperSpecial (String d q)) as [[to n]|].
    + by rewrite (IH (n - 1) q).
    + rewrite (IH 0 q) by done. f_equal.
      by rewrite <- (upperChar_lowerChar c), Hcd, upperChar_lowerChar.
Qed.

Lemma toUpperCase_fold p q : asciiFold p = asciiFold q → toUpperCase p = toUpperCase q.
Proof. apply mapCase_fold. Qed.

(** Labels that differ in the case of ASCII letters only are decided
    alike. *)
Lemma checkDownloadPermission_case p q kind premium :
  asciiFold p = asciiFold q →
  checkDownloadPermission (Some {| subscriptionPlan := Some p |}) kind premium
  = checkDownloadPermission (Some {| subscriptionPlan := Some q |}) kind premium.
Proof.
  intros Hpq. pose proof (toUpperCase_fold p q Hpq) as Hup.
  unfold checkDownloadPermission; cbn [subscriptionPlan]. rewrite Hup.
  destruct (decide (p = "")) as [->|Hp].
  - symmetry in Hpq. apply asciiFold_empty in Hpq as ->. done.
  - assert (q ≠ "") as Hq.
    { intros ->. apply Hp. by apply asciiFold_empty. }
    by rewrite (bool_decide_eq_false_2 (p = "")), (bool_decide_eq_false_2 (q = "")).
Qed.

(** C1 (as amended).  The permission check is the decision table of the
    specification over plan labels compared by their upper case, with the
    aliases the code spells: weekly and monthly are denied everything;
    quarterly, [3_months] and [3 months] are allowed documents and standard
    video and denied premium video; yearly, lifetime, [1_year] and [1 year]
    are allowed everything.  It fails closed: whatever is allowed is allowed
    to a user with a plan that the table knows, so no user, no plan, an
    empty label or a label whose upper case is none of the nine is denied.
    Labels that differ in the case of ASCII letters only are decided alike;
    and since the upper case is Unicode's, a dotless i is read as [I] and a
    long s as [S]: such a spelling of [lifetime] or [3_months] is decided
    as the plan itself. *)
Theorem C1_entitlement_table user kind premium :
  checkDownloadPermission user kind premium
  = evaluate codeAliases (planOf user) kind premium
  ∧ (checkDownloadPermission user kind premium = true →
     ∃ p t, planOf user = Some p ∧ p ≠ ""
            ∧ lookupAlias codeAliases p = Some t ∧ t ≠ WeeklyMonthly)
  ∧ (∀ p q, planOf user = Some p → asciiFold p = asciiFold q →
            checkDownloadPermission (Some {| subscriptionPlan := Some q |}) kind premium
            = checkDownloadPermission user kind premium)
  ∧ (toUpperCase "lıfetıme" = "LIFETIME" ∧ toUpperCase "3_monthſ" = "3_MONTHS"
     ∧ checkDownloadPermission (Some {| subscriptionPlan := Some "lıfetıme" |}) kind premium
       = true
     ∧ checkDownloadPermission (Some {| subscriptionPlan := Some "3_monthſ" |}) kind premium
       = decisionTable (Some Quarterly) kind premium).
Proof.
  split_and!.
  - apply checkDownloadPermission_table.
  - intros Hallow.
    destruct user as [[[p|]]|]; try discriminate.
    destruct (decide (p = "")) as [->|Hp]; [discriminate|].
    rewrite checkDownloadPermission_table in Hallow.
    unfold evaluate, planOf in Hallow. cbn [mbind option_bind subscriptionPlan] in Hallow.
    destruct (lookupAlias codeAliases p) as [t|] eqn:Ht; [|discriminate].
    exists p, t. split_and!; try done.
    intros ->. by destruct kind.
  - intros p q Hp Hpq.
    destruct user as [[[p'|]]|]; try discriminate.
    injection Hp as ->. symmetry. by apply checkDownloadPermission_case.
  - vm_compute; reflexivity.
  - vm_compute; reflexivity.
  - vm_compute; reflexivity.
  - destruct kind, premium; vm_compute; reflexivity.
Qed.

Lemma C1_witness :
  (∃ p t, planOf (Sample.learner "Quarterly") = Some p ∧ p ≠ ""
          ∧ lookupAlias codeAliases p = Some t ∧ t ≠ WeeklyMonthly)
  ∧ checkDownloadPermission (Sample.learner "QUARTERLY") VIDEO false
    = checkDownloadPermission (Sample.learner "Quarterly") VIDEO false.
Proof.
  split.
  - apply (proj1 (proj2 (C1_entitlement_table (Sample.learner "Quarterly") VIDEO false))).
    reflexivity.
  - apply (proj1 (proj2 (proj2 (C1_entitlement_table (Sample.learner "Quarterly") VIDEO false)))
             "Quarterly" "QUARTERLY"); reflexivity.
Defined.

(** C1, as the specification lists the aliases: the labels [3-month] and
    [1-year] are plans of the table and unknown plans for the code. *)
Lemma C1_hyphen_alias_denied :
  evaluate specAliases (Some "3-month") PDF false = true
  ∧ checkDownloadPermission (Some {| subscriptionPlan := Some "3-month" |}) PDF false = false
  ∧ evaluate specAliases (Some "1-year") VIDEO true = true
  ∧ checkDownloadPermission (Some {| subscriptionPlan := Some "1-year" |}) VIDEO true = false.
Proof. split_and!; reflexivity. Qed.

(** The rows of the table that the specification gives as tests. *)
Example entitlement_rows :
  let user p := Some {| subscriptionPlan := Some p |} in
  checkDownloadPermission (user "quarterly") VIDEO true = false
  ∧ checkDownloadPermission (user "Quarterly") PDF false = true
  ∧ checkDownloadPermission (user "weekly") PDF false = false
  ∧ checkDownloadPermission (user "LIFETIME") VIDEO true = true
  ∧ checkDownloadPermission (user "1 Year") VIDEO true = true
  ∧ checkDownloadPermission (user "gold") PDF false = false
  ∧ checkDownloadPermission None PDF false = false.
Proof. repeat split; reflexivity. Qed.

(** ** Download links *)

Lemma parseVideoUrl_download can videoUrl d :
  downloadUrl (parseVideoUrl can videoUrl) = Some d →
  can = true ∧ isDriveVideo (parseVideoUrl can videoUrl) = true
  ∧ isYouTubeVideo (parseVideoUrl can videoUrl) = false.
Proof.
  unfold parseVideoUrl.
  destruct (includes videoUrl "drive.google.com").
  - destruct (idMatch videoUrl); cbn; [|done]. by destruct can.
  - by destruct (includes videoUrl "youtube.com" || includes videoUrl "youtu.be").
Qed.

Lemma pdfViewer_download user c d :
  pdfDownloadLink (pdfViewer user c) = Some d →
  checkDownloadPermission user PDF false = true.
Proof.
  unfold pdfViewer; cbn.
  destruct (checkDownloadPermission user PDF false); [done|].
  by rewrite andb_false_r.
Qed.

(** C2.  A download link is set only when the permission check passed: in
    the video renderer only on the Drive branch and only when [canDownload]
    holds, in the PDF viewer only when [canDownloadPdf] holds; on the
    YouTube branch the link is absent whatever the check said. *)
Theorem C2_download_link_needs_permission user c ch i :
  (∀ v d, videoRenderer user c ch i = Ok v →
          downloadUrl (resolved v) = Some d →
          checkDownloadPermission user VIDEO (isUltraContent c) = true
          ∧ isDriveVideo (resolved v) = true)
  ∧ (∀ can videoUrl, isYouTubeVideo (parseVideoUrl can videoUrl) = true →
                     downloadUrl (parseVideoUrl can videoUrl) = None)
  ∧ (∀ d, pdfDownloadLink (pdfViewer user c) = Some d →
          checkDownloadPermission user PDF false = true).
Proof.
  split_and!.
  - intros v d Hv Hd. unfold videoRenderer in Hv.
    destruct (playlist c ch !! i) as [cur|]; [|done].
    injection Hv as <-. cbn in Hd.
    by apply parseVideoUrl_download in Hd as (-> & ? & ?).
  - intros can videoUrl Hy.
    destruct (downloadUrl (parseVideoUrl can videoUrl)) as [d|] eqn:Hd; [|done].
    apply parseVideoUrl_download in Hd as (_ & _ & Hn). congruence.
  - apply pdfViewer_download.
Qed.

Lemma C2_witness :
  ∃ v d, videoRenderer (Sample.learner "yearly")
           (Sample.lesson "VIDEO_LECTURE" "Optics" Sample.driveUrl) Sample.chapter 0 = Ok v
         ∧ downloadUrl (resolved v) = Some d
         ∧ checkDownloadPermission (Sample.learner "yearly") VIDEO
             (isUltraContent (Sample.lesson "VIDEO_LECTURE" "Optics" Sample.driveUrl)) = true
         ∧ isDriveVideo (resolved v) = true.
Proof.
  eexists _, _.
  split; [vm_compute; reflexivity|].
  split; [vm_compute; reflexivity|].
  eapply (proj1 (C2_download_link_needs_permission _ _ Sample.chapter 0)).
  - vm_compute; reflexivity.
  - vm_compute; reflexivity.
Defined.

(** ** The PDF viewer and the premium flag *)

(** The contents that the PDF viewer shows: those of its three types that
    the video renderer has not taken. *)
Lemma LessonView_pdf loading user ch i st c v :
  LessonView loading user ch i st (Some c) = Ok (PdfScreen v) ↔
  loading = false ∧ isPdfContent c = true ∧ isVideoContent c = false
  ∧ v = pdfViewer user c.
Proof.
  unfold LessonView. destruct loading; [by split; [|intros (? & _)]|].
  destruct (isPdfContent c) eqn:Hpdf.
  - assert ((type c === "NOTES_IMAGE_AI") = false ∧ isMcqContent c = false) as [-> ->].
    { unfold isPdfContent, isMcqContent in *.
      repeat case_bool_decide; try done; congruence. }
    destruct (isVideoContent c).
    + split; [|by intros (_ & _ & ? & _)].
      by destruct (videoRenderer user c ch i).
    + split; [intros [= <-]; done|]. by intros (_ & _ & _ & ->).
  - split; [|by intros (_ & ? & _)].
    repeat match goal with
      | |- context [if ?b then _ else _] => destruct b; try discriminate
      end.
    + by destruct (score st).
    + by destruct (videoRenderer user c ch i).
Qed.

Lemma pdfViewer_content user c1 c2 :
  content c1 = content c2 → pdfViewer user c1 = pdfViewer user c2.
Proof. unfold pdfViewer. by intros ->. Qed.

(** A [PDF_VIEWER] content that the video renderer takes *)
Lemma LessonView_video user ch i st c :
  type c = "PDF_VIEWER" → isVideoContent c = true →
  LessonView false user ch i st (Some c) = VideoScreen <$> videoRenderer user c ch i.
Proof.
  intros Ht Hv. unfold LessonView, isMcqContent. by rewrite Ht, Hv.
Qed.

(** C10 (as amended).  Two contents with the same document address that
    the PDF viewer shows get the same download decision and the same link,
    whatever their type, title and tags say about premium content: the
    viewer makes the check for [PDF] with the premium flag [false], so a
    learner on a quarterly plan may download there.  The viewer shows the
    contents of type [PDF_VIEWER], [PDF_FREE] and [PDF_PREMIUM] that the
    video renderer does not take, which title and tags have no part in.  A
    [PDF_VIEWER] content that the video renderer takes (an address on a
    video host or on Drive, an [.mp4], a playlist) gets the decision of the
    video renderer instead: the check for [VIDEO] with the ultra flag of
    the content. *)
Theorem C10_pdf_download_ignores_premium loading user ch i st c1 c2 :
  (∀ v1 v2,
     content c1 = content c2 →
     LessonView loading user ch i st (Some c1) = Ok (PdfScreen v1) →
     LessonView loading user ch i st (Some c2) = Ok (PdfScreen v2) →
     v1 = v2
     ∧ canDownloadPdf v1 = checkDownloadPermission user PDF false
     ∧ (∀ p, planOf user = Some p →
             lookupAlias codeAliases p = Some Quarterly →
             canDownloadPdf v1 = true))
  ∧ (∀ v, LessonView loading user ch i st (Some c1) = Ok (PdfScreen v) ↔
          loading = false ∧ isPdfContent c1 = true ∧ isVideoContent c1 = false
          ∧ v = pdfViewer user c1)
  ∧ (type c1 = type c2 → content c1 = content c2 → videoPlaylist c1 = videoPlaylist c2 →
     ∀ v, LessonView loading user ch i st (Some c1) = Ok (PdfScreen v) →
          LessonView loading user ch i st (Some c2) = Ok (PdfScreen v))
  ∧ (loading = false → type c1 = "PDF_VIEWER" → isVideoContent c1 = true →
     ∀ s, LessonView loading user ch i st (Some c1) = Ok s →
          ∃ v, s = VideoScreen v
               ∧ canDownload v = checkDownloadPermission user VIDEO (isUltraContent c1)).
Proof.
  split_and!.
  - intros v1 v2 Hc (_ & _ & _ & ->)%LessonView_pdf (_ & _ & _ & ->)%LessonView_pdf.
    split_and!.
    + by apply pdfViewer_content.
    + done.
    + intros p Hp Hq. cbn.
      rewrite checkDownloadPermission_table. unfold evaluate.
      rewrite Hp. cbn [mbind option_bind]. by rewrite Hq.
  - intros v. apply LessonView_pdf.
  - intros Ht Hc Hp v (-> & Hpdf & Hvid & ->)%LessonView_pdf.
    apply LessonView_pdf. split_and!; [done|..].
    + unfold isPdfContent in *. by rewrite <- Ht.
    + unfold isVideoContent in *. by rewrite <- Ht, <- Hc, <- Hp.
    + by apply pdfViewer_content.
  - intros -> Ht Hv s. rewrite LessonView_video by done.
    unfold videoRenderer. destruct (playlist c1 ch !! i) as [item|]; [|done].
    intros [= <-]. by eexists.
Qed.

Lemma C10_witness :
  pdfViewer (Sample.learner "quarterly")
    (Sample.lesson "PDF_FREE" "Optics" "https://cdn.example.org/optics.pdf")
  = pdfViewer (Sample.learner "quarterly")
      (Sample.lesson "PDF_PREMIUM" "Optics ultra" "https://cdn.example.org/optics.pdf")
  ∧ canDownloadPdf (pdfViewer (Sample.learner "quarterly")
      (Sample.lesson "PDF_FREE" "Optics" "https://cdn.example.org/optics.pdf")) = true.
Proof.
  pose proof (proj1 (C10_pdf_download_ignores_premium false (Sample.learner "quarterly")
    Sample.chapter 0 initialState
    (Sample.lesson "PDF_FREE" "Optics" "https://cdn.example.org/optics.pdf")
    (Sample.lesson "PDF_PREMIUM" "Optics ultra" "https://cdn.example.org/optics.pdf"))
    _ _ eq_refl eq_refl eq_refl) as (H1 & _ & H3).
  split; [exact H1|].
  exact (H3 "quarterly" eq_refl eq_refl).
Defined.

(** C10, as stated: a document of type [PDF_VIEWER] on Drive is shown by
    the video renderer, and there a learner on a quarterly plan gets the
    download link when the title does not say ultra and none when it
    does. *)
Lemma C10_drive_document_depends_on_ultra :
  let user := Sample.learner "quarterly" in
  let doc title := Some (Sample.lesson "PDF_VIEWER" title Sample.driveUrl) in
  ∃ v1 v2,
    LessonView false user Sample.chapter 0 initialState (doc "Optics") = Ok (VideoScreen v1)
    ∧ LessonView false user Sample.chapter 0 initialState (doc "Optics ultra")
      = Ok (VideoScreen v2)
    ∧ downloadButton v1
      = Some "https://drive.google.com/u/0/uc?id=1AbCdEfGhIjKlMnOpQrStUvWxYz012&export=download"
    ∧ downloadButton v2 = None.
Proof.
  cbv zeta. eexists _, _. split_and!; vm_compute; reflexivity.
Qed.

(** ** The answer map and the score *)

Lemma Object_keys_perm {V} (o : gmap nat V) : Object_keys o ≡ₚ elements (dom o).
Proof. apply merge_sort_Permutation. Qed.

Lemma elem_of_Object_keys {V} (o : gmap nat V) k : k ∈ Object_keys o ↔ k ∈ dom o.
Proof. by rewrite Object_keys_perm, elem_of_elements. Qed.

Lemma length_Object_keys {V} (o : gmap nat V) : length (Object_keys o) = size o.
Proof. by rewrite Object_keys_perm, <- size_dom. Qed.

Lemma foldl_scoreStep_throws st e keys : foldl (scoreStep st) (Throws e) keys = Throws e.
Proof. induction keys as [|k keys IH]; [done|]. cbn. by rewrite IH. Qed.

(** The reducer counts, as long as every key is the index of a question. *)
Lemma foldl_scoreStep_count st keys n :
  Forall (λ k, k < length (localMcqData st)) keys →
  foldl (scoreStep st) (Ok n) keys
  = Ok (n + length (filter (answeredCorrectly st) keys)).
Proof.
  intros Hkeys. revert n.
  induction Hkeys as [|k keys Hk _ IH]; intros n; cbn [foldl].
  { cbn. f_equal. lia. }
  apply lookup_lt_is_Some_2 in Hk as [q Hq].
  unfold scoreStep at 2. cbn [mbind result_bind]. rewrite Hq.
  rewrite IH. f_equal.
  case_bool_decide as Hc.
  - rewrite filter_cons_True by (by exists q). cbn. lia.
  - rewrite filter_cons_False; [lia|].
    intros (q' & Hq' & ?). congruence.
Qed.

(** A key that is the index of no question makes the reducer raise. *)
Lemma foldl_scoreStep_raise st keys acc k :
  k ∈ keys → localMcqData st !! k = None →
  foldl (scoreStep st) acc keys = Throws TypeError
  ∨ ∃ e, acc = Throws e.
Proof.
  intros Hin Hk. revert acc.
  induction keys as [|k' keys IH]; intros acc; [by apply elem_of_nil in Hin|].
  cbn [foldl].
  apply elem_of_cons in Hin as [<-|Hin].
  - destruct acc as [n|e]; [|right; eauto].
    left. unfold scoreStep at 2. cbn [mbind result_bind]. rewrite Hk.
    apply foldl_scoreStep_throws.
  - destruct (IH Hin (scoreStep st acc k')) as [?|[e He]]; [by left|].
    destruct acc as [n|e']; [|right; eauto].
    left. rewrite He. rewrite foldl_scoreStep_throws.
    unfold scoreStep in He. cbn in He.
    destruct (localMcqData st !! k'); congruence.
Qed.

Lemma filter_elements_size (P : nat → Prop) `{!∀ i, Decision (P i)} (X : gset nat) l :
  l ≡ₚ elements X → length (filter P l) = size (filter P X).
Proof.
  intros Hl. unfold size, set_size. cbn.
  apply Permutation_length.
  rewrite Hl.
  apply NoDup_Permutation.
  - apply NoDup_filter, NoDup_elements.
  - apply NoDup_elements.
  - intros x. rewrite elem_of_elements, elem_of_filter, list_elem_of_filter, elem_of_elements. done.
Qed.

Lemma score_count st : indexed st → score st = Ok (correctCount st).
Proof.
  intros Hdom. unfold score, correctCount.
  rewrite foldl_scoreStep_count.
  - cbn. f_equal. apply filter_elements_size, Object_keys_perm.
  - apply Forall_forall. intros k Hk. by apply Hdom, elem_of_Object_keys.
Qed.

(** An answer under an index that is the index of no question makes the
    score raise. *)
Lemma score_raises st k :
  k ∈ dom (mcqState st) → localMcqData st !! k = None → score st = Throws TypeError.
Proof.
  intros Hk%elem_of_Object_keys Hq.
  by destruct (foldl_scoreStep_raise st (Object_keys (mcqState st)) (Ok 0) k Hk Hq)
    as [?|[e ?]].
Qed.

(** The reducer reads a question only through its correct option. *)
Lemma foldl_scoreStep_ext st st' keys acc :
  mcqState st = mcqState st' →
  (∀ k, k ∈ keys →
        correctAnswer <$> localMcqData st !! k = correctAnswer <$> localMcqData st' !! k) →
  foldl (scoreStep st) acc keys = foldl (scoreStep st') acc keys.
Proof.
  intros Hm. revert acc.
  induction keys as [|k keys IH]; intros acc Hq; [done|].
  cbn [foldl]. rewrite IH by (intros; apply Hq; by right).
  f_equal. unfold scoreStep. destruct acc as [n|e]; [|done]. cbn.
  specialize (Hq k (list_elem_of_here _ _)). rewrite Hm.
  destruct (localMcqData st !! k) as [q|], (localMcqData st' !! k) as [q'|];
    simplify_eq/=; [|done].
  by replace (correctAnswer q') with (correctAnswer q).
Qed.

Lemma score_ext st st' :
  mcqState st = mcqState st' →
  (∀ k, k ∈ dom (mcqState st) →
        correctAnswer <$> localMcqData st !! k = correctAnswer <$> localMcqData st' !! k) →
  score st = score st'.
Proof.
  intros Hm Hq. unfold score. rewrite <- Hm.
  apply foldl_scoreStep_ext; [done|].
  intros k Hk. by apply Hq, elem_of_Object_keys.
Qed.

(** ** Answers are keyed by the position in the session's list *)

Lemma currentBatchData_lookup st localIdx q :
  currentBatchData st !! localIdx = Some q →
  localMcqData st !! (batchIndex st * BATCH_SIZE + localIdx) = Some q.
Proof.
  unfold currentBatchData, slice. intros H.
  apply lookup_take_Some in H as [H _].
  by rewrite lookup_drop in H.
Qed.

Lemma enabled_Answer st idx oIdx :
  enabled (Answer idx oIdx) st = true →
  (∃ localIdx q, idx = batchIndex st * BATCH_SIZE + localIdx
                 ∧ currentBatchData st !! localIdx = Some q
                 ∧ oIdx < length (options q))
  ∧ mcqState st !! idx = None
  ∧ showResults st = false.
Proof.
  unfold enabled. intros H.
  apply andb_true_iff in H as [H Hres].
  apply andb_true_iff in H as [Hex Hnone].
  apply bool_decide_eq_true in Hex, Hnone.
  apply negb_true_iff in Hres.
  split_and!; [|done..].
  apply Exists_exists in Hex as ([i q] & Hin & Hi & Ho). cbn in Hi, Ho. subst i.
  apply elem_of_lookup_imap in Hin as (localIdx & q' & [= -> ->] & Hq).
  eauto.
Qed.

Lemma enabled_Answer_other st i o j o' :
  i ≠ j →
  enabled (Answer i o) (handle (Answer j o') st) = enabled (Answer i o) st.
Proof.
  intros Hij. unfold enabled. cbn.
  by rewrite lookup_insert_ne.
Qed.

Lemma answer_comm c1 c2 st :
  c1.1 ≠ c2.1 → answer c1 (answer c2 st) = answer c2 (answer c1 st).
Proof.
  intros Hne. unfold answer.
  destruct (enabled (Answer c2.1 c2.2) st) eqn:H2;
    destruct (enabled (Answer c1.1 c1.2) st) eqn:H1;
    rewrite ?enabled_Answer_other, ?H1, ?H2 by done; try done.
  unfold handle, setMcqState; cbn. f_equal.
  by apply insert_insert_ne.
Qed.

Lemma answerAll_perm cs1 cs2 :
  cs1 ≡ₚ cs2 → ∀ st, NoDup cs1.*1 → answerAll cs1 st = answerAll cs2 st.
Proof.
  induction 1 as [|c l l' _ IH|c1 c2 l|l l' l'' H1 IH1 H2 IH2]; intros st Hnd.
  - done.
  - cbn. apply IH. by apply NoDup_cons in Hnd as [_ ?].
  - cbn. f_equal. apply answer_comm.
    apply NoDup_cons in Hnd as [Hnd _]. intros Heq. apply Hnd. rewrite Heq. by left.
  - rewrite IH1 by done. apply IH2. by rewrite <- H1.
Qed.

Lemma answer_localMcqData c st : localMcqData (answer c st) = localMcqData st.
Proof. unfold answer. by destruct (enabled _ _). Qed.

Lemma answerAll_localMcqData cs st : localMcqData (answerAll cs st) = localMcqData st.
Proof.
  revert st. induction cs as [|c cs IH]; intros st; [done|].
  change (answerAll (c :: cs) st) with (answerAll cs (answer c st)).
  by rewrite IH, answer_localMcqData.
Qed.

(** Answers given on screen keep the answer map within the questions. *)
Lemma handle_indexed m st : enabled m st = true → indexed st → indexed (handle m st).
Proof.
  intros Hen Hst. destruct m as [idx oIdx| |]; [|done..].
  apply enabled_Answer in Hen as ((localIdx & q & -> & Hq%currentBatchData_lookup & _) & _).
  intros i. cbn. rewrite dom_insert, elem_of_union, elem_of_singleton.
  intros [->|Hi]; [|by apply Hst].
  by eapply lookup_lt_Some.
Qed.

Lemma answerAll_indexed clicks st : indexed st → indexed (answerAll clicks st).
Proof.
  revert st. induction clicks as [|c clicks IH]; intros st Hst; [done|].
  apply IH. unfold answer.
  destruct (enabled (Answer c.1 c.2) st) eqn:Hen; [|done].
  by apply handle_indexed.
Qed.

Lemma fresh_indexed questions : indexed (Sample.fresh questions).
Proof. intros i. cbn. by rewrite dom_empty, elem_of_empty. Qed.

(** There are then no more answers than questions. *)
Lemma indexed_size st : indexed st → size (mcqState st) ≤ length (localMcqData st).
Proof.
  intros Hst. rewrite <- size_dom.
  rewrite <- (size_set_seq (C:=gset nat) 0 (length (localMcqData st))).
  apply subseteq_size. intros i Hi. apply elem_of_set_seq.
  specialize (Hst i Hi). lia.
Qed.

(** C3 (as amended).  An entry of the answer map is keyed by the position
    of the question in the session's list [localMcqData], which is the order
    on screen: position in the batch plus fifty times the batch index; and
    the score compares each entry with the question at that same position
    of that same list.  So the score does not depend on the batch shown,
    and it is the same for another order of the list as long as the correct
    option at every answered position is the same. *)
Theorem C3_answers_keyed_by_session_position st :
  (∀ idx oIdx, enabled (Answer idx oIdx) st = true →
     ∃ localIdx q,
       idx = batchIndex st * BATCH_SIZE + localIdx
       ∧ currentBatchData st !! localIdx = Some q
       ∧ localMcqData st !! idx = Some q
       ∧ mcqState (handle (Answer idx oIdx) st)
         = <[idx := Some (Z.of_nat oIdx)]> (mcqState st))
  ∧ (∀ b, score (setBatchIndex b st) = score st)
  ∧ (∀ order,
       (∀ k, k ∈ dom (mcqState st) →
             correctAnswer <$> order !! k = correctAnswer <$> localMcqData st !! k) →
       score (setLocalMcqData order st) = score st).
Proof.
  split_and!.
  - intros idx oIdx ((localIdx & q & -> & Hq & _) & _ & _)%enabled_Answer.
    exists localIdx, q. split_and!; try done.
    by apply currentBatchData_lookup.
  - done.
  - intros order Hk. by apply score_ext.
Qed.

Lemma C3_witness :
  (∃ localIdx q,
      1 = batchIndex (Sample.fresh [Sample.item 0; Sample.item 1]) * BATCH_SIZE + localIdx
      ∧ currentBatchData (Sample.fresh [Sample.item 0; Sample.item 1]) !! localIdx = Some q
      ∧ localMcqData (Sample.fresh [Sample.item 0; Sample.item 1]) !! 1 = Some q
      ∧ mcqState (handle (Answer 1 2) (Sample.fresh [Sample.item 0; Sample.item 1]))
        = <[1 := Some 2%Z]> (mcqState (Sample.fresh [Sample.item 0; Sample.item 1])))
  ∧ score (setLocalMcqData [Sample.item 0; Sample.item 3]
             (answer (0, 0) (Sample.fresh [Sample.item 0; Sample.item 1])))
    = score (answer (0, 0) (Sample.fresh [Sample.item 0; Sample.item 1])).
Proof.
  split.
  - apply (proj1 (C3_answers_keyed_by_session_position _) 1 2).
    vm_compute; reflexivity.
  - apply (proj2 (proj2 (C3_answers_keyed_by_session_position _))).
    apply (bool_decide_unpack
             (set_Forall (λ k, correctAnswer <$> [Sample.item 0; Sample.item 3] !! k
                               = correctAnswer <$> [Sample.item 0; Sample.item 1] !! k)
                         (dom (mcqState (answer (0, 0) (Sample.fresh [Sample.item 0; Sample.item 1])))))).
    vm_compute; reflexivity.
Defined.

(** C3, as stated: the same answers scored against the same questions in
    another order give another score. *)
Lemma C3_reorder_changes_score :
  let st := answer (0, 0) (Sample.fresh [Sample.item 0; Sample.item 1]) in
  let order := [Sample.item 1; Sample.item 0] in
  order ≡ₚ localMcqData st
  ∧ mcqState (setLocalMcqData order st) = mcqState st
  ∧ score st = Ok 1
  ∧ score (setLocalMcqData order st) = Ok 0.
Proof.
  cbv zeta. split_and!.
  - apply perm_swap.
  - reflexivity.
  - vm_compute; reflexivity.
  - vm_compute; reflexivity.
Qed.

(** ** The submit gate *)

(** C4.  [canSubmit] holds exactly when the number of answers is at least
    the smaller of 50 and the number of questions, and the batch shown has
    no part in it. *)
Theorem C4_canSubmit_threshold st :
  canSubmit st = bool_decide (50 `min` length (localMcqData st) ≤ size (mcqState st))
  ∧ ∀ b, canSubmit (setBatchIndex b st) = canSubmit st.
Proof.
  split; [|done].
  unfold canSubmit, attemptedCount. by rewrite length_Object_keys.
Qed.

(** ** The score *)

Lemma correctCount_le st : correctCount st ≤ size (mcqState st).
Proof.
  unfold correctCount. rewrite <- size_dom.
  apply subseteq_size. intros x. rewrite elem_of_filter. tauto.
Qed.

Lemma score_beyond st : ¬ indexed st → score st = Throws TypeError.
Proof.
  intros Hn.
  apply (not_set_Forall_Exists (C:=gset nat) (λ i, i < length (localMcqData st))) in Hn
    as (k & Hk & Hlt). cbn in Hlt.
  apply (score_raises st k Hk). apply lookup_ge_None. lia.
Qed.

(** C5 (as amended).  When every answered index is the index of a question,
    the score is the number of answered indices whose selection is the
    correct option of the question at that index; when some answered index
    is the index of no question, computing the score raises a [TypeError].
    A question without an answer adds nothing and takes nothing away: the
    count is at most the number of answers, and replacing an unanswered
    question leaves the score as it is.  Answers to different questions
    given in another order end in the same state, and two runs that end
    with the same answer map have the same score. *)
Theorem C5_score_counts_correct_answers st :
  (indexed st → score st = Ok (correctCount st))
  ∧ (¬ indexed st → score st = Throws TypeError)
  ∧ correctCount st ≤ size (mcqState st)
  ∧ (∀ i q, i ∉ dom (mcqState st) →
            score (setLocalMcqData (<[i := q]> (localMcqData st)) st) = score st)
  ∧ (∀ clicks1 clicks2, clicks1 ≡ₚ clicks2 → NoDup clicks1.*1 →
            score (answerAll clicks1 st) = score (answerAll clicks2 st))
  ∧ (∀ clicks1 clicks2,
            mcqState (answerAll clicks1 st) = mcqState (answerAll clicks2 st) →
            score (answerAll clicks1 st) = score (answerAll clicks2 st)).
Proof.
  split_and!.
  - apply score_count.
  - apply score_beyond.
  - apply correctCount_le.
  - intros i q Hi. apply score_ext; [done|].
    intros k Hk. cbn. rewrite list_lookup_insert_ne; [done|]. by intros ->.
  - intros cs1 cs2 Hp Hnd. by rewrite (answerAll_perm cs1 cs2).
  - intros cs1 cs2 Hm. apply score_ext; [done|].
    intros k _. by rewrite !answerAll_localMcqData.
Qed.

Lemma C5_witness :
  score (answerAll [(0, 0); (1, 0); (2, 3)]
           (Sample.fresh [Sample.item 0; Sample.item 1; Sample.item 3]))
  = Ok (correctCount (answerAll [(0, 0); (1, 0); (2, 3)]
           (Sample.fresh [Sample.item 0; Sample.item 1; Sample.item 3]))).
Proof.
  apply (proj1 (C5_score_counts_correct_answers _)).
  apply (bool_decide_unpack
           (set_Forall (λ i, i < 3)
              (dom (mcqState (answerAll [(0, 0); (1, 0); (2, 3)]
                      (Sample.fresh [Sample.item 0; Sample.item 1; Sample.item 3])))))).
  vm_compute; reflexivity.
Defined.

(** C5, as stated ("for every answer map and question list"): a content
    that brings the answers of a past attempt to three questions with one
    question only: the session takes the answers as they are, and the score
    of the answer at index 2 reads a question that is not there. *)
Lemma C5_answer_beyond_list_raises :
  let past := {| type := "MCQ_ANALYSIS"; title := "Quiz"; content := ""; tags := None;
                 videoPlaylist := None; mcqData := Some [Sample.item 0];
                 userAnswers := Some {[ 0 := Some 0%Z; 2 := Some 1%Z ]};
                 aiHtmlContent := None |} in
  let st := mcqInit past Sample.chapter [Sample.item 0] ∅ initialState in
  mcqState st = {[ 0 := Some 0%Z; 2 := Some 1%Z ]}
  ∧ localMcqData st = [Sample.item 0]
  ∧ score st = Throws TypeError.
Proof. cbv zeta. split_and!; vm_compute; reflexivity. Qed.

Example score_sample :
  score (answerAll [(0, 0); (1, 0); (2, 3)]
           (Sample.fresh [Sample.item 0; Sample.item 1; Sample.item 3])) = Ok 2.
Proof. vm_compute; reflexivity. Qed.

(** ** The session timer *)

Lemma phase_InProgress loading st :
  phase loading st = InProgress ↔
  loading = false ∧ showResults st = false
  ∧ showResumePrompt st = false ∧ showSubmitModal st = false.
Proof.
  unfold phase.
  destruct loading, (showResults st), (showResumePrompt st), (showSubmitModal st);
    intuition discriminate.
Qed.

(** C8 (as amended).  A tick adds one second exactly when none of the
    results, the submit dialog and the resume dialog is shown, and nothing
    otherwise: it adds one in the phase InProgress and nothing in the phases
    AwaitingResumeChoice, ConfirmingSubmit and Completed.  The [loading]
    flag is not consulted. *)
Theorem C8_timer_gate loading st :
  (phase loading st = InProgress → tick st = setSessionTime (sessionTime st + 1) st)
  ∧ (phase loading st = AwaitingResumeChoice
     ∨ phase loading st = ConfirmingSubmit
     ∨ phase loading st = Completed → tick st = st)
  ∧ (sessionTime (tick st) = sessionTime st + 1 ↔
     showResults st = false ∧ showSubmitModal st = false ∧ showResumePrompt st = false)
  ∧ (sessionTime (tick st) = sessionTime st + 1 ∨ tick st = st).
Proof.
  unfold phase, tick, timerRunning.
  destruct loading, (showResults st), (showResumePrompt st), (showSubmitModal st);
    cbn; split_and!; try (intuition (discriminate || lia)); auto.
Qed.

Lemma C8_witness :
  tick (Sample.fresh [Sample.item 0]) = setSessionTime 1 (Sample.fresh [Sample.item 0])
  ∧ tick (setShowSubmitModal true (Sample.fresh [Sample.item 0]))
    = setShowSubmitModal true (Sample.fresh [Sample.item 0]).
Proof.
  split.
  - apply (proj1 (C8_timer_gate false (Sample.fresh [Sample.item 0]))). reflexivity.
  - apply (proj1 (proj2 (C8_timer_gate false (setShowSubmitModal true (Sample.fresh [Sample.item 0]))))).
    right; left; reflexivity.
Defined.

(** C8, as stated: while the content is loading the component is mounted
    with no dialog and no results, and the timer counts. *)
Lemma C8_timer_counts_while_loading :
  phase true initialState = Loading
  ∧ sessionTime (tick initialState) = sessionTime initialState + 1.
Proof. split; reflexivity. Qed.

(** Confirming the submission closes the dialog and sets no other flag:
    until the host sends the answers back for review, the timer counts. *)
Example timer_after_confirm :
  let st := setShowSubmitModal true (answer (0, 0) (Sample.fresh [Sample.item 0])) in
  timerRunning st = false
  ∧ (λ r, timerRunning r.1.1) <$> handleConfirmSubmit Sample.chapter true ∅ st = Ok true.
Proof. cbv zeta. split; vm_compute; reflexivity. Qed.

(** ** Saving progress *)

Lemma Object_keys_nonempty {V} (o : gmap nat V) : 0 < length (Object_keys o) ↔ o ≠ ∅.
Proof.
  rewrite length_Object_keys.
  rewrite <- (map_size_non_empty_iff o). lia.
Qed.

Lemma persistProgress_running ch st ls :
  showResults st = false → mcqState st ≠ ∅ →
  persistProgress ch st ls !! storageKey ch = Some (stringify (snapshot st)).
Proof.
  intros Hr Hm. unfold persistProgress. rewrite Hr. cbn.
  rewrite bool_decide_eq_true_2 by (by apply Object_keys_nonempty).
  apply lookup_insert_eq.
Qed.

Lemma persistProgress_empty ch st ls :
  mcqState st = ∅ → persistProgress ch st ls = ls.
Proof.
  intros Hm. unfold persistProgress.
  rewrite bool_decide_eq_false_2; [by rewrite andb_false_r|].
  rewrite Object_keys_nonempty. by intros [].
Qed.

Lemma handle_showResults m st : showResults (handle m st) = showResults st.
Proof. by destruct m. Qed.

(** C9 (as amended).  In a running session each of the three operations,
    when its control is on screen and enabled, is followed by a write of the
    snapshot of the new state under the chapter's key, provided the answer
    map is not empty; an answer always is.  With an empty answer map a
    change of batch writes nothing. *)
Theorem C9_progress_saved_after_mutation ch m st ls :
  phase false st = InProgress →
  enabled m st = true →
  (click ch m (st, ls)).1 = handle m st
  ∧ (mcqState (handle m st) ≠ ∅ →
     (click ch m (st, ls)).2 !! storageKey ch = Some (stringify (snapshot (handle m st))))
  ∧ (mcqState (handle m st) = ∅ → (click ch m (st, ls)).2 = ls)
  ∧ (∀ idx oIdx, m = Answer idx oIdx →
     (click ch m (st, ls)).2 !! storageKey ch = Some (stringify (snapshot (handle m st)))).
Proof.
  intros (_ & Hr & _ & _)%phase_InProgress Hen.
  unfold click. cbn [fst snd]. rewrite Hen. cbn [fst snd].
  split_and!.
  - done.
  - intros Hm. apply persistProgress_running; [|done]. by rewrite handle_showResults.
  - apply persistProgress_empty.
  - intros idx oIdx ->. apply persistProgress_running; [done|].
    cbn. apply insert_non_empty.
Qed.

Lemma C9_witness :
  (click Sample.chapter (Answer 0 1) (Sample.fresh [Sample.item 0; Sample.item 1], ∅)).2
    !! storageKey Sample.chapter
  = Some (stringify (snapshot (handle (Answer 0 1) (Sample.fresh [Sample.item 0; Sample.item 1])))).
Proof.
  refine (proj2 (proj2 (proj2
    (C9_progress_saved_after_mutation Sample.chapter (Answer 0 1)
       (Sample.fresh [Sample.item 0; Sample.item 1]) ∅ _ _))) 0 1 eq_refl).
  - reflexivity.
  - vm_compute; reflexivity.
Defined.

(** C9, as stated: on a pool of 120 questions with nothing answered yet,
    the button Next moves to the second batch and nothing is written. *)
Lemma C9_paging_without_answers_not_saved :
  let st := Sample.fresh (replicate 120 (Sample.item 0)) in
  phase false st = InProgress
  ∧ enabled NextBatch st = true
  ∧ batchIndex (click Sample.chapter NextBatch (st, ∅)).1 = 1
  ∧ (click Sample.chapter NextBatch (st, ∅)).2 !! storageKey Sample.chapter = None.
Proof. cbv zeta. split_and!; vm_compute; reflexivity. Qed.

(** What is written reads back as the state it was written from. *)
Example saved_snapshot :
  let w := click Sample.chapter (Answer 1 2) (Sample.fresh [Sample.item 0; Sample.item 1], ∅) in
  (parse <$> w.2 !! storageKey Sample.chapter) = Some (Ok (snapshot w.1))
  ∧ handleResume Sample.chapter w.2
      (setShowResumePrompt true (Sample.fresh [Sample.item 1; Sample.item 0]))
    = Ok (Restored_state w.1).
Proof. cbv zeta. split; vm_compute; reflexivity. Qed.

(** ** Strings *)

Lemma app_cons c s t : String c s +:+ t = String c (s +:+ t).
Proof. done. Qed.

Lemma length_app s t : String.length (s +:+ t) = String.length s + String.length t.
Proof. induction s as [|c s IH]; [done|]. rewrite app_cons. cbn. by rewrite IH. Qed.

Lemma span_app p s : (span p s).1 +:+ (span p s).2 = s.
Proof.
  induction s as [|c s IH]; [done|]. cbn.
  destruct (p c); [|done].
  destruct (span p s) as [run rest]. cbn in *. by rewrite app_cons, IH.
Qed.

Lemma span_all p s : allChars p (span p s).1 = true.
Proof.
  induction s as [|c s IH]; [done|]. cbn.
  destruct (p c) eqn:Hc; [|done].
  destruct (span p s) as [run rest]. cbn in *. by rewrite Hc.
Qed.

Lemma span_stop p s c r : (span p s).2 = String c r → p c = false.
Proof.
  induction s as [|c' s IH]; [done|]. cbn.
  destruct (p c') eqn:Hc.
  - destruct (span p s) as [run rest]. cbn in *. done.
  - cbn. by intros [= <- _].
Qed.

(** The greedy run is at least as long as any run at the head. *)
Lemma span_longest p s t u :
  s = t +:+ u → allChars p t = true → String.length t ≤ String.length (span p s).1.
Proof.
  revert s. induction t as [|c t IH]; intros s -> Ht; [cbn; lia|].
  rewrite app_cons. cbn in *.
  apply andb_true_iff in Ht as [-> Ht].
  specialize (IH (t +:+ u) eq_refl Ht).
  destruct (span p (t +:+ u)) as [run rest]. cbn in *. lia.
Qed.

(** ** The parser never runs out of fuel *)

Lemma span_length p s :
  String.length s = String.length (span p s).1 + String.length (span p s).2.
Proof. by rewrite <- length_app, span_app. Qed.

Lemma skipWs_length s : String.length (skipWs s) ≤ String.length s.
Proof. unfold skipWs. rewrite (span_length isWs s). lia. Qed.

Lemma startsWith_length s p :
  startsWith s p = true →
  String.length s = String.length p + String.length (dropChars (String.length p) s).
Proof.
  revert s. induction p as [|a p IH]; intros [|b s]; cbn; try done.
  intros [_ H]%andb_true_iff. by rewrite <- IH.
Qed.

Lemma lit_length p s r :
  lit p s = Some r → String.length s = String.length p + String.length r.
Proof.
  unfold lit. destruct (startsWith s p) eqn:H; [|done].
  intros [= <-]. by apply startsWith_length.
Qed.

Lemma andThen_Done {A B} (p : parsed A) (k : A → string → parsed B) b r :
  andThen p k = Done b r → ∃ a r0, p = Done a r0 ∧ k a r0 = Done b r.
Proof. destruct p; cbn; eauto; done. Qed.

Lemma andThen_NoFuel {A B} (p : parsed A) (k : A → string → parsed B) :
  andThen p k = NoFuel → p = NoFuel ∨ ∃ a r0, p = Done a r0 ∧ k a r0 = NoFuel.
Proof. destruct p; cbn; eauto; done. Qed.

Lemma stringBody_decr m s t r :
  stringBody m s = Done t r → String.length r < String.length s.
Proof.
  revert m t r. induction s as [|c s IH]; intros m t r; [done|].
  cbn [stringBody]. unfold prepend.
  destruct m as [| |k acc].
  - case_bool_decide; [intros [= _ <-]; cbn; lia|].
    case_bool_decide; [intros ?%IH; cbn; lia|].
    destruct (code c <? 32)%N; [done|].
    intros (? & ? & ?%IH & [= _ <-])%andThen_Done. cbn; lia.
  - destruct (unescape c).
    + intros (? & ? & ?%IH & [= _ <-])%andThen_Done. cbn; lia.
    + case_bool_decide; [|done]. intros ?%IH. cbn; lia.
  - destruct (hexDigit c); [|done].
    destruct k as [|[|k]]; [done|..].
    + intros (? & ? & ?%IH & [= _ <-])%andThen_Done. cbn; lia.
    + intros ?%IH. cbn; lia.
Qed.

Lemma stringBody_fuel m s : stringBody m s ≠ NoFuel.
Proof.
  revert m. induction s as [|c s IH]; intros m; [done|].
  cbn [stringBody]. unfold prepend.
  destruct m as [| |k acc].
  - case_bool_decide; [done|].
    case_bool_decide; [done|].
    destruct (code c <? 32)%N; [done|].
    intros [?|(? & ? & _ & ?)]%andThen_NoFuel; [by eapply IH|done].
  - destruct (unescape c).
    + intros [?|(? & ? & _ & ?)]%andThen_NoFuel; [by eapply IH|done].
    + by case_bool_decide.
  - destruct (hexDigit c); [|done].
    destruct k as [|[|k]]; [done|..]; [|done].
    intros [?|(? & ? & _ & ?)]%andThen_NoFuel; [by eapply IH|done].
Qed.

Lemma intPart_decr s ds r :
  intPart s = Some (ds, r) → String.length r < String.length s.
Proof.
  destruct s as [|c s]; [done|]. cbn [intPart].
  case_bool_decide; [intros [= _ <-]; cbn; lia|].
  destruct (isDigit c) eqn:Hc; [|done].
  intros Hs. apply (inj Some) in Hs.
  pose proof (span_length isDigit (String c s)) as Hl.
  rewrite Hs in Hl. cbn [fst snd] in Hl.
  cbn in Hs. rewrite Hc in Hs. destruct (span isDigit s); simplify_eq/=. lia.
Qed.

Lemma digits1_length s r : digits1 s = Some r → String.length r ≤ String.length s.
Proof.
  unfold digits1. pose proof (span_length isDigit s) as Hl.
  destruct (span isDigit s) as [ds rest]. case_bool_decide; [done|].
  intros [= <-]. cbn in Hl. lia.
Qed.

Lemma fracPart_length s b r : fracPart s = Some (b, r) → String.length r ≤ String.length s.
Proof.
  unfold fracPart. destruct (lit "." s) as [r0|] eqn:Hl.
  - apply lit_length in Hl. destruct (digits1 r0) as [r1|] eqn:Hd; [|done].
    apply digits1_length in Hd. cbn. intros [= _ <-]. lia.
  - intros [= _ <-]. lia.
Qed.

Lemma expPart_length s b r : expPart s = Some (b, r) → String.length r ≤ String.length s.
Proof.
  unfold expPart.
  destruct (orElse (lit "e" s) (lit "E" s)) as [r0|] eqn:He; [|intros [= _ <-]; lia].
  assert (String.length r0 ≤ String.length s) as Hr0.
  { unfold orElse in He. destruct (lit "e" s) eqn:H1.
    - simplify_eq. apply lit_length in H1. lia.
    - apply lit_length in He. lia. }
  assert (String.length (default r0 (orElse (lit "+" r0) (lit "-" r0))) ≤ String.length r0) as Hr1.
  { unfold orElse. destruct (lit "+" r0) eqn:H1; cbn.
    - apply lit_length in H1. lia.
    - destruct (lit "-" r0) eqn:H2; cbn; [|lia]. apply lit_length in H2. lia. }
  destruct (digits1 _) as [r1|] eqn:Hd; [|done].
  apply digits1_length in Hd. cbn. intros [= _ <-]. lia.
Qed.

Lemma number_decr s v r : number s = Done v r → String.length r < String.length s.
Proof.
  unfold number.
  assert (∃ neg s1, match lit "-" s with Some r => (true, r) | None => (false, s) end = (neg, s1)
                    ∧ String.length s1 ≤ String.length s) as (neg & s1 & -> & Hs1).
  { destruct (lit "-" s) as [r0|] eqn:Hl; eexists _, _; split; try done.
    apply lit_length in Hl. lia. }
  destruct (intPart s1) as [[ds s2]|] eqn:Hi; [|done].
  apply intPart_decr in Hi.
  destruct (fracPart s2) as [[hasFrac s3]|] eqn:Hf; [|done].
  apply fracPart_length in Hf.
  destruct (expPart s3) as [[hasExp s4]|] eqn:He; [|done].
  apply expPart_length in He.
  destruct (hasFrac || hasExp); intros [= _ <-]; lia.
Qed.

Lemma number_fuel s : number s ≠ NoFuel.
Proof.
  unfold number.
  destruct (match lit "-" s with Some r => (true, r) | None => (false, s) end) as [neg s1].
  destruct (intPart s1) as [[ds s2]|]; [|done].
  destruct (fracPart s2) as [[hasFrac s3]|]; [|done].
  destruct (expPart s3) as [[hasExp s4]|]; [|done].
  by destruct (hasFrac || hasExp).
Qed.

Ltac lit_lengths :=
  repeat match goal with
    | H : lit _ _ = Some _ |- _ => apply lit_length in H; cbn [String.length] in H
    end.

(** Whatever a parsing function reads, it reads at least one character. *)
Lemma parse_decr fuel :
  (∀ s v r, parseValue fuel s = Done v r → String.length r < String.length s)
  ∧ (∀ s l r, parseElements fuel s = Done l r → String.length r < String.length s)
  ∧ (∀ s l r, parseMembers fuel s = Done l r → String.length r < String.length s).
Proof.
  induction fuel as [|fuel (IHv & IHe & IHm)]; [done|].
  split_and!.
  - intros s v r. cbn [parseValue].
    pose proof (skipWs_length s) as Hws. revert Hws.
    generalize (skipWs s) as s'. intros s' Hws.
    destruct (lit "null" s') eqn:E1; [intros [= _ <-]; lit_lengths; lia|].
    destruct (lit "true" s') eqn:E2; [intros [= _ <-]; lit_lengths; lia|].
    destruct (lit "false" s') eqn:E3; [intros [= _ <-]; lit_lengths; lia|].
    destruct (lit dquotes s') eqn:E4.
    { intros (? & ? & ?%stringBody_decr & [= _ <-])%andThen_Done. lit_lengths. lia. }
    destruct (lit "[" s') as [r0|] eqn:E5.
    { pose proof (skipWs_length r0).
      destruct (lit "]" (skipWs r0)) eqn:E6.
      - intros [= _ <-]. lit_lengths. lia.
      - intros (? & ? & ?%IHe & [= _ <-])%andThen_Done. lit_lengths. lia. }
    destruct (lit "{" s') as [r0|] eqn:E6.
    { pose proof (skipWs_length r0).
      destruct (lit "}" (skipWs r0)) eqn:E7.
      - intros [= _ <-]. lit_lengths. lia.
      - intros (? & ? & ?%IHm & [= _ <-])%andThen_Done. lit_lengths. lia. }
    intros ?%number_decr. lia.
  - intros s l r. cbn [parseElements].
    intros (v & r0 & Hv%IHv & Hk)%andThen_Done.
    pose proof (skipWs_length r0). revert Hk.
    destruct (lit "]" (skipWs r0)) eqn:E1; [intros [= _ <-]; lit_lengths; lia|].
    destruct (lit "," (skipWs r0)) eqn:E2; [|done].
    intros (? & ? & ?%IHe & [= _ <-])%andThen_Done. lit_lengths. lia.
  - intros s l r. cbn [parseMembers].
    pose proof (skipWs_length s).
    destruct (lit dquotes (skipWs s)) as [r0|] eqn:E1; [|done].
    intros (k & r1 & Hk%stringBody_decr & Hrest)%andThen_Done. revert Hrest.
    pose proof (skipWs_length r1).
    destruct (lit ":" (skipWs r1)) as [r2|] eqn:E2; [|done].
    intros (v & r3 & Hv%IHv & Hrest)%andThen_Done. revert Hrest.
    pose proof (skipWs_length r3).
    destruct (lit "}" (skipWs r3)) eqn:E3; [intros [= _ <-]; lit_lengths; lia|].
    destruct (lit "," (skipWs r3)) eqn:E4; [|done].
    intros (? & ? & ?%IHm & [= _ <-])%andThen_Done. lit_lengths. lia.
Qed.

(** Two units of fuel for each character are enough. *)
Lemma parse_enough fuel :
  (∀ s, 2 * String.length s < fuel → parseValue fuel s ≠ NoFuel)
  ∧ (∀ s, 2 * String.length s + 1 < fuel → parseElements fuel s ≠ NoFuel)
  ∧ (∀ s, 2 * String.length s + 1 < fuel → parseMembers fuel s ≠ NoFuel).
Proof.
  induction fuel as [|fuel (IHv & IHe & IHm)]; [split_and!; intros; lia|].
  destruct (parse_decr fuel) as (Dv & De & Dm).
  split_and!.
  - intros s Hs. cbn [parseValue].
    pose proof (skipWs_length s) as Hws. revert Hws.
    generalize (skipWs s) as s'. intros s' Hws.
    destruct (lit "null" s') eqn:E1; [done|].
    destruct (lit "true" s') eqn:E2; [done|].
    destruct (lit "false" s') eqn:E3; [done|].
    destruct (lit dquotes s') eqn:E4.
    { intros [?|(? & ? & _ & ?)]%andThen_NoFuel; [by eapply stringBody_fuel|done]. }
    destruct (lit "[" s') as [r0|] eqn:E5.
    { destruct (lit "]" (skipWs r0)) eqn:E6; [done|].
      intros [He|(? & ? & _ & ?)]%andThen_NoFuel; [|done].
      revert He. apply IHe. lit_lengths. lia. }
    destruct (lit "{" s') as [r0|] eqn:E6.
    { destruct (lit "}" (skipWs r0)) eqn:E7; [done|].
      intros [He|(? & ? & _ & ?)]%andThen_NoFuel; [|done].
      revert He. apply IHm. lit_lengths. lia. }
    apply number_fuel.
  - intros s Hs. cbn [parseElements].
    intros [Hv|(v & r0 & Hv%Dv & Hk)]%andThen_NoFuel.
    { revert Hv. apply IHv. lia. }
    pose proof (skipWs_length r0). revert Hk.
    destruct (lit "]" (skipWs r0)) eqn:E1; [done|].
    destruct (lit "," (skipWs r0)) eqn:E2; [|done].
    intros [He|(? & ? & _ & ?)]%andThen_NoFuel; [|done].
    revert He. apply IHe. lit_lengths. lia.
  - intros s Hs. cbn [parseMembers].
    pose proof (skipWs_length s).
    destruct (lit dquotes (skipWs s)) as [r0|] eqn:E1; [|done].
    intros [Hk|(k & r1 & Hk%stringBody_decr & Hrest)]%andThen_NoFuel.
    { by eapply stringBody_fuel. }
    revert Hrest. pose proof (skipWs_length r1).
    destruct (lit ":" (skipWs r1)) as [r2|] eqn:E2; [|done].
    intros [Hv|(v & r3 & Hv%Dv & Hrest)]%andThen_NoFuel.
    { revert Hv. apply IHv. lit_lengths. lia. }
    revert Hrest. pose proof (skipWs_length r3).
    destruct (lit "}" (skipWs r3)) eqn:E3; [done|].
    destruct (lit "," (skipWs r3)) eqn:E4; [|done].
    intros [He|(? & ? & _ & ?)]%andThen_NoFuel; [|done].
    revert He. apply IHm. lit_lengths. lia.
Qed.

(** [JSON.parse] never stops for want of fuel: an error it reports is a
    syntax error of the text. *)
Lemma parse_fuel text : parseValue (2 * String.length text + 2) text ≠ NoFuel.
Proof. apply parse_enough. lia. Qed.

(** ** A snapshot that is not JSON *)

(** C6 at a stored text that is not JSON: the session does not start
    fresh, the resume dialog is shown as for a good snapshot, and Resume
    raises.  With no stored text there is no dialog. *)
Lemma C6_corrupt_snapshot_raises :
  let c := Sample.quiz [Sample.item 0; Sample.item 1] in
  let bad : Storage := {[ storageKey Sample.chapter := "not json" ]} in
  let st := mcqInit c Sample.chapter [Sample.item 1; Sample.item 0] bad initialState in
  showResumePrompt st = true
  ∧ showResumePrompt (mcqInit c Sample.chapter [Sample.item 1; Sample.item 0] ∅ initialState) = false
  ∧ handleResume Sample.chapter bad st = Throws SyntaxError
  ∧ handleResume Sample.chapter {[ storageKey Sample.chapter := "null" ]} st = Throws TypeError.
Proof. cbv zeta. split_and!; vm_compute; reflexivity. Qed.

(** ** The Drive identifier *)

Lemma idMatch_first url t : idMatch url = Some t → firstToken url t.
Proof.
  revert t. induction url as [|c url IH]; intros t; [done|].
  cbn [idMatch]. case_bool_decide as Hlen.
  - intros Heq.
    assert (t = (span isIdChar (String c url)).1) as -> by congruence.
    exists "", (span isIdChar (String c url)).2.
    split_and!.
    + by rewrite span_app.
    + split; [apply span_all|done].
    + intros c' post'. apply span_stop.
    + intros; cbn; lia.
  - intros (pre & post & -> & Htok & Hstop & Hfirst)%IH.
    exists (String c pre), post. split_and!; try done.
    intros [|c' pre'] t' post' Heq Ht'; [|cbn; injection Heq as <- Heq].
    + destruct Ht' as [Hall Hlen'].
      pose proof (span_longest isIdChar _ t' post' Heq Hall). cbn in Heq. lia.
    + specialize (Hfirst pre' t' post' Heq Ht'). lia.
Qed.

Lemma idMatch_none url : idMatch url = None → noToken url.
Proof.
  induction url as [|c url IH]; intros Hnone pre t post Heq [Hall Hlen].
  - destruct pre; [|done]. destruct t; [cbn in Hlen; lia|done].
  - cbn [idMatch] in Hnone. case_bool_decide as Hrun; [done|].
    destruct pre as [|c' pre].
    + pose proof (span_longest isIdChar _ t post Heq Hall). lia.
    + injection Heq as <- Heq. by apply (IH Hnone pre t post Heq).
Qed.

Lemma noToken_idMatch url : noToken url → idMatch url = None.
Proof.
  intros Hno. destruct (idMatch url) as [t|] eqn:Ht; [|done].
  apply idMatch_first in Ht as (pre & post & Heq & Htok & _).
  by destruct (Hno pre t post Heq).
Qed.

(** C7.  On a Drive address the identifier taken is the first contiguous
    token of 25 or more word characters or hyphens; the embed address is
    the [file/d/.../preview] form and the download address, when the learner
    is entitled, the [uc?id=...&export=download] form, both around that
    token.  Without such a token no identifier is found and nothing raises:
    the link generator returns nothing, and the renderer gives a result
    that is flagged as a Drive video all the same, whose address is the
    address as it came, which the frame then shows, with no download
    link. *)
Theorem C7_drive_identifier url :
  (∀ t, idMatch url = Some t →
     firstToken url t
     ∧ getDriveDownloadLink url
       = Some ("https://drive.google.com/u/0/uc?id=" +:+ t +:+ "&export=download")
     ∧ (includes url "drive.google.com" = true →
        ∀ can,
          embedUrl (parseVideoUrl can url)
          = "https://drive.google.com/file/d/" +:+ t +:+ "/preview"
          ∧ downloadUrl (parseVideoUrl can url)
            = if can
              then Some ("https://drive.google.com/u/0/uc?id=" +:+ t +:+ "&export=download")
              else None))
  ∧ (noToken url →
     idMatch url = None
     ∧ getDriveDownloadLink url = None
     ∧ (includes url "drive.google.com" = true →
        ∀ can,
          parseVideoUrl can url
          = {| embedUrl := url; downloadUrl := None;
               isDriveVideo := true; isYouTubeVideo := false |}
          ∧ secureSrc (parseVideoUrl can url) = url))
  ∧ (idMatch url = None → noToken url).
Proof.
  split_and!.
  - intros t Ht. split_and!.
    + by apply idMatch_first.
    + unfold getDriveDownloadLink. by rewrite Ht.
    + intros Hd can. unfold parseVideoUrl. by rewrite Hd, Ht.
  - intros Hno%noToken_idMatch. split_and!; [done|..].
    + unfold getDriveDownloadLink. by rewrite Hno.
    + intros Hd can. unfold secureSrc, parseVideoUrl. by rewrite Hd, Hno.
  - apply idMatch_none.
Qed.

Lemma C7_witness :
  (firstToken Sample.driveUrl "1AbCdEfGhIjKlMnOpQrStUvWxYz012"
   ∧ embedUrl (parseVideoUrl true Sample.driveUrl)
     = "https://drive.google.com/file/d/1AbCdEfGhIjKlMnOpQrStUvWxYz012/preview"
   ∧ downloadUrl (parseVideoUrl true Sample.driveUrl)
     = Some "https://drive.google.com/u/0/uc?id=1AbCdEfGhIjKlMnOpQrStUvWxYz012&export=download")
  ∧ (noToken "https://drive.google.com/file/d/short/view"
     ∧ getDriveDownloadLink "https://drive.google.com/file/d/short/view" = None
     ∧ parseVideoUrl true "https://drive.google.com/file/d/short/view"
       = {| embedUrl := "https://drive.google.com/file/d/short/view"; downloadUrl := None;
            isDriveVideo := true; isYouTubeVideo := false |}).
Proof.
  split.
  - pose proof (proj1 (C7_drive_identifier Sample.driveUrl)
                  "1AbCdEfGhIjKlMnOpQrStUvWxYz012" eq_refl) as (H1 & _ & H3).
    split; [exact H1|].
    exact (H3 eq_refl true).
  - pose proof (proj2 (proj2 (C7_drive_identifier "https://drive.google.com/file/d/short/view"))
                  eq_refl) as Hno.
    pose proof (proj1 (proj2 (C7_drive_identifier "https://drive.google.com/file/d/short/view"))
                  Hno) as (_ & H2 & H3).
    split; [exact Hno|]. split; [exact H2|].
    exact (proj1 (H3 eq_refl true)).
Defined.

(** C7, as stated ("if no such token exists the result is Unresolved"): a
    Drive address without a token is resolved, as a Drive video with the
    address as it came for the frame. *)
Lemma C7_no_token_is_embedded :
  let url := "https://drive.google.com/file/d/short/view" in
  idMatch url = None
  ∧ ∃ v, videoRenderer (Sample.learner "yearly")
           (Sample.lesson "VIDEO_LECTURE" "Optics" url) Sample.chapter 0 = Ok v
         ∧ isDriveVideo (resolved v) = true
         ∧ secureSrc (resolved v) = url
         ∧ downloadButton v = None.
Proof.
  cbv zeta. split; [vm_compute; reflexivity|].
  eexists. split_and!; vm_compute; reflexivity.
Qed.

(** The shapes of YouTube address that the expression knows give one and
    the same embed address; downloads are never offered. *)
Example youtube_shapes :
  let r := {| embedUrl := "https://www.youtube.com/embed/dQw4w9WgXcQ?autoplay=1";
              downloadUrl := None; isDriveVideo := false; isYouTubeVideo := true |} in
  parseVideoUrl true "https://www.youtube.com/watch?v=dQw4w9WgXcQ&t=42" = r
  ∧ parseVideoUrl true "https://youtu.be/dQw4w9WgXcQ" = r
  ∧ parseVideoUrl true "https://www.youtube.com/embed/dQw4w9WgXcQ" = r
  ∧ parseVideoUrl true "https://www.youtube.com/v/dQw4w9WgXcQ" = r
  ∧ parseVideoUrl true "https://www.youtube.com/user/physics#p/u/1/dQw4w9WgXcQ" = r
  ∧ embedUrl (parseVideoUrl true "https://www.youtube.com/playlist?list=PL1")
    = "https://www.youtube.com/playlist?list=PL1".
Proof. cbv zeta. split_and!; vm_compute; reflexivity. Qed.

Example drive_without_identifier :
  parseVideoUrl true "https://drive.google.com/file/d/short/view"
  = {| embedUrl := "https://drive.google.com/file/d/short/view"; downloadUrl := None;
       isDriveVideo := true; isYouTubeVideo := false |}
  ∧ getDriveDownloadLink "https://drive.google.com/file/d/short/view" = None.
Proof. split; vm_compute; reflexivity. Qed.


(** * More properties of the session *)

(** ** Answers are final *)

Lemma answer_mcqState c st :
  mcqState (answer c st) = mcqState st
  ∨ (mcqState st !! c.1 = None
     ∧ mcqState (answer c st) = <[c.1 := Some (Z.of_nat c.2)]> (mcqState st)).
Proof.
  unfold answer. destruct (enabled (Answer c.1 c.2) st) eqn:Hen; [|by left].
  right. apply enabled_Answer in Hen as (_ & Hnone & _). done.
Qed.

Lemma answer_keeps c st i v :
  mcqState st !! i = Some v → mcqState (answer c st) !! i = Some v.
Proof.
  intros Hi. destruct (answer_mcqState c st) as [->|[Hnone ->]]; [done|].
  rewrite lookup_insert_ne; [done|]. intros Heq. rewrite Heq in Hnone. congruence.
Qed.

(** Once a question has an answer, no click changes it: its buttons are
    disabled, and whatever is clicked afterwards the entry stays. *)
Theorem answers_are_final st i v :
  mcqState st !! i = Some v →
  (∀ oIdx, enabled (Answer i oIdx) st = false)
  ∧ (∀ cs, mcqState (answerAll cs st) !! i = Some v).
Proof.
  intros Hi. split.
  - intros oIdx. unfold enabled.
    rewrite (bool_decide_eq_false_2 (mcqState st !! i = None)) by congruence.
    by rewrite andb_false_r.
  - intros cs. revert st Hi. induction cs as [|c cs IH]; intros st Hi; [done|].
    apply IH. by apply answer_keeps.
Qed.

Lemma answers_are_final_witness :
  mcqState (answerAll [(0, 1); (1, 3); (0, 0)]
              (answer (0, 2) (Sample.fresh [Sample.item 0; Sample.item 1])))
    !! 0 = Some (Some 2%Z).
Proof.
  apply (answers_are_final (answer (0, 2) (Sample.fresh [Sample.item 0; Sample.item 1]))).
  vm_compute; reflexivity.
Defined.

(** ** No more answers than questions *)

Lemma click_fields ch m w :
  localMcqData (click ch m w).1 = localMcqData w.1
  ∧ showResults (click ch m w).1 = showResults w.1
  ∧ showSubmitModal (click ch m w).1 = showSubmitModal w.1
  ∧ showResumePrompt (click ch m w).1 = showResumePrompt w.1
  ∧ sessionTime (click ch m w).1 = sessionTime w.1.
Proof.
  unfold click. destruct (enabled m w.1); [|done]. by destruct m.
Qed.

Lemma click_indexed ch m w : indexed w.1 → indexed (click ch m w).1.
Proof.
  intros Hw. unfold click. destruct (enabled m w.1) eqn:Hen; [|done].
  by apply handle_indexed.
Qed.

Lemma click_pageInRange ch m w : pageInRange w.1 → pageInRange (click ch m w).1.
Proof.
  intros Hw. unfold click. destruct (enabled m w.1) eqn:Hen; [|done].
  destruct m as [idx oIdx| |]; cbn [fst]; unfold pageInRange in *; cbn.
  - done.
  - apply bool_decide_eq_true in Hen. unfold BATCH_SIZE in *.
    destruct Hw as [Hw|Hw]; [lia|].
    destruct (decide (batchIndex w.1 - 1 = 0)); [by left|right; lia].
  - apply bool_decide_eq_true in Hen. right. unfold BATCH_SIZE in *. lia.
Qed.

(** Whatever is clicked, every answered index stays the index of a
    question, there are no more answers than questions, the batch index
    stays within the list, and the list itself is not touched. *)
Theorem clicks_keep_session_invariants ch ms w :
  indexed w.1 → pageInRange w.1 →
  indexed (clicks ch ms w).1
  ∧ size (mcqState (clicks ch ms w).1) ≤ length (localMcqData (clicks ch ms w).1)
  ∧ pageInRange (clicks ch ms w).1
  ∧ localMcqData (clicks ch ms w).1 = localMcqData w.1.
Proof.
  revert w. induction ms as [|m ms IH]; intros w Hi Hp.
  - split_and!; try done. by apply indexed_size.
  - change (clicks ch (m :: ms) w) with (clicks ch ms (click ch m w)).
    destruct (IH (click ch m w)) as (? & ? & ? & Hl).
    + by apply click_indexed.
    + by apply click_pageInRange.
    + split_and!; try done. rewrite Hl. apply click_fields.
Qed.

Lemma clicks_keep_session_invariants_witness :
  size (mcqState (clicks Sample.chapter [Answer 0 1; NextBatch; Answer 1 0; Answer 0 3]
                    (Sample.fresh [Sample.item 0; Sample.item 1], ∅)).1) ≤ 2.
Proof.
  refine (proj1 (proj2 (clicks_keep_session_invariants Sample.chapter
            [Answer 0 1; NextBatch; Answer 1 0; Answer 0 3]
            (Sample.fresh [Sample.item 0; Sample.item 1], ∅) _ _))).
  - apply (bool_decide_unpack (set_Forall (λ i, i < 2) (dom (∅ : gmap nat selection)))).
    vm_compute; reflexivity.
  - left; reflexivity.
Defined.

(** ** Batches *)

Lemma currentBatchData_spec st j :
  currentBatchData st !! j
  = if decide (j < BATCH_SIZE) then localMcqData st !! (batchIndex st * BATCH_SIZE + j) else None.
Proof.
  unfold currentBatchData, slice.
  replace ((batchIndex st + 1) * BATCH_SIZE - batchIndex st * BATCH_SIZE) with BATCH_SIZE by lia.
  case_decide.
  - by rewrite lookup_take_lt, lookup_drop.
  - apply lookup_take_ge. lia.
Qed.

(** The batches cut the list into pages of fifty: the question at position
    [i] is on page [i / 50] at place [i mod 50] and nowhere else, under the
    index [i]; no page has more than fifty questions. *)
Theorem batches_partition st :
  length (currentBatchData st) ≤ BATCH_SIZE
  ∧ (∀ i q, localMcqData st !! i = Some q ↔
            currentBatchData (setBatchIndex (i / BATCH_SIZE) st) !! (i mod BATCH_SIZE) = Some q)
  ∧ (∀ b j q, currentBatchData (setBatchIndex b st) !! j = Some q →
              localMcqData st !! (b * BATCH_SIZE + j) = Some q ∧ j < BATCH_SIZE)
  ∧ (∀ idx q, (idx, q) ∈ displayed st →
              localMcqData st !! idx = Some q
              ∧ batchIndex st * BATCH_SIZE ≤ idx < (batchIndex st + 1) * BATCH_SIZE).
Proof.
  split_and!.
  - unfold currentBatchData, slice. rewrite length_take. unfold BATCH_SIZE. lia.
  - intros i q. rewrite currentBatchData_spec. cbn [batchIndex setBatchIndex localMcqData].
    unfold BATCH_SIZE. rewrite decide_True by (apply Nat.mod_upper_bound; lia).
    replace (i `div` 50 * 50 + i `mod` 50) with i; [done|].
    rewrite (Nat.div_mod_eq i 50) at 1. lia.
  - intros b j q. rewrite currentBatchData_spec. cbn [batchIndex setBatchIndex localMcqData].
    by case_decide.
  - intros idx q (j & q' & [= -> ->] & Hq)%elem_of_lookup_imap.
    rewrite currentBatchData_spec in Hq. case_decide; [|done].
    split; [done|]. unfold BATCH_SIZE in *. lia.
Qed.

Lemma batches_partition_witness :
  localMcqData (Sample.fresh (replicate 120 (Sample.item 1))) !! 75 = Some (Sample.item 1)
  ∧ 25 < BATCH_SIZE.
Proof.
  apply (proj1 (proj2 (proj2 (batches_partition (Sample.fresh (replicate 120 (Sample.item 1))))))
           1 25 (Sample.item 1)).
  vm_compute; reflexivity.
Defined.

(** ** Paging *)

(** Next is offered exactly when the following page has a question, and
    then it shows one; Prev undoes Next and, on a page within the list,
    Next undoes Prev. *)
Theorem paging_stays_on_questions st :
  (enabled NextBatch st = true ↔ currentBatchData (handle NextBatch st) ≠ [])
  ∧ handle PrevBatch (handle NextBatch st) = st
  ∧ enabled PrevBatch (handle NextBatch st) = true
  ∧ (enabled PrevBatch st = true → pageInRange st →
     handle NextBatch (handle PrevBatch st) = st
     ∧ enabled NextBatch (handle PrevBatch st) = true).
Proof.
  split_and!.
  - unfold enabled. rewrite bool_decide_eq_true.
    split.
    + intros Hlt Hnil.
      assert (currentBatchData (handle NextBatch st) !! 0 = None) as H0 by (by rewrite Hnil).
      rewrite currentBatchData_spec in H0. cbn in H0.
      apply lookup_ge_None in H0. unfold BATCH_SIZE in *. lia.
    + intros Hne.
      destruct (currentBatchData (handle NextBatch st)) as [|q l] eqn:Hb; [done|].
      assert (currentBatchData (handle NextBatch st) !! 0 = Some q) as H0 by (by rewrite Hb).
      rewrite currentBatchData_spec in H0. cbn in H0.
      apply lookup_lt_Some in H0. unfold BATCH_SIZE in *. lia.
  - destruct st. unfold handle, setBatchIndex; cbn. f_equal. lia.
  - unfold enabled; cbn. apply bool_decide_eq_true. lia.
  - intros Hen%bool_decide_eq_true Hp. split.
    + destruct st. unfold handle, setBatchIndex; cbn in *. f_equal. lia.
    + unfold enabled; cbn. apply bool_decide_eq_true.
      destruct Hp as [Hp|Hp]; unfold BATCH_SIZE in *; lia.
Qed.

Lemma paging_stays_on_questions_witness :
  handle NextBatch (handle PrevBatch (setBatchIndex 2 (Sample.fresh (replicate 120 (Sample.item 1)))))
  = setBatchIndex 2 (Sample.fresh (replicate 120 (Sample.item 1))).
Proof.
  pose proof (paging_stays_on_questions
                (setBatchIndex 2 (Sample.fresh (replicate 120 (Sample.item 1)))))
    as (_ & _ & _ & H).
  apply H.
  - reflexivity.
  - right. vm_compute. lia.
Defined.

(** ** The submit gate under answering *)

Lemma answer_size c st : size (mcqState st) ≤ size (mcqState (answer c st)).
Proof.
  destruct (answer_mcqState c st) as [->|[Hnone ->]]; [done|].
  rewrite map_size_insert_None by done. lia.
Qed.

Lemma answerAll_size cs st : size (mcqState st) ≤ size (mcqState (answerAll cs st)).
Proof.
  revert st. induction cs as [|c cs IH]; intros st; [done|].
  change (answerAll (c :: cs) st) with (answerAll cs (answer c st)).
  etrans; [apply (answer_size c)|apply IH].
Qed.

(** Answering never takes the submit button away, and with every question
    answered (so also with no question at all) it is there. *)
Theorem canSubmit_stays st :
  (canSubmit st = true → ∀ cs, canSubmit (answerAll cs st) = true)
  ∧ (length (localMcqData st) ≤ size (mcqState st) → canSubmit st = true).
Proof.
  unfold canSubmit, attemptedCount. split.
  - intros Hs%bool_decide_eq_true cs. apply bool_decide_eq_true.
    rewrite length_Object_keys in *.
    rewrite answerAll_localMcqData. pose proof (answerAll_size cs st). lia.
  - intros Hall. apply bool_decide_eq_true. rewrite length_Object_keys. lia.
Qed.

Lemma canSubmit_stays_witness :
  canSubmit (answerAll [(0, 3); (1, 0)] (answer (0, 1) (Sample.fresh [Sample.item 0]))) = true.
Proof.
  apply (proj1 (canSubmit_stays (answer (0, 1) (Sample.fresh [Sample.item 0])))).
  vm_compute; reflexivity.
Defined.

(** ** When the score raises *)

Lemma indexed_dec st : Decision (indexed st).
Proof.
  unfold indexed.
  apply (set_Forall_dec (λ i, i < length (localMcqData st)) (dom (mcqState st))).
Defined.

(** The score is a number exactly when every answered index is the index
    of a question; otherwise reading the missing question raises a
    [TypeError], and nothing else is ever raised.  A number it returns is
    the count of correct answers, at most the number of answers and of
    questions. *)
Theorem score_raises_iff st :
  (score st = Throws TypeError ↔ ¬ indexed st)
  ∧ score st ≠ Throws SyntaxError
  ∧ (∀ n, score st = Ok n →
          indexed st ∧ n = correctCount st
          ∧ n ≤ size (mcqState st) ∧ n ≤ length (localMcqData st)).
Proof.
  destruct (indexed_dec st) as [Hi|Hn].
  - pose proof (score_count st Hi) as Hs. rewrite Hs. split_and!.
    + split; [done|]. intros Hn. by destruct Hn.
    + done.
    + intros n [= <-]. split_and!; [done..| |].
      * apply correctCount_le.
      * etrans; [apply correctCount_le|by apply indexed_size].
  - rewrite (score_beyond st Hn). split_and!; try done.
Qed.

Lemma score_raises_iff_witness :
  indexed (answer (0, 1) (Sample.fresh [Sample.item 1]))
  ∧ 1 = correctCount (answer (0, 1) (Sample.fresh [Sample.item 1]))
  ∧ 1 ≤ size (mcqState (answer (0, 1) (Sample.fresh [Sample.item 1])))
  ∧ 1 ≤ length (localMcqData (answer (0, 1) (Sample.fresh [Sample.item 1]))).
Proof.
  apply (proj2 (proj2 (score_raises_iff (answer (0, 1) (Sample.fresh [Sample.item 1]))))).
  vm_compute; reflexivity.
Defined.

(** ** Ticks add up *)

Lemma tick_running st : timerRunning (tick st) = timerRunning st.
Proof. unfold tick. by destruct (timerRunning st) eqn:H. Qed.

Lemma tick_stopped n st : timerRunning st = false → Nat.iter n tick st = st.
Proof.
  intros Hs. induction n as [|n IH]; [done|].
  change (Nat.iter (S n) tick st) with (tick (Nat.iter n tick st)).
  rewrite IH. unfold tick. by rewrite Hs.
Qed.

(** While the timer runs, [n] ticks add [n] seconds and change nothing
    else; while it is stopped they change nothing at all. *)
Theorem ticks_add_up n st :
  Nat.iter n tick st
  = if timerRunning st then setSessionTime (sessionTime st + n) st else st.
Proof.
  induction n as [|n IH].
  - cbn. destruct (timerRunning st); [|done]. destruct st; unfold setSessionTime; cbn.
    f_equal. lia.
  - change (Nat.iter (S n) tick st) with (tick (Nat.iter n tick st)).
    rewrite IH. unfold tick at 1.
    destruct (timerRunning st) eqn:Hr; [|by rewrite Hr].
    replace (timerRunning (setSessionTime (sessionTime st + n) st)) with true by done.
    unfold setSessionTime; cbn. f_equal. lia.
Qed.

(** ** The warning before leaving and the saved progress *)

(** The warning is asked for only in states whose progress the save effect
    writes; on a quiz it is asked for in exactly those. *)
Theorem unload_warning_means_saved c ch st ls :
  (warnsBeforeUnload (Some c) st = true →
   persistProgress ch st ls !! storageKey ch = Some (stringify (snapshot st)))
  ∧ (includes (type c) "MCQ" = true → warnsBeforeUnload (Some c) st = false →
     persistProgress ch st ls = ls)
  ∧ warnsBeforeUnload None st = false.
Proof.
  unfold warnsBeforeUnload, persistProgress. split_and!; [| |done].
  - intros ((_ & ->)%andb_true_iff & ->)%andb_true_iff. cbn. apply lookup_insert_eq.
  - intros -> H. cbn in H. by rewrite andb_comm, H.
Qed.

Lemma unload_warning_means_saved_witness :
  persistProgress Sample.chapter (answer (0, 1) (Sample.fresh [Sample.item 1])) ∅
    !! storageKey Sample.chapter
  = Some (stringify (snapshot (answer (0, 1) (Sample.fresh [Sample.item 1])))).
Proof.
  apply (proj1 (unload_warning_means_saved (Sample.quiz [Sample.item 1]) Sample.chapter
                  (answer (0, 1) (Sample.fresh [Sample.item 1])) ∅)).
  vm_compute; reflexivity.
Defined.

(** ** What is stored is the current progress *)

Lemma handle_mcqState_empty m st : mcqState (handle m st) = ∅ → mcqState st = ∅.
Proof.
  destruct m; cbn; [|done..]. intros H. by apply insert_non_empty in H.
Qed.

Lemma click_saved ch m w ls0 :
  showResults w.1 = false →
  (mcqState w.1 = ∅ ∧ w.2 = ls0)
  ∨ (mcqState w.1 ≠ ∅ ∧ w.2 !! storageKey ch = Some (stringify (snapshot w.1))) →
  (mcqState (click ch m w).1 = ∅ ∧ (click ch m w).2 = ls0)
  ∨ (mcqState (click ch m w).1 ≠ ∅
     ∧ (click ch m w).2 !! storageKey ch = Some (stringify (snapshot (click ch m w).1))).
Proof.
  intros Hr Hw. unfold click. destruct (enabled m w.1) eqn:Hen; [|done]. cbn [fst snd].
  destruct (decide (mcqState (handle m w.1) = ∅)) as [He|Hne].
  - left. split; [done|]. rewrite persistProgress_empty by done.
    apply handle_mcqState_empty in He. by destruct Hw as [[_ ?]|[? _]].
  - right. split; [done|]. apply persistProgress_running; [|done].
    by rewrite handle_showResults.
Qed.

Lemma clicks_saved ch ms w ls0 :
  showResults w.1 = false →
  (mcqState w.1 = ∅ ∧ w.2 = ls0)
  ∨ (mcqState w.1 ≠ ∅ ∧ w.2 !! storageKey ch = Some (stringify (snapshot w.1))) →
  (mcqState (clicks ch ms w).1 = ∅ ∧ (clicks ch ms w).2 = ls0)
  ∨ (mcqState (clicks ch ms w).1 ≠ ∅
     ∧ (clicks ch ms w).2 !! storageKey ch
       = Some (stringify (snapshot (clicks ch ms w).1))).
Proof.
  revert w. induction ms as [|m ms IH]; intros w Hw HJ; [done|].
  change (clicks ch (m :: ms) w) with (clicks ch ms (click ch m w)).
  apply IH.
  - destruct (click_fields ch m w) as (_ & -> & _). done.
  - by apply click_saved.
Qed.

(** In a session that shows no results and starts with nothing answered,
    after any run of clicks either nothing is answered yet and the storage
    is as it was, or the storage holds, under the chapter's key, the
    snapshot of the state as it is now. *)
Theorem stored_snapshot_is_current ch ms st ls :
  showResults st = false → mcqState st = ∅ →
  (mcqState (clicks ch ms (st, ls)).1 = ∅ ∧ (clicks ch ms (st, ls)).2 = ls)
  ∨ (mcqState (clicks ch ms (st, ls)).1 ≠ ∅
     ∧ (clicks ch ms (st, ls)).2 !! storageKey ch
       = Some (stringify (snapshot (clicks ch ms (st, ls)).1))).
Proof.
  intros Hr He. apply (clicks_saved ch ms (st, ls) ls); [done|by left].
Qed.

Lemma stored_snapshot_is_current_witness :
  (mcqState (clicks Sample.chapter [NextBatch; Answer 0 1]
               (Sample.fresh [Sample.item 0; Sample.item 1], ∅)).1 = ∅
   ∧ (clicks Sample.chapter [NextBatch; Answer 0 1]
        (Sample.fresh [Sample.item 0; Sample.item 1], ∅)).2 = ∅)
  ∨ (mcqState (clicks Sample.chapter [NextBatch; Answer 0 1]
                 (Sample.fresh [Sample.item 0; Sample.item 1], ∅)).1 ≠ ∅
     ∧ (clicks Sample.chapter [NextBatch; Answer 0 1]
          (Sample.fresh [Sample.item 0; Sample.item 1], ∅)).2 !! storageKey Sample.chapter
       = Some (stringify (snapshot (clicks Sample.chapter [NextBatch; Answer 0 1]
                 (Sample.fresh [Sample.item 0; Sample.item 1], ∅)).1))).
Proof.
  apply stored_snapshot_is_current; reflexivity.
Defined.

(** ** One chapter's progress and another's *)

Lemma storageKey_inj ch ch' : storageKey ch = storageKey ch' → id ch = id ch'.
Proof. unfold storageKey. apply (inj (String.append _)). Qed.

Lemma persistProgress_other ch st ls k :
  k ≠ storageKey ch → persistProgress ch st ls !! k = ls !! k.
Proof.
  intros Hk. unfold persistProgress.
  destruct (_ && _); [|done]. by rewrite lookup_insert_ne.
Qed.

(** Saving, restarting and submitting touch the storage under the key of
    their own chapter only, and chapters with different ids have different
    keys: nothing done in one chapter alters the progress stored for
    another. *)
Theorem storage_of_other_chapters_untouched ch k :
  k ≠ storageKey ch →
  (∀ ms w, (clicks ch ms w).2 !! k = w.2 !! k)
  ∧ (∀ order ls st, (handleRestart ch order ls st).2 !! k = ls !! k)
  ∧ (∀ cb ls st r, handleConfirmSubmit ch cb ls st = Ok r → r.1.2 !! k = ls !! k)
  ∧ (∀ ch', k = storageKey ch' → id ch' ≠ id ch).
Proof.
  intros Hk. split_and!.
  - intros ms. induction ms as [|m ms IH]; intros w; [done|].
    change (clicks ch (m :: ms) w) with (clicks ch ms (click ch m w)).
    rewrite IH. unfold click. destruct (enabled m w.1); [|done].
    by apply persistProgress_other.
  - intros order ls st. cbn. by rewrite lookup_delete_ne.
  - intros cb ls st r. unfold handleConfirmSubmit.
    destruct (score st) as [n|e]; [|done]. cbn. intros [= <-]. cbn.
    by rewrite lookup_delete_ne.
  - intros ch' -> Hid. apply Hk. unfold storageKey. by rewrite Hid.
Qed.

Lemma storage_of_other_chapters_untouched_witness :
  (clicks Sample.chapter [Answer 0 1; NextBatch]
     (Sample.fresh [Sample.item 0; Sample.item 1], {[ "nst_mcq_progress_c2" := "{}" ]})).2
    !! "nst_mcq_progress_c2"
  = Some "{}".
Proof.
  destruct (storage_of_other_chapters_untouched Sample.chapter "nst_mcq_progress_c2")
    as (H & _); [vm_compute; discriminate|].
  rewrite H. reflexivity.
Defined.

(** ** Restart *)

(** Restart empties the answers, goes back to the first batch of the order
    it drew, closes the dialog and the results and removes the stored
    snapshot: the save effect that follows writes nothing, the score is 0,
    and a later mount of the same chapter finds nothing to resume.  The
    elapsed time is kept. *)
Theorem restart_starts_over ch order ls st :
  let r := handleRestart ch order ls st in
  mcqState r.1 = ∅ ∧ batchIndex r.1 = 0 ∧ localMcqData r.1 = order
  ∧ showResumePrompt r.1 = false ∧ showResults r.1 = false
  ∧ sessionTime r.1 = sessionTime st
  ∧ r.2 !! storageKey ch = None
  ∧ persistProgress ch r.1 r.2 = r.2
  ∧ score r.1 = Ok 0
  ∧ indexed r.1 ∧ pageInRange r.1
  ∧ (∀ c order' st', showResumePrompt st' = false →
       showResumePrompt (mcqInit c ch order' r.2 st') = false).
Proof.
  cbv zeta. split_and!; try done.
  all: try (cbn; apply lookup_delete_eq).
  all: try (by left).
  all: try (intros i; cbn; by rewrite dom_empty, elem_of_empty).
  intros c order' st' Hst'. unfold mcqInit.
  destruct (mcqData c); [|done]. destruct (userAnswers c); [done|].
  cbn [snd handleRestart]. by rewrite lookup_delete_eq.
Qed.

(** ** Submitting *)

(** Confirming the submission, in a state whose answers all belong to
    questions, hands the host the count of correct answers together with
    the answers, the questions in session order and the elapsed time (when
    there is a callback), removes the stored snapshot and closes the dialog;
    answers, order, batch and time are left as they are, and no results flag
    is set.  With an answer that belongs to no question it raises. *)
Theorem confirm_submits ch cb ls st :
  (indexed st →
   handleConfirmSubmit ch cb ls st
   = Ok (setShowSubmitModal false st, delete (storageKey ch) ls,
         if cb then Some {| count := correctCount st; answers := mcqState st;
                            usedData := localMcqData st; timeTaken := sessionTime st |}
         else None))
  ∧ (¬ indexed st → handleConfirmSubmit ch cb ls st = Throws TypeError)
  ∧ (∀ r, handleConfirmSubmit ch cb ls st = Ok r →
          r.1.2 !! storageKey ch = None
          ∧ showResults r.1.1 = showResults st
          ∧ timerRunning r.1.1 = negb (showResults st) && negb (showResumePrompt st)).
Proof.
  unfold handleConfirmSubmit. split_and!.
  - intros Hi. by rewrite (score_count st Hi).
  - intros Hn. apply score_beyond in Hn. by rewrite Hn.
  - intros r. destruct (score st); [|done]. cbn. intros [= <-]. cbn.
    split_and!; [apply lookup_delete_eq|done|].
    unfold timerRunning; cbn. by rewrite andb_true_r.
Qed.

Lemma confirm_submits_witness :
  handleConfirmSubmit Sample.chapter true ∅ (answer (0, 1) (Sample.fresh [Sample.item 1]))
  = Ok (setShowSubmitModal false (answer (0, 1) (Sample.fresh [Sample.item 1])),
        delete (storageKey Sample.chapter) ∅,
        Some {| count := correctCount (answer (0, 1) (Sample.fresh [Sample.item 1]));
                answers := mcqState (answer (0, 1) (Sample.fresh [Sample.item 1]));
                usedData := localMcqData (answer (0, 1) (Sample.fresh [Sample.item 1]));
                timeTaken := sessionTime (answer (0, 1) (Sample.fresh [Sample.item 1])) |}).
Proof.
  apply (proj1 (confirm_submits Sample.chapter true ∅
                  (answer (0, 1) (Sample.fresh [Sample.item 1])))).
  apply (bool_decide_unpack
           (set_Forall (λ i, i < 1)
              (dom (mcqState (answer (0, 1) (Sample.fresh [Sample.item 1])))))).
  vm_compute; reflexivity.
Defined.

(** ** Reviewing a past attempt *)

(** While the results are shown a click moves the page at most, and
    nothing is saved. *)
Lemma review_click ch m st b ls :
  showResults st = true →
  ∃ b', click ch m (setBatchIndex b st, ls) = (setBatchIndex b' st, ls).
Proof.
  intros Hr. unfold click. cbn [fst snd].
  destruct (enabled m (setBatchIndex b st)) eqn:Hen; [|by exists b].
  assert (∀ s, showResults s = true → persistProgress ch s ls = ls) as Hsave.
  { intros s Hs. unfold persistProgress. by rewrite Hs. }
  destruct m as [idx oIdx| |].
  - unfold enabled in Hen. cbn in Hen. by rewrite Hr, andb_false_r in Hen.
  - exists (b - 1). by rewrite Hsave.
  - exists (b + 1). by rewrite Hsave.
Qed.

Lemma review_clicks ch ms st b ls :
  showResults st = true →
  ∃ b', clicks ch ms (setBatchIndex b st, ls) = (setBatchIndex b' st, ls).
Proof.
  intros Hr. revert b. induction ms as [|m ms IH]; intros b; [by exists b|].
  change (clicks ch (m :: ms) ?w) with (clicks ch ms (click ch m w)).
  destruct (review_click ch m st b ls Hr) as [b' ->]. apply IH.
Qed.

(** When the host supplies the answers of a past attempt, the session
    shows them as results over the questions in their original order,
    whatever the order drawn and whatever is stored; it opens no resume
    dialog, the timer does not run, no answer can be given, nothing is
    saved and no warning is asked for.  Of the clicks on the option
    buttons, Prev and Next, the only ones that change anything are Prev and
    Next, which move the page and nothing else. *)
Theorem review_is_read_only c ch order ls st data ua :
  mcqData c = Some data → userAnswers c = Some ua →
  let st' := mcqInit c ch order ls st in
  mcqState st' = ua ∧ localMcqData st' = data
  ∧ showResults st' = true ∧ analysisUnlocked st' = true
  ∧ showResumePrompt st' = showResumePrompt st
  ∧ timerRunning st' = false
  ∧ (∀ n, Nat.iter n tick st' = st')
  ∧ (∀ idx oIdx, enabled (Answer idx oIdx) st' = false)
  ∧ (∀ cs, answerAll cs st' = st')
  ∧ (∀ ms ls', ∃ b, clicks ch ms (st', ls') = (setBatchIndex b st', ls'))
  ∧ (∀ ls', persistProgress ch st' ls' = ls')
  ∧ (∀ c', warnsBeforeUnload c' st' = false).
Proof.
  intros Hd Hu. cbv zeta. unfold mcqInit. rewrite Hd, Hu.
  split_and!; try done.
  - intros n. by apply tick_stopped.
  - intros idx oIdx. unfold enabled. cbn. by rewrite andb_false_r.
  - intros cs. induction cs as [|x cs IH]; [done|].
    rewrite <- IH at 2.
    change (answerAll (x :: cs) ?s) with (answerAll cs (answer x s)).
    f_equal. unfold answer, enabled. cbn. by rewrite andb_false_r.
  - intros ms ls'.
    set (st' := setLocalMcqData data
                  (setAnalysisUnlocked true (setShowResults true (setMcqState ua st)))).
    change (st', ls') with (setBatchIndex (batchIndex st') st', ls').
    by apply review_clicks.
  - intros c'. destruct c' as [c'|]; [|done]. unfold warnsBeforeUnload. cbn.
    by rewrite andb_false_r.
Qed.

Lemma review_is_read_only_witness :
  ∃ b, clicks Sample.chapter [Answer 1 2; NextBatch; Answer 0 0; PrevBatch]
         (mcqInit pastAttempt Sample.chapter [Sample.item 1; Sample.item 0] ∅ initialState, ∅)
       = (setBatchIndex b
            (mcqInit pastAttempt Sample.chapter [Sample.item 1; Sample.item 0] ∅ initialState),
          ∅).
Proof.
  pose proof (review_is_read_only pastAttempt Sample.chapter [Sample.item 1; Sample.item 0] ∅
                initialState [Sample.item 0; Sample.item 1] {[ 0 := Some 1%Z ]}
                eq_refl eq_refl) as (_ & _ & _ & _ & _ & _ & _ & _ & _ & H & _).
  apply H.
Defined.

(** ** Resume: defaults and errors *)

Lemma parse_empty_object : parse "{}" = Ok (JObj []).
Proof. vm_compute; reflexivity. Qed.

Lemma parse_throws text e : parse text = Throws e → e = SyntaxError.
Proof.
  unfold parse. destruct (parseValue _ _); [|congruence..].
  case_bool_decide; congruence.
Qed.

(** The text Resume parses: the stored one, or an empty object. *)
Lemma handleResume_cases ch ls st :
  (∃ t, ls !! storageKey ch = Some t ∧ t ≠ ""
        ∧ handleResume ch ls st = handleResume ch {[ storageKey ch := t ]} st)
  ∨ ((ls !! storageKey ch = None ∨ ls !! storageKey ch = Some "")
     ∧ handleResume ch ls st
       = Ok (Restored_state
               (setShowResumePrompt false
                  (setLocalMcqData (localMcqData st) (setBatchIndex 0 (setMcqState ∅ st)))))).
Proof.
  unfold handleResume.
  destruct (ls !! storageKey ch) as [t|] eqn:Ht.
  - destruct (decide (t = "")) as [->|Hne].
    + right. split; [by right|]. rewrite bool_decide_eq_true_2 by done.
      by rewrite parse_empty_object.
    + left. exists t. split_and!; [done..|]. by rewrite lookup_singleton_eq.
  - right. split; [by left|]. by rewrite parse_empty_object.
Qed.

(** Resume with nothing stored (or an empty text) raises nothing: it
    empties the answers, goes to the first batch, keeps the order and closes
    the dialog.  It raises only on a stored text that is not JSON
    ([SyntaxError]) or that is the JSON [null] ([TypeError]).  A state it
    restores has the dialog closed and the results flag, the submit dialog
    and the elapsed time as before. *)
Theorem resume_defaults_and_errors ch ls st :
  (ls !! storageKey ch = None ∨ ls !! storageKey ch = Some "" →
   handleResume ch ls st
   = Ok (Restored_state
           (setShowResumePrompt false
              (setLocalMcqData (localMcqData st) (setBatchIndex 0 (setMcqState ∅ st))))))
  ∧ (∀ e, handleResume ch ls st = Throws e →
          ∃ t, ls !! storageKey ch = Some t ∧ t ≠ ""
               ∧ ((e = SyntaxError ∧ parse t = Throws SyntaxError)
                  ∨ (e = TypeError ∧ parse t = Ok JNull)))
  ∧ (∀ st', handleResume ch ls st = Ok (Restored_state st') →
            showResumePrompt st' = false
            ∧ showResults st' = showResults st
            ∧ showSubmitModal st' = showSubmitModal st
            ∧ sessionTime st' = sessionTime st).
Proof.
  split_and!.
  - intros Hnone.
    destruct (handleResume_cases ch ls st) as [(t & Ht & Hne & _)|[_ H]]; [|done].
    destruct Hnone; congruence.
  - intros e He.
    destruct (handleResume_cases ch ls st) as [(t & Ht & Hne & Heq)|[_ H]]; [|congruence].
    exists t. split_and!; [done..|].
    rewrite Heq in He. unfold handleResume in He. rewrite lookup_singleton_eq in He.
    rewrite bool_decide_eq_false_2 in He by done.
    destruct (parse t) as [v|e'] eqn:Hp.
    + right. destruct v; cbn in He; try (repeat case_match; congruence).
      split; [congruence|done].
    + left. cbn in He. apply parse_throws in Hp as ->. split; congruence.
  - intros st'. unfold handleResume.
    destruct (parse _) as [v|]; [|done]. cbn.
    destruct (getProp v "mcqState") as [a|]; [|done]. cbn.
    destruct (getProp v "batchIndex") as [b|]; [|done]. cbn.
    destruct (getProp v "localMcqData") as [l|]; [|done]. cbn.
    repeat case_match; try done; by intros [= <-].
Qed.

Lemma resume_defaults_and_errors_witness :
  handleResume Sample.chapter ∅ (setShowResumePrompt true (Sample.fresh [Sample.item 0]))
  = Ok (Restored_state
          (setShowResumePrompt false
             (setLocalMcqData [Sample.item 0]
                (setBatchIndex 0
                   (setMcqState ∅ (setShowResumePrompt true (Sample.fresh [Sample.item 0]))))))).
Proof.
  apply (proj1 (resume_defaults_and_errors Sample.chapter ∅
                  (setShowResumePrompt true (Sample.fresh [Sample.item 0])))).
  left; reflexivity.
Defined.

(** * More properties of the resolver and the policy *)

(** ** Pieces of a string *)

Lemma app_nil_r_s s : s +:+ "" = s.
Proof. induction s as [|c s IH]; [done|]. by rewrite app_cons, IH. Qed.

Lemma app_assoc_s s t u : (s +:+ t) +:+ u = s +:+ t +:+ u.
Proof. induction s as [|c s IH]; [done|]. by rewrite !app_cons, IH. Qed.

Lemma take_drop_chars n s : takeChars n s +:+ dropChars n s = s.
Proof.
  revert s. induction n as [|n IH]; intros [|c s]; try done.
  cbn. by rewrite app_cons, IH.
Qed.

Lemma startsWith_app s p : startsWith s p = true → s = p +:+ dropChars (String.length p) s.
Proof.
  revert s. induction p as [|a p IH]; intros [|b s]; cbn; try done.
  intros [->%bool_decide_eq_true H]%andb_true_iff.
  rewrite app_cons. f_equal. by apply IH.
Qed.

Lemma lit_app p s r : lit p s = Some r → s = p +:+ r.
Proof.
  unfold lit. destruct (startsWith s p) eqn:H; [|done].
  intros [= <-]. by apply startsWith_app.
Qed.

Lemma exactly_spec n p s t :
  exactly n p s = Some t →
  String.length t = n ∧ allChars p t = true ∧ ∃ post, s = t +:+ post.
Proof.
  unfold exactly.
  destruct (bool_decide_reflect (String.length (takeChars n s) = n)) as [Hl|]; [|done].
  destruct (allChars p (takeChars n s)) eqn:Ha; [|done].
  intros [= <-]. split_and!; [done..|].
  exists (dropChars n s). by rewrite take_drop_chars.
Qed.

Lemma takeChars_span p n s :
  n ≤ String.length (span p s).1 → allChars p (takeChars n s) = true.
Proof.
  revert s. induction n as [|n IH]; intros [|c s]; try done.
  cbn. destruct (p c) eqn:Hc; [|cbn; lia].
  specialize (IH s). destruct (span p s) as [run rest]. cbn in *.
  intros Hn. rewrite IH by lia. done.
Qed.

Lemma takeChars_length n s : n ≤ String.length s → String.length (takeChars n s) = n.
Proof.
  revert s. induction n as [|n IH]; intros [|c s]; cbn; try done; try lia.
  intros Hn. rewrite IH; lia.
Qed.

(** ** The YouTube identifier *)

Lemma giveBack_spec k s v :
  giveBack k s = Some v → ∃ j, 1 ≤ j ≤ k ∧ videoId (dropChars j s) = Some v.
Proof.
  induction k as [|k IH]; [done|]. cbn [giveBack].
  destruct (videoId (dropChars (S k) s)) as [w|] eqn:Hw.
  - intros [= <-]. exists (S k). split; [lia|done].
  - intros (j & Hj & Hv)%IH. exists j. split; [lia|done].
Qed.

Lemma ytAt_spec s v :
  ytAt s = Some v →
  String.length v = 11 ∧ allChars isIdChar v = true ∧ ytPlace s v.
Proof.
  unfold ytAt, orElse.
  assert (∀ shape r, shape ∈ ytShapes → s = shape +:+ r → videoId r = Some v →
            String.length v = 11 ∧ allChars isIdChar v = true ∧ ytPlace s v) as Hshape.
  { intros shape r Hin -> (Hl & Ha & post & ->)%exactly_spec.
    split_and!; [done..|]. left. by exists shape, post. }
  destruct (lit "youtu.be/" s) as [r|] eqn:H1; cbn.
  { apply lit_app in H1.
    destruct (videoId r) as [w|] eqn:Hw.
    - intros [= <-]. apply (Hshape "youtu.be/" r); [|done..]. unfold ytShapes; solve [repeat constructor].
    - destruct (lit "youtube.com" s) as [r'|] eqn:H2; [|done].
      apply lit_app in H2. rewrite H1 in H2. done. }
  destruct (lit "youtube.com" s) as [r|] eqn:H2; [|done]. cbn.
  apply lit_app in H2.
  destruct (lit "/embed/" r) as [r1|] eqn:E1; cbn.
  { apply lit_app in E1. destruct (videoId r1) as [w|] eqn:Hw.
    - intros [= <-]. apply (Hshape "youtube.com/embed/" r1); [unfold ytShapes; solve [repeat constructor]| |done].
      by rewrite H2, E1.
    - rewrite E1. by vm_compute. }
  destruct (lit "/v/" r) as [r1|] eqn:E2; cbn.
  { apply lit_app in E2. destruct (videoId r1) as [w|] eqn:Hw.
    - intros [= <-]. apply (Hshape "youtube.com/v/" r1); [unfold ytShapes; solve [repeat constructor]| |done].
      by rewrite H2, E2.
    - rewrite E2. by vm_compute. }
  destruct (lit "/watch?v=" r) as [r1|] eqn:E3; cbn.
  { apply lit_app in E3. destruct (videoId r1) as [w|] eqn:Hw.
    - intros [= <-]. apply (Hshape "youtube.com/watch?v=" r1); [unfold ytShapes; solve [repeat constructor]| |done].
      by rewrite H2, E3.
    - rewrite E3. by vm_compute. }
  destruct (lit "/user/" r) as [r1|] eqn:E4; cbn.
  { apply lit_app in E4. destruct (userPath r1) as [w|] eqn:Hw.
    - intros [= <-]. unfold userPath in Hw.
      apply giveBack_spec in Hw as (j & Hj & (Hl & Ha & post & Hpost)%exactly_spec).
      split_and!; [done..|]. right.
      exists (takeChars j r1), post. split_and!.
      + pose proof (span_length isNonSpace r1).
        assert (String.length (takeChars j r1) = j) as Hlen by (apply takeChars_length; lia).
        intros Hnil. rewrite Hnil in Hlen. cbn in Hlen. lia.
      + apply takeChars_span. lia.
      + rewrite H2, E4. rewrite <- Hpost. by rewrite take_drop_chars.
    - rewrite E4. by vm_compute. }
  destruct (lit "/ytscreeningroom?v=" r) as [r1|] eqn:E5; cbn; [|done].
  apply lit_app in E5. intros Hv.
  apply (Hshape "youtube.com/ytscreeningroom?v=" r1); [unfold ytShapes; solve [repeat constructor]| |done].
  by rewrite H2, E5.
Qed.

Lemma ytMatch_spec url v :
  ytMatch url = Some v →
  String.length v = 11 ∧ allChars isIdChar v = true
  ∧ ∃ pre s, url = pre +:+ s ∧ ytPlace s v.
Proof.
  induction url as [|c url IH]; cbn [ytMatch].
  - destruct (ytAt "") as [w|] eqn:Hw; [|done]. by vm_compute in Hw.
  - destruct (ytAt (String c url)) as [w|] eqn:Hw.
    + intros [= <-]. apply ytAt_spec in Hw as (? & ? & ?).
      split_and!; [done..|]. by exists "", (String c url).
    + intros (? & ? & pre & s & -> & ?)%IH. split_and!; [done..|].
      by exists (String c pre), s.
Qed.

Lemma includes_here s p : startsWith s p = true → includes s p = true.
Proof. destruct s; cbn; by intros ->. Qed.

Lemma startsWith_prefix p post : startsWith (p +:+ post) p = true.
Proof.
  induction p as [|a p IH]; [by destruct post|].
  rewrite app_cons. cbn. by rewrite bool_decide_eq_true_2, IH.
Qed.

Lemma includes_further pre s p : includes s p = true → includes (pre +:+ s) p = true.
Proof.
  intros Hs. induction pre as [|c pre IH]; [done|].
  rewrite app_cons. cbn [includes]. rewrite IH. apply orb_true_r.
Qed.

Lemma ytPlace_domain s v :
  ytPlace s v → includes s "youtube.com" || includes s "youtu.be" = true.
Proof.
  intros [(shape & post & Hin & ->)|(mid & post & _ & _ & ->)].
  - unfold ytShapes in Hin.
    repeat (apply elem_of_cons in Hin as [->|Hin]);
      [..|by apply elem_of_nil in Hin];
      apply orb_true_iff; first
        [ right; apply includes_here; by vm_compute
        | left; apply includes_here; by vm_compute ].
  - apply orb_true_iff. left. apply includes_here. by vm_compute.
Qed.

(** The identifier taken from a YouTube address is eleven word characters
    or hyphens that stand in the address right after one of the known
    shapes, or after [youtube.com/user/] and some text without white space.
    Unless the address is a Drive address, the video is then embedded as
    [https://www.youtube.com/embed/<id>] with autoplay and the player
    options, and no download is offered. *)
Theorem youtube_identifier can url v :
  ytMatch url = Some v →
  String.length v = 11 ∧ allChars isIdChar v = true
  ∧ (∃ pre s, url = pre +:+ s ∧ ytPlace s v)
  ∧ (includes url "drive.google.com" = false →
     parseVideoUrl can url
     = {| embedUrl := "https://www.youtube.com/embed/" +:+ v +:+ "?autoplay=1";
          downloadUrl := None; isDriveVideo := false; isYouTubeVideo := true |}
     ∧ secureSrc (parseVideoUrl can url)
       = "https://www.youtube.com/embed/" +:+ v
         +:+ "?autoplay=1&modestbranding=1&rel=0&iv_load_policy=3&controls=1&disablekb=1&showinfo=0&fs=0").
Proof.
  intros Hv. destruct (ytMatch_spec url v Hv) as (Hl & Ha & pre & s & -> & Hp).
  split_and!; [done..|by exists pre, s|].
  intros Hd.
  assert (includes (pre +:+ s) "youtube.com" || includes (pre +:+ s) "youtu.be" = true) as Hy.
  { apply ytPlace_domain in Hp. apply orb_true_iff in Hp as [Hp|Hp]; apply orb_true_iff.
    - left. by apply includes_further.
    - right. by apply includes_further. }
  assert (parseVideoUrl can (pre +:+ s)
          = {| embedUrl := "https://www.youtube.com/embed/" +:+ v +:+ "?autoplay=1";
               downloadUrl := None; isDriveVideo := false; isYouTubeVideo := true |}) as Hr.
  { unfold parseVideoUrl. by rewrite Hd, Hy, Hv. }
  split; [done|]. rewrite Hr. unfold secureSrc. cbn.
  by rewrite !app_assoc_s.
Qed.

Lemma youtube_identifier_witness :
  String.length "dQw4w9WgXcQ" = 11 ∧ allChars isIdChar "dQw4w9WgXcQ" = true
  ∧ (∃ pre s, "https://www.youtube.com/watch?v=dQw4w9WgXcQ&t=42" = pre +:+ s
              ∧ ytPlace s "dQw4w9WgXcQ")
  ∧ (includes "https://www.youtube.com/watch?v=dQw4w9WgXcQ&t=42" "drive.google.com" = false →
     parseVideoUrl true "https://www.youtube.com/watch?v=dQw4w9WgXcQ&t=42"
     = {| embedUrl := "https://www.youtube.com/embed/" +:+ "dQw4w9WgXcQ" +:+ "?autoplay=1";
          downloadUrl := None; isDriveVideo := false; isYouTubeVideo := true |}
     ∧ secureSrc (parseVideoUrl true "https://www.youtube.com/watch?v=dQw4w9WgXcQ&t=42")
       = "https://www.youtube.com/embed/" +:+ "dQw4w9WgXcQ"
         +:+ "?autoplay=1&modestbranding=1&rel=0&iv_load_policy=3&controls=1&disablekb=1&showinfo=0&fs=0").
Proof.
  apply (youtube_identifier true "https://www.youtube.com/watch?v=dQw4w9WgXcQ&t=42").
  vm_compute; reflexivity.
Defined.

(** ** Providers *)

(** A Drive address is treated as Drive even when it also names YouTube;
    the two provider flags are never set together; an address from which no
    identifier is taken is embedded as it is; and an address of neither
    provider comes out untouched, with no download link. *)
Theorem resolver_provider_priority can url :
  isDriveVideo (parseVideoUrl can url) = includes url "drive.google.com"
  ∧ isYouTubeVideo (parseVideoUrl can url)
    = negb (includes url "drive.google.com")
      && (includes url "youtube.com" || includes url "youtu.be")
  ∧ isDriveVideo (parseVideoUrl can url) && isYouTubeVideo (parseVideoUrl can url) = false
  ∧ (embedUrl (parseVideoUrl can url) ≠ url →
     (isDriveVideo (parseVideoUrl can url) = true ∧ is_Some (idMatch url))
     ∨ (isYouTubeVideo (parseVideoUrl can url) = true ∧ is_Some (ytMatch url)))
  ∧ (isDriveVideo (parseVideoUrl can url) = false →
     isYouTubeVideo (parseVideoUrl can url) = false →
     parseVideoUrl can url
     = {| embedUrl := url; downloadUrl := None;
          isDriveVideo := false; isYouTubeVideo := false |}
     ∧ secureSrc (parseVideoUrl can url) = url).
Proof.
  unfold parseVideoUrl.
  destruct (includes url "drive.google.com").
  - destruct (idMatch url) as [t|]; cbn; split_and!; try done.
    intros _. left. eauto.
  - destruct (includes url "youtube.com" || includes url "youtu.be"); cbn.
    + split_and!; try done. destruct (ytMatch url); [|done]. intros _. right. eauto.
    + split_and!; done.
Qed.

Lemma resolver_provider_priority_witness :
  parseVideoUrl true "https://cdn.example.org/a.mp4"
  = {| embedUrl := "https://cdn.example.org/a.mp4"; downloadUrl := None;
       isDriveVideo := false; isYouTubeVideo := false |}
  ∧ secureSrc (parseVideoUrl true "https://cdn.example.org/a.mp4")
    = "https://cdn.example.org/a.mp4".
Proof.
  apply (proj2 (proj2 (proj2 (proj2
           (resolver_provider_priority true "https://cdn.example.org/a.mp4")))));
    vm_compute; reflexivity.
Defined.

(** ** One Drive download link *)

(** The three places that build a Drive download link build the same one:
    for an entitled learner the video renderer and the PDF viewer give what
    [getDriveDownloadLink] gives, and so nothing when the address has no
    identifier. *)
Theorem drive_download_links_agree user c url :
  (includes url "drive.google.com" = true →
   downloadUrl (parseVideoUrl true url) = getDriveDownloadLink url
   ∧ downloadUrl (parseVideoUrl false url) = None)
  ∧ (includes (content c) "drive.google.com" = true →
     checkDownloadPermission user PDF false = true →
     pdfDownloadLink (pdfViewer user c) = getDriveDownloadLink (content c))
  ∧ (includes (content c) "drive.google.com" = false →
     checkDownloadPermission user PDF false = true →
     pdfDownloadLink (pdfViewer user c) = Some (content c)).
Proof.
  unfold parseVideoUrl, pdfViewer, getDriveDownloadLink. split_and!.
  - intros ->. by destruct (idMatch url).
  - intros -> ->. cbn. by destruct (idMatch (content c)).
  - intros -> ->. done.
Qed.

Lemma drive_download_links_agree_witness :
  downloadUrl (parseVideoUrl true Sample.driveUrl) = getDriveDownloadLink Sample.driveUrl
  ∧ downloadUrl (parseVideoUrl false Sample.driveUrl) = None.
Proof.
  apply (proj1 (drive_download_links_agree None (Sample.lesson "PDF_FREE" "t" "u")
                  Sample.driveUrl)).
  vm_compute; reflexivity.
Defined.

(** ** The playlist and the video renderer *)






(** ** What the component returns *)



(** ** The policy is monotone *)

(** Whoever may download a premium video may download everything; whoever
    may download anything may download every document and every standard
    video. *)
Theorem entitlement_monotone user kind premium :
  (checkDownloadPermission user VIDEO true = true →
   checkDownloadPermission user kind premium = true)
  ∧ (checkDownloadPermission user kind premium = true →
     checkDownloadPermission user kind false = true
     ∧ ∀ premium', checkDownloadPermission user PDF premium' = true).
Proof.
  rewrite !checkDownloadPermission_table. unfold evaluate.
  assert (∀ b, checkDownloadPermission user PDF b
               = decisionTable (planOf user ≫= lookupAlias codeAliases) PDF b) as Hpdf.
  { intros b. apply checkDownloadPermission_table. }
  destruct (planOf user ≫= lookupAlias codeAliases) as [[]|]; cbn; split; try done.
  all: intros Hk; split; [by destruct kind|]; intros b; by rewrite Hpdf.
Qed.

Lemma entitlement_monotone_witness :
  checkDownloadPermission (Sample.learner "yearly") PDF false = true.
Proof.
  apply (proj1 (entitlement_monotone (Sample.learner "yearly") PDF false)).
  reflexivity.
Defined.

(** * The stored text reads back *)

(** ** Numbers *)

Lemma decimal_digits acc d :
  decimal acc (NilEmpty.string_of_uint d) = digitsValue acc d.
Proof.
  revert acc. induction d; intros acc; cbn [NilEmpty.string_of_uint decimal digitsValue];
    rewrite ?IHd; try done; f_equal; unfold code; cbn; lia.
Qed.

Lemma digitsValue_pos d acc :
  digitsValue (N.pos acc) d = N.pos (Pos.of_uint_acc d acc).
Proof.
  revert acc. induction d; intros acc; cbn [digitsValue Pos.of_uint_acc]; try done;
    rewrite <- IHd; f_equal; lia.
Qed.

Lemma digitsValue_of_uint d : digitsValue 0 d = Pos.of_uint d.
Proof.
  induction d; cbn [digitsValue Pos.of_uint]; try done;
    rewrite <- digitsValue_pos; f_equal.
Qed.

Lemma digitsValue_nat d acc :
  N.to_nat (digitsValue (N.of_nat acc) d) = Nat.of_uint_acc d acc.
Proof.
  revert acc. induction d; intros acc; cbn [digitsValue Nat.of_uint_acc];
    [by rewrite Nat2N.id|..];
    rewrite <- IHd, Nat.tail_mul_spec; do 2 f_equal; lia.
Qed.

Lemma digits_allChars d : allChars isDigit (NilEmpty.string_of_uint d) = true.
Proof. induction d; cbn; try done. Qed.

(** A decimal without leading zero is [0] or starts with another digit. *)
Lemma unorm_head d :
  Decimal.unorm d = Decimal.D0 Decimal.Nil
  ∨ ∃ c t, NilEmpty.string_of_uint (Decimal.unorm d) = String c t
           ∧ isDigit c = true ∧ c ≠ "0"%char.
Proof.
  unfold Decimal.unorm.
  induction d; cbn [Decimal.nzhead]; try (by left); try done;
    right; eexists _, _; (split; [reflexivity|done]).
Qed.

Lemma pos_digits p :
  ∃ c t, NilEmpty.string_of_uint (Pos.to_uint p) = String c t
         ∧ isDigit c = true ∧ c ≠ "0"%char.
Proof.
  pose proof (DecimalPos.Unsigned.to_of (Pos.to_uint p)) as Hn.
  rewrite DecimalPos.Unsigned.of_to in Hn. cbn [N.to_uint] in Hn.
  destruct (unorm_head (Pos.to_uint p)) as [H0|H]; [|by rewrite <- Hn in H].
  rewrite <- Hn in H0. pose proof (DecimalPos.Unsigned.of_to p) as Hp.
  rewrite H0 in Hp. done.
Qed.

Lemma nat_digits n :
  Nat.to_uint n = Decimal.D0 Decimal.Nil
  ∨ ∃ c t, NilEmpty.string_of_uint (Nat.to_uint n) = String c t
           ∧ isDigit c = true ∧ c ≠ "0"%char.
Proof.
  pose proof (DecimalNat.Unsigned.to_of (Nat.to_uint n)) as Hn.
  rewrite DecimalNat.Unsigned.of_to in Hn.
  destruct (unorm_head (Nat.to_uint n)) as [H0|H]; rewrite <- Hn in *; eauto.
Qed.

Lemma showNat_digits n : showNat n = NilEmpty.string_of_uint (Nat.to_uint n).
Proof.
  unfold showNat, NilZero.string_of_uint.
  destruct (Nat.to_uint n) eqn:Hn; try done.
  pose proof (DecimalNat.Unsigned.to_of (Nat.to_uint n)) as Hu.
  rewrite DecimalNat.Unsigned.of_to, Hn in Hu. discriminate.
Qed.

(** The key of an answer reads back as its index. *)
Lemma natKey_showNat n : natKey (showNat n) = Some n.
Proof.
  unfold natKey.
  assert (N.to_nat (decimal 0 (showNat n)) = n) as ->.
  { rewrite showNat_digits, decimal_digits.
    change 0%N with (N.of_nat 0). rewrite digitsValue_nat.
    apply DecimalNat.Unsigned.of_to. }
  rewrite showNat_digits at 1. rewrite digits_allChars.
  by rewrite bool_decide_eq_true_2.
Qed.
Lemma span_run p t rest :
  allChars p t = true →
  match rest with EmptyString => True | String c _ => p c = false end →
  span p (t +:+ rest) = (t, rest).
Proof.
  intros Ht Hrest. induction t as [|a t IH].
  - change ("" +:+ rest) with rest. destruct rest as [|c r]; [done|]. cbn. by rewrite Hrest.
  - rewrite app_cons. cbn in Ht |- *. apply andb_true_iff in Ht as [-> Ht].
    by rewrite (IH Ht).
Qed.

Lemma lit_head_ne a p c t : a ≠ c → lit (String a p) (String c t) = None.
Proof. intros Hne. unfold lit. cbn. by rewrite bool_decide_eq_false_2. Qed.

Lemma lit_end a p : lit (String a p) "" = None.
Proof. done. Qed.

Lemma lit_prefix p rest : lit p (p +:+ rest) = Some rest.
Proof.
  unfold lit. rewrite startsWith_prefix. f_equal.
  induction p as [|a p IH]; [done|]. by rewrite app_cons.
Qed.

Lemma numberEnds_parts rest :
  numberEnds rest →
  match rest with EmptyString => True | String c _ => isDigit c = false end
  ∧ fracPart rest = Some (false, rest)
  ∧ expPart rest = Some (false, rest).
Proof.
  destruct rest as [|c r]; [done|]. intros (Hd & Hp & He & HE).
  split_and!; [done|..].
  - unfold fracPart. by rewrite lit_head_ne.
  - unfold expPart, orElse. by rewrite !lit_head_ne.
Qed.

Lemma unsigned_number c t rest :
  isDigit c = true → allChars isDigit t = true → (c = "0"%char → t = "") →
  numberEnds rest →
  intPart (String c t +:+ rest) = Some (String c t, rest).
Proof.
  intros Hc Ht H0 Hrest. rewrite app_cons. unfold intPart.
  destruct (numberEnds_parts rest Hrest) as (Hd & _).
  case_bool_decide as Hz.
  - rewrite (H0 Hz). done.
  - rewrite Hc. rewrite <- app_cons. rewrite span_run; [done| |done].
    cbn. by rewrite Hc, Ht.
Qed.

Lemma string_of_uint_pos p :
  NilZero.string_of_uint (Pos.to_uint p) = NilEmpty.string_of_uint (Pos.to_uint p).
Proof.
  unfold NilZero.string_of_uint.
  pose proof (DecimalPos.Unsigned.to_uint_nonnil p).
  by destruct (Pos.to_uint p).
Qed.

Lemma showZ_cases n :
  (n = 0%Z ∧ showZ n = "0")
  ∨ (∃ p c t, (n = Z.pos p ∧ showZ n = String c t
               ∨ n = Z.neg p ∧ showZ n = String "-" (String c t))
              ∧ NilEmpty.string_of_uint (Pos.to_uint p) = String c t
              ∧ isDigit c = true ∧ c ≠ "0"%char).
Proof.
  destruct n as [|p|p]; [by left|right..].
  - destruct (pos_digits p) as (c & t & Hs & Hc & H0).
    exists p, c, t. split; [|done]. left. split; [done|].
    unfold showZ, Z.to_int, NilZero.string_of_int. by rewrite string_of_uint_pos.
  - destruct (pos_digits p) as (c & t & Hs & Hc & H0).
    exists p, c, t. split; [|done]. right. split; [done|].
    unfold showZ, Z.to_int, NilZero.string_of_int. by rewrite string_of_uint_pos, Hs.
Qed.

Lemma number_unsigned c t rest :
  isDigit c = true → allChars isDigit t = true → (c = "0"%char → t = "") →
  numberEnds rest →
  number (String c t +:+ rest) = Done (JNum (Z.of_N (decimal 0 (String c t)))) rest.
Proof.
  intros Hc Ht H0 Hrest. destruct (numberEnds_parts rest Hrest) as (_ & Hf & He).
  unfold number.
  assert (lit "-" (String c t +:+ rest) = None) as ->.
  { rewrite app_cons. apply lit_head_ne. by intros <-. }
  cbv beta iota zeta. rewrite unsigned_number by done.
  by rewrite Hf, He.
Qed.

Lemma number_negative c t rest :
  isDigit c = true → allChars isDigit t = true → (c = "0"%char → t = "") →
  numberEnds rest →
  number (String "-" (String c t) +:+ rest)
  = Done (JNum (- Z.of_N (decimal 0 (String c t)))) rest.
Proof.
  intros Hc Ht H0 Hrest. destruct (numberEnds_parts rest Hrest) as (_ & Hf & He).
  unfold number.
  assert (lit "-" (String "-" (String c t) +:+ rest) = Some (String c t +:+ rest)) as ->.
  { by rewrite app_cons. }
  cbv beta iota zeta. rewrite unsigned_number by done.
  by rewrite Hf, He.
Qed.

Lemma number_showZ n rest :
  numberEnds rest → number (showZ n +:+ rest) = Done (JNum n) rest.
Proof.
  intros Hrest.
  destruct (showZ_cases n) as [[-> ->]|(p & c & t & Hn & Hs & Hc & H0)].
  - by rewrite number_unsigned.
  - assert (allChars isDigit t = true) as Ht.
    { pose proof (digits_allChars (Pos.to_uint p)) as Ha. rewrite Hs in Ha.
      cbn in Ha. by apply andb_true_iff in Ha as [_ ?]. }
    assert (decimal 0 (String c t) = N.pos p) as Hv.
    { rewrite <- Hs, decimal_digits, digitsValue_of_uint.
      apply DecimalPos.Unsigned.of_to. }
    destruct Hn as [[-> ->]|[-> ->]].
    + rewrite number_unsigned by done. by rewrite Hv.
    + rewrite number_negative by done. by rewrite Hv.
Qed.

(** ** Strings *)

Lemma stringBody_escapeChar c t :
  stringBody Plain (escapeChar c +:+ t) = prepend (String c "") (stringBody Plain t).
Proof.
  destruct c as [[] [] [] [] [] [] [] []];
    match goal with
    | |- context [escapeChar ?c] =>
        let s := eval vm_compute in (escapeChar c) in change (escapeChar c) with s
    end;
    rewrite !app_cons; change ("" +:+ t) with t; cbn [stringBody];
    generalize (stringBody Plain t); intros X; vm_compute; reflexivity.
Qed.

Lemma stringBody_escape s rest :
  stringBody Plain (escape s +:+ dquotes +:+ rest) = Done s rest.
Proof.
  induction s as [|c s IH]; [done|].
  cbn [escape]. rewrite app_assoc_s, stringBody_escapeChar, IH. done.
Qed.

Lemma quote_reads s rest :
  ∃ t, quote s +:+ rest = String dquote t ∧ stringBody Plain t = Done s rest.
Proof.
  exists (escape s +:+ dquotes +:+ rest). split; [|apply stringBody_escape].
  unfold quote. by rewrite !app_assoc_s.
Qed.

(** ** Values *)

Lemma app_nil_l_s s : "" +:+ s = s.
Proof. done. Qed.

Lemma skipWs_head c t : isWs c = false → skipWs (String c t) = String c t.
Proof. intros Hc. unfold skipWs. cbn. by rewrite Hc. Qed.

Lemma lit_char c s : lit (String c "") (String c s) = Some s.
Proof. exact (lit_prefix (String c "") s). Qed.

Lemma parseValue_unfold fuel s :
  parseValue (S fuel) s
  = let s := skipWs s in
    match lit "null" s, lit "true" s, lit "false" s, lit dquotes s, lit "[" s, lit "{" s with
    | Some r, _, _, _, _, _ => Done JNull r
    | _, Some r, _, _, _, _ => Done (JBool true) r
    | _, _, Some r, _, _, _ => Done (JBool false) r
    | _, _, _, Some r, _, _ => andThen (stringBody Plain r) (λ t rest, Done (JStr t) rest)
    | _, _, _, _, Some r, _ =>
        match lit "]" (skipWs r) with
        | Some rest => Done (JArr []) rest
        | None => andThen (parseElements fuel r) (λ l rest, Done (JArr l) rest)
        end
    | _, _, _, _, _, Some r =>
        match lit "}" (skipWs r) with
        | Some rest => Done (JObj []) rest
        | None => andThen (parseMembers fuel r) (λ l rest, Done (JObj l) rest)
        end
    | _, _, _, _, _, _ => number s
    end.
Proof. done. Qed.

Lemma parseElements_unfold fuel s :
  parseElements (S fuel) s
  = andThen (parseValue fuel s) (λ v rest,
      let rest := skipWs rest in
      match lit "]" rest, lit "," rest with
      | Some rest', _ => Done [v] rest'
      | _, Some rest' => andThen (parseElements fuel rest') (λ l rest'', Done (v :: l) rest'')
      | _, _ => Bad
      end).
Proof. done. Qed.

Lemma parseMembers_unfold fuel s :
  parseMembers (S fuel) s
  = match lit dquotes (skipWs s) with
    | None => Bad
    | Some r =>
        andThen (stringBody Plain r) (λ k rest,
          match lit ":" (skipWs rest) with
          | None => Bad
          | Some rest =>
              andThen (parseValue fuel rest) (λ v rest,
                let rest := skipWs rest in
                match lit "}" rest, lit "," rest with
                | Some rest', _ => Done [(k, v)] rest'
                | _, Some rest' =>
                    andThen (parseMembers fuel rest') (λ l rest'', Done ((k, v) :: l) rest'')
                | _, _ => Bad
                end)
          end)
    end.
Proof. done. Qed.

(** How a value is read, by the first character of the text. *)
Lemma parseValue_number fuel c t :
  isDigit c = true ∨ c = "-"%char →
  parseValue (S fuel) (String c t) = number (String c t).
Proof.
  intros Hc. rewrite parseValue_unfold. cbv zeta.
  assert (isWs c = false) as Hw by (destruct Hc as [Hc| ->]; [|done];
    by destruct c as [[] [] [] [] [] [] [] []]).
  rewrite skipWs_head by done. unfold dquotes.
  rewrite !lit_head_ne; [done|..]; intros <-; by destruct Hc.
Qed.

Lemma parseValue_string fuel t :
  parseValue (S fuel) (String dquote t)
  = andThen (stringBody Plain t) (λ s rest, Done (JStr s) rest).
Proof.
  rewrite parseValue_unfold. cbv zeta. rewrite skipWs_head by done.
  unfold dquotes, dquote. rewrite !(lit_head_ne _ _ "034") by done.
  by rewrite lit_char.
Qed.

Lemma parseValue_array fuel c t :
  valueHead c →
  parseValue (S fuel) (String "[" (String c t))
  = andThen (parseElements fuel (String c t)) (λ l rest, Done (JArr l) rest).
Proof.
  intros (Hw & Hb & _). rewrite parseValue_unfold. cbv zeta.
  rewrite (skipWs_head "[") by done. unfold dquotes.
  rewrite !(lit_head_ne _ _ "[") by done. rewrite lit_char.
  rewrite skipWs_head by done. by rewrite lit_head_ne.
Qed.

Lemma parseValue_object fuel c t :
  valueHead c →
  parseValue (S fuel) (String "{" (String c t))
  = andThen (parseMembers fuel (String c t)) (λ l rest, Done (JObj l) rest).
Proof.
  intros (Hw & _ & Hb & _). rewrite parseValue_unfold. cbv zeta.
  rewrite (skipWs_head "{") by done. unfold dquotes.
  rewrite !(lit_head_ne _ _ "{") by done. rewrite lit_char.
  rewrite skipWs_head by done. by rewrite lit_head_ne.
Qed.

(** What is printed starts with a character that opens a value. *)
Lemma showZ_head n : ∃ c t, showZ n = String c t ∧ (isDigit c = true ∨ c = "-"%char).
Proof.
  destruct (showZ_cases n) as [[_ ->]|(p & c & t & [[_ ->]|[_ ->]] & _ & Hc & _)]; eauto.
Qed.

Lemma stringify_head v :
  plain v = true → ∃ c t, stringify v = String c t ∧ valueHead c.
Proof.
  destruct v as [|[]|n|lexeme|s|l|ms]; intros Hv; try done;
    try (eexists _, _; split; [reflexivity|done]).
  destruct (showZ_head n) as (c & t & Hs & Hc). exists c, t. split; [done|].
  destruct Hc as [Hc| ->]; [|done].
  by destruct c as [[] [] [] [] [] [] [] []].
Qed.

Lemma printMember_head kv : ∃ t, printMember kv = String dquote t.
Proof. by eexists. Qed.

Lemma skipWs_app c p s : isWs c = false → skipWs (String c p +:+ s) = String c p +:+ s.
Proof. intros Hc. rewrite app_cons. by apply skipWs_head. Qed.

Lemma lit_app_ne a p c q s : a ≠ c → lit (String a p) (String c q +:+ s) = None.
Proof. intros Hne. rewrite app_cons. by apply lit_head_ne. Qed.

Lemma parseValue_null fuel rest : parseValue (S fuel) ("null" +:+ rest) = Done JNull rest.
Proof.
  rewrite parseValue_unfold. cbv zeta. rewrite skipWs_app by done.
  by rewrite lit_prefix.
Qed.

Lemma parseValue_true fuel rest :
  parseValue (S fuel) ("true" +:+ rest) = Done (JBool true) rest.
Proof.
  rewrite parseValue_unfold. cbv zeta. rewrite skipWs_app by done.
  rewrite (lit_app_ne "n") by done. by rewrite lit_prefix.
Qed.

Lemma parseValue_false fuel rest :
  parseValue (S fuel) ("false" +:+ rest) = Done (JBool false) rest.
Proof.
  rewrite parseValue_unfold. cbv zeta. rewrite skipWs_app by done.
  rewrite (lit_app_ne "n"), (lit_app_ne "t") by done. by rewrite lit_prefix.
Qed.

Lemma parseValue_empty_array fuel rest :
  parseValue (S fuel) (String "[" (String "]" rest)) = Done (JArr []) rest.
Proof.
  rewrite parseValue_unfold. cbv zeta. rewrite (skipWs_head "[") by done.
  unfold dquotes. rewrite !(lit_head_ne _ _ "[") by done. rewrite lit_char.
  rewrite skipWs_head by done. by rewrite lit_char.
Qed.

Lemma parseValue_empty_object fuel rest :
  parseValue (S fuel) (String "{" (String "}" rest)) = Done (JObj []) rest.
Proof.
  rewrite parseValue_unfold. cbv zeta. rewrite (skipWs_head "{") by done.
  unfold dquotes. rewrite !(lit_head_ne _ _ "{") by done. rewrite lit_char.
  rewrite skipWs_head by done. by rewrite lit_char.
Qed.

Lemma elements_head l rest :
  forallb plain l = true → l ≠ [] →
  ∃ c t, commas (stringify <$> l) +:+ rest = String c t ∧ valueHead c.
Proof.
  destruct l as [|x l]; [done|]. intros [Hx _]%andb_prop _.
  destruct (stringify_head x Hx) as (c & t & Hs & Hc).
  destruct l as [|y l]; cbn [fmap list_fmap commas]; rewrite Hs, app_cons; eauto.
Qed.

Lemma members_head (ms : list (string * json)) rest :
  ms ≠ [] → ∃ t, commas (printMember <$> ms) +:+ rest = String dquote t.
Proof.
  destruct ms as [|kv ms]; [done|]. intros _.
  destruct ms as [|kv' ms]; cbn [fmap list_fmap commas]; by eexists.
Qed.

Lemma numberEnds_close c rest :
  c = "]"%char ∨ c = "}"%char ∨ c = ","%char → numberEnds (String c "" +:+ rest).
Proof. by intros [->|[->| ->]]. Qed.

(** What is printed is read back as it was, with what follows it left
    over, unless the fuel runs out. *)
Lemma print_read fuel :
  (∀ v rest, plain v = true → numberEnds rest →
     parseValue fuel (stringify v +:+ rest) = Done v rest
     ∨ parseValue fuel (stringify v +:+ rest) = NoFuel)
  ∧ (∀ l rest, forallb plain l = true → l ≠ [] → numberEnds rest →
       parseElements fuel (commas (stringify <$> l) +:+ "]" +:+ rest) = Done l rest
       ∨ parseElements fuel (commas (stringify <$> l) +:+ "]" +:+ rest) = NoFuel)
  ∧ (∀ ms rest, forallb (λ kv, plain kv.2) ms = true → ms ≠ [] → numberEnds rest →
       parseMembers fuel (commas (printMember <$> ms) +:+ "}" +:+ rest) = Done ms rest
       ∨ parseMembers fuel (commas (printMember <$> ms) +:+ "}" +:+ rest) = NoFuel).
Proof.
  induction fuel as [|fuel (IHv & IHe & IHm)]; [by repeat split; right|].
  split; [|split].
  - intros v rest Hv Hrest. destruct v as [|[]|n|lexeme|s|l|ms]; try done.
    + left. apply parseValue_null.
    + left. apply parseValue_true.
    + left. apply parseValue_false.
    + left. cbn [stringify].
      destruct (showZ_head n) as (c & t & Hs & Hc).
      rewrite Hs, app_cons, parseValue_number by done.
      by rewrite <- app_cons, <- Hs, number_showZ.
    + left. cbn [stringify].
      destruct (quote_reads s rest) as (t & -> & Ht).
      by rewrite parseValue_string, Ht.
    + destruct l as [|x l]; [left; apply parseValue_empty_array|].
      cbn [stringify plain] in *.
      change (map stringify (x :: l)) with (stringify <$> x :: l).
      rewrite !app_assoc_s.
      destruct (elements_head (x :: l) ("]" +:+ rest) Hv) as (c & t & He & Hc); [done|].
      destruct (IHe (x :: l) rest Hv) as [Hp|Hp]; [done..| |];
        rewrite He in *;
        change ("[" +:+ String c t) with (String "[" (String c t));
        rewrite parseValue_array, Hp by done; [by left|by right].
    + destruct ms as [|kv ms]; [left; apply parseValue_empty_object|].
      cbn [stringify plain] in *.
      change (map _ (kv :: ms)) with (printMember <$> kv :: ms).
      rewrite !app_assoc_s.
      destruct (members_head (kv :: ms) ("}" +:+ rest)) as (t & He); [done|].
      destruct (IHm (kv :: ms) rest Hv) as [Hp|Hp]; [done..| |];
        rewrite He in *;
        change ("{" +:+ String dquote t) with (String "{" (String dquote t));
        rewrite parseValue_object, Hp by done; [by left|by right].
  - intros l rest Hl Hne Hrest. destruct l as [|x l]; [done|].
    apply andb_prop in Hl as [Hx Hl]. rewrite parseElements_unfold.
    destruct l as [|y l].
    + change (commas (stringify <$> [x])) with (stringify x).
      destruct (IHv x ("]" +:+ rest) Hx) as [Hp|Hp];
        [by apply numberEnds_close; left| |]; rewrite Hp; [|by right].
      left. cbn [andThen]. cbv zeta. rewrite skipWs_app by done.
      by rewrite lit_prefix.
    + change (commas (stringify <$> x :: y :: l))
        with (stringify x +:+ "," +:+ commas (stringify <$> y :: l)).
      rewrite !app_assoc_s.
      destruct (IHv x ("," +:+ commas (stringify <$> y :: l) +:+ "]" +:+ rest) Hx)
        as [Hp|Hp]; [by apply numberEnds_close; right; right| |]; rewrite Hp;
        [|by right].
      cbn [andThen]. cbv zeta. rewrite skipWs_app by done.
      rewrite (lit_app_ne "]") by done. rewrite lit_prefix.
      destruct (IHe (y :: l) rest Hl) as [Hq|Hq]; [done..| |]; rewrite Hq;
        [by left|by right].
  - intros ms rest Hms Hne Hrest. destruct ms as [|[k v] ms]; [done|].
    apply andb_prop in Hms as [Hx Hms]. cbn [snd] in Hx.
    rewrite parseMembers_unfold.
    assert (∀ tail, ∃ t,
      printMember (k, v) +:+ tail = String dquote t
      ∧ stringBody Plain t = Done k (":" +:+ stringify v +:+ tail)) as Hkey.
    { intros tail. unfold printMember. cbn [fst snd]. rewrite !app_assoc_s.
      destruct (quote_reads k (":" +:+ stringify v +:+ tail)) as (t & -> & Ht).
      by exists t. }
    destruct ms as [|kv' ms].
    + change (commas (printMember <$> [(k, v)])) with (printMember (k, v)).
      destruct (Hkey ("}" +:+ rest)) as (t & -> & Ht).
      rewrite skipWs_head by done. rewrite (lit_char dquote : ∀ s, lit dquotes _ = _).
      rewrite Ht. cbn [andThen]. rewrite skipWs_app by done. rewrite lit_prefix.
      destruct (IHv v ("}" +:+ rest) Hx) as [Hp|Hp];
        [by apply numberEnds_close; right; left| |]; rewrite Hp; [|by right].
      left. cbn [andThen]. cbv zeta. rewrite skipWs_app by done.
      by rewrite lit_prefix.
    + change (commas (printMember <$> (k, v) :: kv' :: ms))
        with (printMember (k, v) +:+ "," +:+ commas (printMember <$> kv' :: ms)).
      rewrite !app_assoc_s.
      destruct (Hkey ("," +:+ commas (printMember <$> kv' :: ms) +:+ "}" +:+ rest))
        as (t & -> & Ht).
      rewrite skipWs_head by done. rewrite (lit_char dquote : ∀ s, lit dquotes _ = _).
      rewrite Ht. cbn [andThen]. rewrite skipWs_app by done. rewrite lit_prefix.
      destruct (IHv v ("," +:+ commas (printMember <$> kv' :: ms) +:+ "}" +:+ rest) Hx)
        as [Hp|Hp]; [by apply numberEnds_close; right; right| |]; rewrite Hp;
        [|by right].
      cbn [andThen]. cbv zeta. rewrite skipWs_app by done.
      rewrite (lit_app_ne "}") by done. rewrite lit_prefix.
      destruct (IHm (kv' :: ms) rest Hms) as [Hq|Hq]; [done..| |]; rewrite Hq;
        [by left|by right].
Qed.

(** [JSON.parse(JSON.stringify(v))] gives [v] back. *)
Lemma parse_stringify v : plain v = true → parse (stringify v) = Ok v.
Proof.
  intros Hv. unfold parse.
  destruct (proj1 (print_read (2 * String.length (stringify v) + 2)) v "" Hv I)
    as [Hp|Hp]; rewrite app_nil_r_s in Hp.
  - by rewrite Hp.
  - by apply parse_fuel in Hp.
Qed.

(** ** The snapshot read back *)

Lemma decodeSelection_encode v : decodeSelection (encodeSelection v) = Some v.
Proof. by destruct v. Qed.

Lemma decodeStrings_encode (l : list string) : mapM decodeString (JStr <$> l) = Some l.
Proof. induction l as [|s l IH]; [done|]. cbn. by rewrite IH. Qed.

Lemma decodeItem_encode q : decodeItem (encodeItem q) = Some q.
Proof.
  destruct q as [qu os c e]. unfold decodeItem, encodeItem. cbn -[mapM fmap].
  repeat first [rewrite bool_decide_eq_true_2 by done
               |rewrite bool_decide_eq_false_2 by done].
  cbn -[mapM fmap]. by rewrite decodeStrings_encode.
Qed.

Lemma decodeItems_encode (l : list MCQItem) : mapM decodeItem (encodeItem <$> l) = Some l.
Proof.
  induction l as [|q l IH]; [done|].
  rewrite fmap_cons. cbn [mapM]. rewrite decodeItem_encode. cbn. by rewrite IH.
Qed.

Lemma decodeAnswers_fold (m acc : gmap nat selection) l :
  foldl (λ acc kv,
           m ← acc; k ← natKey (fst kv); a ← decodeSelection (snd kv);
           Some (<[k := a]> m))
        (Some acc) ((λ k, (showNat k, encodeSelection (default None (m !! k)))) <$> l)
  = Some (foldl (λ a k, <[k := default None (m !! k)]> a) acc l).
Proof.
  revert acc. induction l as [|k l IH]; intros acc; [done|].
  rewrite fmap_cons. cbn [foldl fst snd].
  rewrite natKey_showNat, decodeSelection_encode. cbn. apply IH.
Qed.

Lemma lookup_foldl_insert (m acc : gmap nat selection) l i :
  foldl (λ a k, <[k := default None (m !! k)]> a) acc l !! i
  = if decide (i ∈ l) then Some (default None (m !! i)) else acc !! i.
Proof.
  revert acc. induction l as [|k l IH]; intros acc; [done|].
  cbn [foldl]. rewrite IH.
  destruct (decide (i ∈ l)) as [Hi|Hi].
  - by rewrite decide_True by (by right).
  - destruct (decide (i = k)) as [->|Hne].
    + rewrite decide_True by left. by rewrite lookup_insert_eq.
    + rewrite decide_False by (by intros [?|?]%elem_of_cons).
      by rewrite lookup_insert_ne.
Qed.

Lemma decodeAnswers_encode m : decodeAnswers (encodeAnswers m) = Some m.
Proof.
  unfold decodeAnswers, encodeAnswers. rewrite decodeAnswers_fold. f_equal.
  apply map_eq. intros i. rewrite lookup_foldl_insert.
  case_decide as Hi.
  - apply elem_of_Object_keys, elem_of_dom in Hi as [x Hx].
    unfold selection in *. by rewrite Hx.
  - rewrite lookup_empty. symmetry. apply not_elem_of_dom.
    by rewrite <- elem_of_Object_keys.
Qed.

Lemma plain_encodeItem q : plain (encodeItem q) = true.
Proof.
  destruct q as [qu os c e]. cbn. rewrite !andb_true_r.
  induction os as [|o os IH]; [done|]. done.
Qed.

Lemma plain_snapshot st : plain (snapshot st) = true.
Proof.
  unfold snapshot. cbn [plain forallb snd]. rewrite !andb_true_r.
  apply andb_true_intro. split.
  - unfold encodeAnswers. cbn [plain].
    induction (Object_keys (mcqState st)) as [|k l IH]; [done|].
    rewrite fmap_cons. cbn [forallb snd]. rewrite IH.
    by destruct (default None (mcqState st !! k)).
  - induction (localMcqData st) as [|q l IH]; [done|].
    rewrite fmap_cons. cbn [forallb]. by rewrite plain_encodeItem, IH.
Qed.

Lemma stringify_snapshot_nonempty st : stringify (snapshot st) ≠ "".
Proof. done. Qed.

(** Resume reads back what the persist effect wrote. *)
Lemma handleResume_snapshot ch st ls st0 :
  ls !! storageKey ch = Some (stringify (snapshot st)) →
  handleResume ch ls st0
  = Ok (Restored_state
          (setShowResumePrompt false
             (setLocalMcqData (localMcqData st)
                (setBatchIndex (batchIndex st) (setMcqState (mcqState st) st0))))).
Proof.
  intros Hls. unfold handleResume. rewrite Hls.
  rewrite bool_decide_eq_false_2 by apply stringify_snapshot_nonempty.
  rewrite parse_stringify by apply plain_snapshot.
  unfold snapshot at 1. cbn -[encodeAnswers mapM fmap].
  repeat first [rewrite bool_decide_eq_true_2 by done
               |rewrite bool_decide_eq_false_2 by done].
  cbn -[encodeAnswers mapM fmap].
  assert (falsy (encodeAnswers (mcqState st)) = false) as -> by done.
  rewrite decodeAnswers_encode.
  repeat first [rewrite bool_decide_eq_true_2 by (done || lia)
               |rewrite bool_decide_eq_false_2 by done].
  cbn -[mapM fmap]. by rewrite decodeItems_encode, Nat2Z.id.
Qed.

(** ** The player of YouTube links *)

Lemma startsWith_nil s : startsWith s "" = true.
Proof. by destruct s. Qed.

Lemma splitFrom_skip sep k s :
  Player.splitFrom sep k s = Player.splitFrom sep 0 (dropChars k s).
Proof.
  revert k. induction s as [|c s IH]; intros [|k]; try done. cbn. apply IH.
Qed.

(** Without the separator there is one piece. *)
Lemma split_none sep s :
  sep ≠ "" → includes s sep = false → Player.split sep s = (s, []).
Proof.
  intros Hsep. unfold Player.split. induction s as [|c s IH]; [done|].
  cbn [includes Player.splitFrom]. intros [Hs Hi]%orb_false_elim.
  by rewrite Hs, (IH Hi).
Qed.

(** With it, the first piece ends where it occurs first, and there is a
    second one. *)
Lemma split_first sep s n :
  sep ≠ "" → Player.indexOf s sep = Some n →
  Player.split sep s
  = (takeChars n s,
     (Player.split sep (dropChars (n + String.length sep) s)).1
     :: (Player.split sep (dropChars (n + String.length sep) s)).2).
Proof.
  intros Hsep. unfold Player.split. revert n.
  induction s as [|c s IH]; intros n.
  - cbn. destruct sep; [done|]. done.
  - cbn [Player.indexOf Player.splitFrom].
    destruct (startsWith (String c s) sep) eqn:Hs.
    + intros [= <-]. cbn [takeChars]. f_equal.
      rewrite splitFrom_skip. destruct sep as [|a sep]; [done|].
      replace (String.length (String a sep) - 1) with (String.length sep)
        by (cbn; lia).
      cbn [String.length Nat.add dropChars].
      by destruct (Player.splitFrom (String a sep) 0 (dropChars (String.length sep) s)).
    + destruct (Player.indexOf s sep) as [n'|] eqn:Hn; [|done].
      intros [= <-]. rewrite (IH n') by done. done.
Qed.

Lemma indexOf_includes s p : includes s p = true → is_Some (Player.indexOf s p).
Proof.
  induction s as [|c s IH]; cbn [includes Player.indexOf].
  - rewrite orb_false_r. by intros ->.
  - destruct (startsWith (String c s) p); [done|]. cbn [orb].
    intros [n ->]%IH. done.
Qed.

(** The piece before a one-character separator *)
Lemma split_char_fst c t rest :
  allChars isIdChar t = true → isIdChar c = false →
  match rest with EmptyString => True | String d _ => d = c end →
  (Player.split (String c "") (t +:+ rest)).1 = t.
Proof.
  intros Ht Hc Hrest. unfold Player.split. induction t as [|a t IH].
  - change ("" +:+ rest) with rest. destruct rest as [|d rest]; [done|].
    subst d. cbn. by rewrite bool_decide_eq_true_2, startsWith_nil.
  - rewrite app_cons. cbn in Ht. apply andb_prop in Ht as [Ha Ht].
    cbn [Player.splitFrom startsWith].
    rewrite bool_decide_eq_false_2 by (intros ->; congruence).
    cbn [andb]. specialize (IH Ht).
    destruct (Player.splitFrom _ 0 (t +:+ rest)). cbn in *. by rewrite IH.
Qed.

Lemma split_char_clean c s : includes (Player.split (String c "") s).1 (String c "") = false.
Proof.
  unfold Player.split. induction s as [|a s IH]; [done|].
  cbn [Player.splitFrom startsWith]. rewrite startsWith_nil, andb_true_r.
  case_bool_decide as Hca; [done|].
  destruct (Player.splitFrom _ 0 s) as [p ps]. cbn [fst] in *.
  cbn [includes startsWith]. rewrite bool_decide_eq_false_2 by done. done.
Qed.

Lemma includes_idChars c t :
  allChars isIdChar t = true → isIdChar c = false → includes t (String c "") = false.
Proof.
  intros Ht Hc. induction t as [|a t IH]; [done|].
  cbn in Ht. apply andb_prop in Ht as [Ha Ht].
  cbn [includes startsWith]. rewrite bool_decide_eq_false_2 by (intros ->; congruence).
  by apply IH.
Qed.

Lemma dropChars_app a b : dropChars (String.length a) (a +:+ b) = b.
Proof. induction a as [|c a IH]; [done|]. by rewrite app_cons. Qed.

Lemma split_char_app c t rest :
  allChars isIdChar t = true → isIdChar c = false →
  (Player.split (String c "") (t +:+ rest)).1
  = t +:+ (Player.split (String c "") rest).1.
Proof.
  intros Ht Hc. unfold Player.split. induction t as [|a t IH]; [done|].
  rewrite !app_cons. cbn in Ht. apply andb_prop in Ht as [Ha Ht].
  cbn [Player.splitFrom startsWith].
  rewrite bool_decide_eq_false_2 by (intros ->; congruence).
  cbn [andb]. specialize (IH Ht).
  destruct (Player.splitFrom _ 0 (t +:+ rest)). cbn in *. by rewrite IH.
Qed.

Lemma split_char_other c d q :
  c ≠ d →
  (Player.split (String c "") (String d q)).1 = String d (Player.split (String c "") q).1.
Proof.
  intros Hne. unfold Player.split. cbn [Player.splitFrom startsWith].
  rewrite bool_decide_eq_false_2 by done. cbn [andb].
  by destruct (Player.splitFrom _ 0 q).
Qed.

(** After a marker the URL includes there is a piece to read. *)
Lemma pieceAfter_Some sep stop u :
  sep ≠ "" → includes u sep = true → is_Some (Player.pieceAfter sep stop u).
Proof.
  intros Hsep [n Hn]%indexOf_includes. unfold Player.pieceAfter.
  by rewrite (split_first sep u n).
Qed.

(** The piece after the marker of a link that carries [v] *)
Lemma pieceAfter_link m stop pre v post :
  m ≠ "" →
  Player.indexOf (pre +:+ m +:+ v +:+ post) m = Some (String.length pre) →
  includes (v +:+ post) m = false →
  Player.pieceAfter m stop (pre +:+ m +:+ v +:+ post)
  = Some (Player.split stop (v +:+ post)).1.
Proof.
  intros Hm Hi Hno. unfold Player.pieceAfter.
  rewrite (split_first m _ _ Hm Hi).
  rewrite <- length_app, <- app_assoc_s, dropChars_app.
  rewrite split_none by done. reflexivity.
Qed.

(** The last step of the [try] block on what the chain found *)
Lemma videoId_found u w v :
  Player.firstId u = Some w →
  v ≠ "" → allChars isIdChar v = true →
  w = v ∨ (∃ r, w = v +:+ String "?" r) →
  Player.videoId u = v.
Proof.
  intros Hw Hne Hv Hshape. unfold Player.videoId. rewrite Hw.
  destruct Hshape as [->|[r ->]].
  - rewrite (includes_idChars "?" v) by done. by rewrite andb_false_r.
  - rewrite bool_decide_eq_false_2 by (by destruct v).
    rewrite includes_further
      by (apply includes_here; exact (startsWith_prefix "?" r)).
    cbn [negb andb].
    by apply split_char_fst.
Qed.

(** The [try] block of [CustomPlayer] never reaches its [catch]: whatever
    the URL, the chain of markers finds a piece to read and raises
    nothing. *)
Theorem catch_is_unreachable videoUrl : is_Some (Player.firstId videoUrl).
Proof.
  unfold Player.firstId.
  destruct (includes videoUrl "youtu.be/") eqn:H1; [by apply pieceAfter_Some|].
  destruct (includes videoUrl "v=") eqn:H2; [by apply pieceAfter_Some|].
  destruct (includes videoUrl "embed/") eqn:H3; [by apply pieceAfter_Some|].
  done.
Qed.

(** Whatever the URL, the frame that [CustomPlayer] returns embeds an
    identifier that is not empty and has no question mark in it; any other
    URL gives the view of an invalid URL. *)
Theorem frame_identifier_is_clean videoUrl :
  (∃ v, v ≠ "" ∧ includes v "?" = false
        ∧ Player.CustomPlayer videoUrl = Player.Frame (Player.embedUrl v))
  ∨ Player.CustomPlayer videoUrl = Player.InvalidUrl.
Proof.
  unfold Player.CustomPlayer. case_bool_decide as Hv; [by right|]. left.
  exists (Player.videoId videoUrl). split; [done|]. split; [|done].
  clear Hv. unfold Player.videoId.
  destruct (Player.firstId videoUrl) as [w|]; [|done].
  destruct (negb (w === "") && includes w "?") eqn:Hw.
  - apply split_char_clean.
  - apply andb_false_iff in Hw as [Hw|Hw]; [|done].
    apply negb_false_iff, bool_decide_eq_true in Hw. by subst w.
Qed.

(** A link that carries an identifier after its marker (a short link, a
    watch link or an embed link, with or without parameters after the
    identifier) is played in a frame that embeds that identifier. *)
Theorem CustomPlayer_reads_links videoUrl v :
  Player.linkTo videoUrl v →
  Player.videoId videoUrl = v
  ∧ Player.CustomPlayer videoUrl = Player.Frame (Player.embedUrl v).
Proof.
  intros (m & stops & pre & post & Hm & Hu & Hi & Hno & Hne & Hv & Hpost).
  assert (Player.videoId videoUrl = v) as Hid.
  { unfold Player.marker in Hm.
    assert (∀ stop, stop = "?" ∨ stop = "&" →
              Player.firstId videoUrl = Player.pieceAfter m stop videoUrl →
              m ≠ "" →
              match post with
              | EmptyString => True
              | String c _ => String c "" = stop ∨ (stop = "&" ∧ c = "?"%char)
              end →
              Player.videoId videoUrl = v) as Hgo.
    { intros stop Hstop Hf Hmne Hend. rewrite Hu in Hi, Hf.
      rewrite (pieceAfter_link m stop pre v post) in Hf by done.
      rewrite <- Hu in Hf. apply (videoId_found _ _ _ Hf Hne Hv).
      destruct post as [|c post].
      - left. rewrite app_nil_r_s.
        rewrite <- (app_nil_r_s v) at 1.
        destruct Hstop as [-> | ->]; by apply split_char_fst.
      - destruct Hend as [<-|[-> ->]].
        + left. apply split_char_fst; [done| |done].
          by destruct Hstop as [[= ->]|[= ->]].
        + right. rewrite split_char_app by done.
          rewrite split_char_other by done. eauto. }
    unfold Player.firstId in Hgo.
    destruct (includes videoUrl "youtu.be/") eqn:H1.
    { injection Hm as <- <-. apply (Hgo "?"); [by left|done|done|].
      destruct post as [|c post]; [done|]. left.
      apply list_elem_of_singleton in Hpost. by subst c. }
    destruct (includes videoUrl "v=") eqn:H2.
    { injection Hm as <- <-. apply (Hgo "&"); [by right|done|done|].
      destruct post as [|c post]; [done|].
      apply elem_of_cons in Hpost as [->|Hpost]; [by left|].
      apply list_elem_of_singleton in Hpost. subst c. by right. }
    destruct (includes videoUrl "embed/") eqn:H3; [|done].
    injection Hm as <- <-. apply (Hgo "?"); [by left|done|done|].
    destruct post as [|c post]; [done|]. left.
    apply list_elem_of_singleton in Hpost. by subst c. }
  split; [done|]. unfold Player.CustomPlayer. rewrite Hid.
  by rewrite bool_decide_eq_false_2.
Qed.

Lemma CustomPlayer_reads_links_witness :
  Player.videoId "https://www.youtube.com/watch?v=dQw4w9WgXcQ&t=3" = "dQw4w9WgXcQ"
  ∧ Player.CustomPlayer "https://www.youtube.com/watch?v=dQw4w9WgXcQ&t=3"
    = Player.Frame (Player.embedUrl "dQw4w9WgXcQ").
Proof.
  apply CustomPlayer_reads_links.
  exists "v=", ["&"%char; "?"%char], "https://www.youtube.com/watch?", "&t=3".
  split; [vm_compute; reflexivity|]. split; [reflexivity|].
  split; [vm_compute; reflexivity|]. split; [vm_compute; reflexivity|].
  split; [discriminate|]. split; [vm_compute; reflexivity|]. by left.
Defined.

(** ** Resuming a session *)


(** A session in which something was answered can be taken up where it
    was left: after any run of clicks from a fresh start, Resume (pressed
    in whatever state the component is in after the page was loaded again)
    raises nothing and puts back the answers, the page and the questions in
    the order of the session that was left, and closes the dialog; the
    order drawn at the reload is dropped. *)
Theorem resume_restores_session ch ms st ls st0 :
  showResults st = false → mcqState st = ∅ →
  mcqState (clicks ch ms (st, ls)).1 ≠ ∅ →
  handleResume ch (clicks ch ms (st, ls)).2 st0
  = Ok (Restored_state
          (setShowResumePrompt false
             (setLocalMcqData (localMcqData (clicks ch ms (st, ls)).1)
                (setBatchIndex (batchIndex (clicks ch ms (st, ls)).1)
                   (setMcqState (mcqState (clicks ch ms (st, ls)).1) st0))))).
Proof.
  intros Hr He Hne. apply handleResume_snapshot.
  destruct (clicks_saved ch ms (st, ls) ls) as [[Hm _]|[_ Hs]]; [done|by left|done|done].
Qed.

Lemma resume_restores_session_witness :
  handleResume Sample.chapter
    (clicks Sample.chapter [Answer 1 0; NextBatch; Answer 0 1]
       (Sample.fresh [Sample.item 0; Sample.item 1], ∅)).2
    (setShowResumePrompt true (Sample.fresh [Sample.item 1; Sample.item 0]))
  = Ok (Restored_state
          (setShowResumePrompt false
             (setLocalMcqData
                (localMcqData (clicks Sample.chapter [Answer 1 0; NextBatch; Answer 0 1]
                                 (Sample.fresh [Sample.item 0; Sample.item 1], ∅)).1)
                (setBatchIndex
                   (batchIndex (clicks Sample.chapter [Answer 1 0; NextBatch; Answer 0 1]
                                  (Sample.fresh [Sample.item 0; Sample.item 1], ∅)).1)
                   (setMcqState
                      (mcqState (clicks Sample.chapter [Answer 1 0; NextBatch; Answer 0 1]
                                   (Sample.fresh [Sample.item 0; Sample.item 1], ∅)).1)
                      (setShowResumePrompt true
                         (Sample.fresh [Sample.item 1; Sample.item 0]))))))).
Proof.
  apply resume_restores_session; [reflexivity|reflexivity|].
  vm_compute. discriminate.
Defined.

(** After a session in which something was answered, loading the quiz
    again (with no answers of a past attempt) shows the resume dialog over
    the freshly drawn order, and the session timer stands still while the
    dialog is shown. *)
Theorem reload_offers_resume ch c data order ms st ls st0 :
  showResults st = false → mcqState st = ∅ →
  mcqState (clicks ch ms (st, ls)).1 ≠ ∅ →
  mcqData c = Some data → userAnswers c = None →
  showResumePrompt (mcqInit c ch order (clicks ch ms (st, ls)).2 st0) = true
  ∧ localMcqData (mcqInit c ch order (clicks ch ms (st, ls)).2 st0) = order
  ∧ mcqState (mcqInit c ch order (clicks ch ms (st, ls)).2 st0) = mcqState st0
  ∧ ∀ n, Nat.iter n tick (mcqInit c ch order (clicks ch ms (st, ls)).2 st0)
         = mcqInit c ch order (clicks ch ms (st, ls)).2 st0.
Proof.
  intros Hr He Hne Hd Hu. unfold mcqInit. rewrite Hd, Hu.
  destruct (clicks_saved ch ms (st, ls) ls) as [[Hm _]|[_ ->]]; [done|by left|done|].
  rewrite bool_decide_eq_false_2 by apply stringify_snapshot_nonempty.
  split_and!; try done.
  induction n as [|n IH]; [done|].
  change (Nat.iter (S n) tick ?s) with (tick (Nat.iter n tick s)). rewrite IH.
  unfold tick, timerRunning. cbn. by rewrite andb_false_r.
Qed.

Lemma reload_offers_resume_witness :
  showResumePrompt
    (mcqInit (Sample.quiz [Sample.item 0; Sample.item 1]) Sample.chapter
       [Sample.item 1; Sample.item 0]
       (clicks Sample.chapter [Answer 0 1]
          (Sample.fresh [Sample.item 0; Sample.item 1], ∅)).2 initialState) = true.
Proof.
  destruct (reload_offers_resume Sample.chapter
              (Sample.quiz [Sample.item 0; Sample.item 1])
              [Sample.item 0; Sample.item 1] [Sample.item 1; Sample.item 0]
              [Answer 0 1] (Sample.fresh [Sample.item 0; Sample.item 1]) ∅ initialState)
    as (H & _);
    [reflexivity|reflexivity|vm_compute; discriminate|reflexivity|reflexivity|exact H].
Defined.

Lemma restart_starts_over_witness :
  mcqState (handleRestart Sample.chapter [Sample.item 1; Sample.item 0] ∅
              (answer (0, 1) (Sample.fresh [Sample.item 0; Sample.item 1]))).1 = ∅.
Proof.
  apply (proj1 (restart_starts_over Sample.chapter [Sample.item 1; Sample.item 0] ∅
                  (answer (0, 1) (Sample.fresh [Sample.item 0; Sample.item 1])))).
Defined.

